(** * gsElasticity: the Navier-Stokes time integrator and the FSI coupler

    A shallow embedding of [gsNsTimeIntegrator.hpp], of the mass assembler
    ([gsMassAssembler<T>::assemble], [eliminateFixedDofs], [refresh]), of
    [gsReadVector] and of the coupled loop of the flapping-beam example,
    together with the properties of the design document that concern them
    and further properties of the code.

    Conventions.
    - The integrator is a template over the scalar type [T]; the embedding is
      generic over a [Scalar] instance.  Floating point is idealised as exact
      arithmetic: the instance for [Q] runs, the instance for [R] carries the
      cosine of the inflow ramp.  What would hold by exactness alone - that
      the time loop ends for every positive step, that the ramp stays below
      1 away from time 2 - is not stated.
    - [gsMatrix<T>] and [gsSparseMatrix<T>] are a pair of dimensions and a
      coefficient function; Eigen's dimension assertions are debug-only and
      are not modelled as failures.
    - Only [GISMO_ENSURE] raises: a failed check is an [Err] result.
    - Classes of the repository whose bodies are outside the sources (the
      Navier-Stokes assembler, the linear solver, the elasticity integrator,
      the mesh-motion solver) are collaborators: the members of the classes
      [Backend] and [Solvers].  The theorems hold for every instance.
    - The definitions come first: matrices, assemblers, the integrator, the
      coupler and small instances to run them on; the properties follow. *)

From Stdlib Require Import List Bool Arith Lia ZArith QArith Reals Lra Ring.
From Stdlib Require Import Qreals RealField.
Import ListNotations.

Set Implicit Arguments.

Open Scope nat_scope.

(** ** Scalars *)

(** The operations the integrator uses on its template parameter [T]. *)
Class Scalar (T : Type) : Type := {
  szero : T;
  sone : T;
  sadd : T -> T -> T;
  smul : T -> T -> T;
  ssub : T -> T -> T;
  sopp : T -> T;
  sdiv : T -> T -> T;
  ofQ : Q -> T
}.

Declare Scope scalar_scope.
Delimit Scope scalar_scope with S.
Infix "+" := sadd : scalar_scope.
Infix "*" := smul : scalar_scope.
Infix "-" := ssub : scalar_scope.
Infix "/" := sdiv : scalar_scope.
Notation "- x" := (sopp x) : scalar_scope.

#[export] Instance Scalar_Q : Scalar Q := {|
  szero := 0%Q; sone := 1%Q;
  sadd := Qplus; smul := Qmult; ssub := Qminus; sopp := Qopp; sdiv := Qdiv;
  ofQ := fun q => q
|}.

#[export] Instance Scalar_R : Scalar R := {|
  szero := 0%R; sone := 1%R;
  sadd := Rplus; smul := Rmult; ssub := Rminus; sopp := Ropp; sdiv := Rdiv;
  ofQ := Q2R
|}.

(** ** Matrices *)

Module Matrix.

Record Mat (T : Type) : Type := mkMat {
  rows : nat;
  cols : nat;
  coef : nat -> nat -> T
}.

Section Ops.
Context {T : Type} {ST : Scalar T}.

(** [gsMatrix<T>::Zero(r,c)], [setZero(r,c)]. *)
Definition mzero (r c : nat) : Mat T := mkMat r c (fun _ _ => szero).

(** [s * A]. *)
Definition mscale (s : T) (A : Mat T) : Mat T :=
  mkMat (rows A) (cols A) (fun i j => (s * coef A i j)%S).

(** [A + B], [A += B]: the dimensions are those of the left operand. *)
Definition madd (A B : Mat T) : Mat T :=
  mkMat (rows A) (cols A) (fun i j => (coef A i j + coef B i j)%S).

(** [A - B], [A -= B]. *)
Definition msub (A B : Mat T) : Mat T :=
  mkMat (rows A) (cols A) (fun i j => (coef A i j - coef B i j)%S).

(** The sum of [f 0 .. f (n-1)]. *)
Fixpoint ssum (n : nat) (f : nat -> T) : T :=
  match n with
  | O => szero
  | S k => (ssum k f + f k)%S
  end.

(** [A * B]. *)
Definition mmul (A B : Mat T) : Mat T :=
  mkMat (rows A) (cols B)
        (fun i j => ssum (cols A) (fun k => (coef A i k * coef B k j)%S)).

(** [A.block(r0,c0,p,q)] copied into a matrix of its own: [p] rows, [q]
    columns, no coefficient stored outside. *)
Definition block (r0 c0 p q : nat) (A : Mat T) : Mat T :=
  mkMat p q (fun i j => if (i <? p) && (j <? q)
                        then coef A (r0 + i) (c0 + j) else szero).

(** [A.middleRows(r0,n)] as a value. *)
Definition middleRows (r0 n : nat) (A : Mat T) : Mat T :=
  block r0 0 n (cols A) A.

(** [A.middleRows(r0,n) += B]. *)
Definition addRows (r0 n : nat) (A B : Mat T) : Mat T :=
  mkMat (rows A) (cols A)
        (fun i j => if (r0 <=? i) && (i <? r0 + n)
                    then (coef A i j + coef B (i - r0) j)%S else coef A i j).

(** [A.middleRows(r0,n) -= B]. *)
Definition subRows (r0 n : nat) (A B : Mat T) : Mat T :=
  mkMat (rows A) (cols A)
        (fun i j => if (r0 <=? i) && (i <? r0 + n)
                    then (coef A i j - coef B (i - r0) j)%S else coef A i j).

(** [A.leftCols(n) += B]. *)
Definition addLeftCols (n : nat) (A B : Mat T) : Mat T :=
  mkMat (rows A) (cols A)
        (fun i j => if j <? n then (coef A i j + coef B i j)%S else coef A i j).

(** [A.conservativeResize(r,c)] of a sparse matrix: the coefficients inside
    both the old and the new dimensions are kept, the others are zero. *)
Definition conservativeResize (r c : nat) (A : Mat T) : Mat T :=
  mkMat r c (fun i j => if (i <? r) && (j <? c)
                           && (i <? rows A) && (j <? cols A)
                        then coef A i j else szero).

(** The fixed degrees of freedom of all components stacked into one column,
    as [eliminateFixedDofs] does with [middleRows]. *)
Fixpoint vstack (l : list (Mat T)) : Mat T :=
  match l with
  | [] => mkMat 0 1 (fun _ _ => szero)
  | d :: r =>
      let rest := vstack r in
      mkMat (rows d + rows rest) 1
            (fun i j => if i <? rows d then coef d i j
                        else coef rest (i - rows d) j)
  end.

(** The number of rows [vstack] has: the sum of [m_ddof[i].rows()]. *)
Definition numFixedDofs (l : list (Mat T)) : nat :=
  fold_right (fun d n => rows d + n) 0 l.

End Ops.

End Matrix.

Import Matrix.

(** ** Results of operations that may raise *)

(** The three [GISMO_ENSURE] checks on the integrator's paths:
    "No initial conditions provided!", "Mass matrix not assembled!" and
    "No state saved!". *)
Inductive error : Set :=
| NoInitialConditions
| MassNotAssembled
| NoStateSaved.

Inductive result (A : Type) : Type :=
| Ok (a : A)
| Err (e : error).

Arguments Ok {A} a.
Arguments Err {A} e.

Definition bind {A B : Type} (c : result A) (k : A -> result B) : result B :=
  match c with
  | Ok a => k a
  | Err e => Err e
  end.

Notation "x <- c ;; k" := (bind c (fun x => k))
  (at level 61, c at next level, right associativity).

Definition failed {A : Type} (c : result A) : Prop := exists e, c = Err e.

(** ** The assemblers the integrator drives *)

Module Assemblers.

(** The values of the option "Scheme" that [makeTimeStep] tests; the option
    is an int, and [other_scheme] stands for a value that is neither. *)
Inductive time_integration : Set :=
| implicit_linear
| implicit_nonlinear
| other_scheme.

Definition scheme_eqb (a b : time_integration) : bool :=
  match a, b with
  | implicit_linear, implicit_linear => true
  | implicit_nonlinear, implicit_nonlinear => true
  | other_scheme, other_scheme => true
  | _, _ => false
  end.

(** The values of the assembler's option "Assembly" the integrator sets. *)
Inductive ns_assembly : Set :=
| ossen
| newton_next.

Inductive solver_verbosity : Set :=
| none
| some
| all.

(** [gsMultiPatch<T>]: the coefficient matrix of each patch, by patch index. *)
Definition MultiPatch (T : Type) : Type := list (Mat T).

(** What the integrator reads and writes of its [gsNsAssembler<T>]. *)
Record NsAssembler (T : Type) : Type := mkNsAssembler {
  nsMatrix : Mat T;               (* matrix() *)
  nsRhs : Mat T;                  (* rhs() *)
  nsAssembly : ns_assembly;       (* options().getInt("Assembly") *)
  nsFixedDofs : list (Mat T);     (* allFixedDofs() *)
  nsNumDofs : nat;                (* numDofs() *)
  nsPatches : MultiPatch T        (* patches(): the flow geometry *)
}.

(** [gsMassAssembler<T>]: the system, the Dirichlet values of each component,
    the elimination matrix and the flag [assembled()] returns. *)
Record MassAssembler (T : Type) : Type := mkMassAssembler {
  massMatrix : Mat T;
  massRhs : Mat T;
  massDdof : list (Mat T);
  eliminationMatrix : Mat T;
  assembledFlag : bool;
  massNumDofs : nat
}.

(** The parts of the library the integrator calls and whose bodies are
    outside the sources.  [constructSolution] and the two overloads of the
    stiffness assembly depend on the assembler they are called on;
    [massVisitor] gives the coefficients [gsVisitorMass] pushes into the
    mass matrix and into the elimination matrix; [luSolve] is the sparse LU
    factorisation and solve; [converged] is the stopping test of the
    nonlinear solver on the tolerances and the trial solutions so far
    (newest first), [MaxIters] its iteration cap. *)
Class Backend (T : Type) : Type := {
  constructSolution :
    NsAssembler T -> Mat T -> list (Mat T) -> MultiPatch T * MultiPatch T;
  nsAssembleVector :
    NsAssembler T -> Mat T -> list (Mat T) -> Mat T * Mat T;
  nsAssemblePatches :
    NsAssembler T -> MultiPatch T -> MultiPatch T -> Mat T * Mat T;
  massVisitor : MassAssembler T -> (nat -> nat -> T) * (nat -> nat -> T);
  luSolve : Mat T -> Mat T -> Mat T;
  converged : T -> T -> list (Mat T) -> bool;
  MaxIters : nat
}.

Section Assemblers.
Context {T : Type} {ST : Scalar T} {B : Backend T}.

(** [options().setInt("Assembly",a)]. *)
Definition setAssembly (a : ns_assembly) (s : NsAssembler T) : NsAssembler T :=
  mkNsAssembler (nsMatrix s) (nsRhs s) a (nsFixedDofs s) (nsNumDofs s)
                (nsPatches s).

(** [setMatrix(m)] of the base assembler. *)
Definition setMatrix (m : Mat T) (s : NsAssembler T) : NsAssembler T :=
  mkNsAssembler m (nsRhs s) (nsAssembly s) (nsFixedDofs s) (nsNumDofs s)
                (nsPatches s).

(** [setRHS(r)] of the base assembler. *)
Definition setRHS (r : Mat T) (s : NsAssembler T) : NsAssembler T :=
  mkNsAssembler (nsMatrix s) r (nsAssembly s) (nsFixedDofs s) (nsNumDofs s)
                (nsPatches s).

(** [assemble(solutionVector,fixedDoFs)]: the system is replaced by the one
    assembled at the given solution. *)
Definition assembleVector (x : Mat T) (fixedDoFs : list (Mat T))
    (s : NsAssembler T) : NsAssembler T :=
  let r := nsAssembleVector s x fixedDoFs in
  setRHS (snd r) (setMatrix (fst r) s).

(** [assemble(velocity,pressure)]. *)
Definition assemblePatches (velocity pressure : MultiPatch T)
    (s : NsAssembler T) : NsAssembler T :=
  let r := nsAssemblePatches s velocity pressure in
  setRHS (snd r) (setMatrix (fst r) s).

(** [massAssembler.setFixedDofs(ddofs)]. *)
Definition massSetFixedDofs (ddofs : list (Mat T)) (m : MassAssembler T)
    : MassAssembler T :=
  mkMassAssembler (massMatrix m) (massRhs m) ddofs (eliminationMatrix m)
                  (assembledFlag m) (massNumDofs m).

(** [massAssembler.setRHS(r)]. *)
Definition massSetRHS (r : Mat T) (m : MassAssembler T) : MassAssembler T :=
  mkMassAssembler (massMatrix m) r (massDdof m) (eliminationMatrix m)
                  (assembledFlag m) (massNumDofs m).

(** [gsMassAssembler<T>::assemble]: the system is zeroed, the elimination
    matrix is resized to [numDofs] by the number of fixed degrees of freedom,
    the visitor fills both, and the flag is raised. *)
Definition massAssemble (m : MassAssembler T) : MassAssembler T :=
  let v := massVisitor m in
  mkMassAssembler
    (mkMat (massNumDofs m) (massNumDofs m) (fst v))
    (mzero (massNumDofs m) 1)
    (massDdof m)
    (mkMat (massNumDofs m) (numFixedDofs (massDdof m)) (snd v))
    true
    (massNumDofs m).

(** [gsMassAssembler<T>::eliminateFixedDofs]:
    [m_system.rhs() = -1*eliminationMatrix*fixedDofs]. *)
Definition eliminateFixedDofs (m : MassAssembler T)
    : result (MassAssembler T) :=
  if assembledFlag m then
    let fixedDofs := vstack (massDdof m) in
    Ok (massSetRHS
          (mmul (mscale (- sone)%S (eliminationMatrix m)) fixedDofs) m)
  else Err MassNotAssembled.

End Assemblers.

End Assemblers.

Import Assemblers.

(** ** The time integrator *)

Module NsTimeIntegrator.

(** The options of [defaultOptions()] the integrator reads. *)
Record Options (T : Type) : Type := mkOptions {
  Scheme : time_integration;
  Theta : T;
  Verbosity : solver_verbosity;
  AbsTol : T;
  RelTol : T
}.

(** What [saveState] copies. *)
Record Checkpoint (T : Type) : Type := mkCheckpoint {
  velVecSaved : Mat T;
  oldVecSaved : Mat T;
  massRhsSaved : Mat T;
  stiffRhsSaved : Mat T;
  stiffMatrixSaved : Mat T;
  ddofsSaved : list (Mat T)
}.

(** The calls the integrator makes to its collaborators, with their
    arguments; [ConstructSolution] also records the velocity and pressure it
    gave back, [StiffAssemble] the right-hand side the assembly produced.
    The log is an observation of the run: no function reads it. *)
Inductive event (T : Type) : Type :=
| StiffAssembleVector (x : Mat T) (fixedDoFs : list (Mat T))
| MassAssemble
| ConstructSolution (x : Mat T) (fixedDoFs : list (Mat T))
                    (velocity pressure : MultiPatch T)
| StiffAssemble (mode : ns_assembly) (velocity pressure : MultiPatch T)
                (rhs : Mat T)
| LinearSolve (matrix rhs : Mat T).

Arguments MassAssemble {T}.

Section Integrator.
Context {T : Type} {ST : Scalar T} {B : Backend T}.

Record Integrator : Type := mkIntegrator {
  stiffAssembler : NsAssembler T;    (* the assembler it refers to *)
  massAssembler : MassAssembler T;   (* the mass assembler it refers to *)
  velocityALE : MultiPatch T;        (* what the pointer points to *)
  patchesALE : list (nat * nat);     (* what the pointer points to *)
  initialized : bool;
  m_options : Options T;
  m_ddof : list (Mat T);
  numIters : nat;
  hasSavedState : bool;
  solVector : Mat T;
  oldSolVector : Mat T;
  oldTimeStep : T;
  tStep : T;
  flagALE : bool;
  sysMatrix : Mat T;                 (* m_system.matrix() *)
  sysRhs : Mat T;                    (* m_system.rhs() *)
  constRHS : Mat T;
  saved : Checkpoint T;              (* the six ...Saved members *)
  log : list (event T)               (* the calls made, oldest first *)
}.

Definition set_stiffAssembler (v : NsAssembler T) (s : Integrator)
    : Integrator :=
  mkIntegrator v (massAssembler s) (velocityALE s) (patchesALE s)
    (initialized s) (m_options s) (m_ddof s) (numIters s) (hasSavedState s)
    (solVector s) (oldSolVector s) (oldTimeStep s) (tStep s) (flagALE s)
    (sysMatrix s) (sysRhs s) (constRHS s) (saved s) (log s).

Definition set_massAssembler (v : MassAssembler T) (s : Integrator)
    : Integrator :=
  mkIntegrator (stiffAssembler s) v (velocityALE s) (patchesALE s)
    (initialized s) (m_options s) (m_ddof s) (numIters s) (hasSavedState s)
    (solVector s) (oldSolVector s) (oldTimeStep s) (tStep s) (flagALE s)
    (sysMatrix s) (sysRhs s) (constRHS s) (saved s) (log s).

Definition set_initialized (v : bool) (s : Integrator)
    : Integrator :=
  mkIntegrator (stiffAssembler s) (massAssembler s) (velocityALE s)
    (patchesALE s) v (m_options s) (m_ddof s) (numIters s) (hasSavedState s)
    (solVector s) (oldSolVector s) (oldTimeStep s) (tStep s) (flagALE s)
    (sysMatrix s) (sysRhs s) (constRHS s) (saved s) (log s).

Definition set_m_options (v : Options T) (s : Integrator)
    : Integrator :=
  mkIntegrator (stiffAssembler s) (massAssembler s) (velocityALE s)
    (patchesALE s) (initialized s) v (m_ddof s) (numIters s)
    (hasSavedState s) (solVector s) (oldSolVector s) (oldTimeStep s)
    (tStep s) (flagALE s) (sysMatrix s) (sysRhs s) (constRHS s) (saved s)
    (log s).

Definition set_m_ddof (v : list (Mat T)) (s : Integrator)
    : Integrator :=
  mkIntegrator (stiffAssembler s) (massAssembler s) (velocityALE s)
    (patchesALE s) (initialized s) (m_options s) v (numIters s)
    (hasSavedState s) (solVector s) (oldSolVector s) (oldTimeStep s)
    (tStep s) (flagALE s) (sysMatrix s) (sysRhs s) (constRHS s) (saved s)
    (log s).

Definition set_numIters (v : nat) (s : Integrator)
    : Integrator :=
  mkIntegrator (stiffAssembler s) (massAssembler s) (velocityALE s)
    (patchesALE s) (initialized s) (m_options s) (m_ddof s) v
    (hasSavedState s) (solVector s) (oldSolVector s) (oldTimeStep s)
    (tStep s) (flagALE s) (sysMatrix s) (sysRhs s) (constRHS s) (saved s)
    (log s).

Definition set_hasSavedState (v : bool) (s : Integrator)
    : Integrator :=
  mkIntegrator (stiffAssembler s) (massAssembler s) (velocityALE s)
    (patchesALE s) (initialized s) (m_options s) (m_ddof s) (numIters s) v
    (solVector s) (oldSolVector s) (oldTimeStep s) (tStep s) (flagALE s)
    (sysMatrix s) (sysRhs s) (constRHS s) (saved s) (log s).

Definition set_solVector (v : Mat T) (s : Integrator)
    : Integrator :=
  mkIntegrator (stiffAssembler s) (massAssembler s) (velocityALE s)
    (patchesALE s) (initialized s) (m_options s) (m_ddof s) (numIters s)
    (hasSavedState s) v (oldSolVector s) (oldTimeStep s) (tStep s)
    (flagALE s) (sysMatrix s) (sysRhs s) (constRHS s) (saved s) (log s).

Definition set_oldSolVector (v : Mat T) (s : Integrator)
    : Integrator :=
  mkIntegrator (stiffAssembler s) (massAssembler s) (velocityALE s)
    (patchesALE s) (initialized s) (m_options s) (m_ddof s) (numIters s)
    (hasSavedState s) (solVector s) v (oldTimeStep s) (tStep s) (flagALE s)
    (sysMatrix s) (sysRhs s) (constRHS s) (saved s) (log s).

Definition set_oldTimeStep (v : T) (s : Integrator)
    : Integrator :=
  mkIntegrator (stiffAssembler s) (massAssembler s) (velocityALE s)
    (patchesALE s) (initialized s) (m_options s) (m_ddof s) (numIters s)
    (hasSavedState s) (solVector s) (oldSolVector s) v (tStep s) (flagALE s)
    (sysMatrix s) (sysRhs s) (constRHS s) (saved s) (log s).

Definition set_tStep (v : T) (s : Integrator)
    : Integrator :=
  mkIntegrator (stiffAssembler s) (massAssembler s) (velocityALE s)
    (patchesALE s) (initialized s) (m_options s) (m_ddof s) (numIters s)
    (hasSavedState s) (solVector s) (oldSolVector s) (oldTimeStep s) v
    (flagALE s) (sysMatrix s) (sysRhs s) (constRHS s) (saved s) (log s).

Definition set_flagALE (v : bool) (s : Integrator)
    : Integrator :=
  mkIntegrator (stiffAssembler s) (massAssembler s) (velocityALE s)
    (patchesALE s) (initialized s) (m_options s) (m_ddof s) (numIters s)
    (hasSavedState s) (solVector s) (oldSolVector s) (oldTimeStep s)
    (tStep s) v (sysMatrix s) (sysRhs s) (constRHS s) (saved s) (log s).

Definition set_sysMatrix (v : Mat T) (s : Integrator)
    : Integrator :=
  mkIntegrator (stiffAssembler s) (massAssembler s) (velocityALE s)
    (patchesALE s) (initialized s) (m_options s) (m_ddof s) (numIters s)
    (hasSavedState s) (solVector s) (oldSolVector s) (oldTimeStep s)
    (tStep s) (flagALE s) v (sysRhs s) (constRHS s) (saved s) (log s).

Definition set_sysRhs (v : Mat T) (s : Integrator)
    : Integrator :=
  mkIntegrator (stiffAssembler s) (massAssembler s) (velocityALE s)
    (patchesALE s) (initialized s) (m_options s) (m_ddof s) (numIters s)
    (hasSavedState s) (solVector s) (oldSolVector s) (oldTimeStep s)
    (tStep s) (flagALE s) (sysMatrix s) v (constRHS s) (saved s) (log s).

Definition set_constRHS (v : Mat T) (s : Integrator)
    : Integrator :=
  mkIntegrator (stiffAssembler s) (massAssembler s) (velocityALE s)
    (patchesALE s) (initialized s) (m_options s) (m_ddof s) (numIters s)
    (hasSavedState s) (solVector s) (oldSolVector s) (oldTimeStep s)
    (tStep s) (flagALE s) (sysMatrix s) (sysRhs s) v (saved s) (log s).

Definition set_saved (v : Checkpoint T) (s : Integrator)
    : Integrator :=
  mkIntegrator (stiffAssembler s) (massAssembler s) (velocityALE s)
    (patchesALE s) (initialized s) (m_options s) (m_ddof s) (numIters s)
    (hasSavedState s) (solVector s) (oldSolVector s) (oldTimeStep s)
    (tStep s) (flagALE s) (sysMatrix s) (sysRhs s) (constRHS s) v (log s).

Definition set_log (v : list (event T)) (s : Integrator)
    : Integrator :=
  mkIntegrator (stiffAssembler s) (massAssembler s) (velocityALE s)
    (patchesALE s) (initialized s) (m_options s) (m_ddof s) (numIters s)
    (hasSavedState s) (solVector s) (oldSolVector s) (oldTimeStep s)
    (tStep s) (flagALE s) (sysMatrix s) (sysRhs s) (constRHS s) (saved s) v.

Definition add_log (e : event T) (s : Integrator) : Integrator :=
  set_log (log s ++ [e]) s.

(** The members the constructor does not assign are indeterminate in C++;
    here they start empty or zero. *)
Definition emptyMat : Mat T := mzero 0 0.

(** [defaultOptions()], as far as the integrator reads it. *)
Definition defaultOptions : Options T :=
  mkOptions implicit_nonlinear (ofQ (1 # 2)) none
            (ofQ (1 # 10000000000)) (ofQ (1 # 10000000)).

(** The constructor. *)
Definition gsNsTimeIntegrator (stiffAssembler_ : NsAssembler T)
    (massAssembler_ : MassAssembler T) (ALEvelocity : MultiPatch T)
    (ALEpatches : list (nat * nat)) : Integrator :=
  {| stiffAssembler := stiffAssembler_;
     massAssembler := massAssembler_;
     velocityALE := ALEvelocity;
     patchesALE := ALEpatches;
     initialized := false;
     m_options := defaultOptions;
     m_ddof := nsFixedDofs stiffAssembler_;
     numIters := 0;
     hasSavedState := false;
     solVector := emptyMat;
     oldSolVector := emptyMat;
     oldTimeStep := szero;
     tStep := szero;
     flagALE := false;
     sysMatrix := emptyMat;
     sysRhs := emptyMat;
     constRHS := emptyMat;
     saved := mkCheckpoint emptyMat emptyMat emptyMat emptyMat emptyMat [];
     log := [] |}.

(** [setSolutionVector], [setFixedDofs] and [options().setInt("Scheme",..)],
    [options().setReal("Theta",..)] of the header, used by the callers. *)
Definition setSolutionVector (v : Mat T) (s : Integrator) : Integrator :=
  set_solVector v s.

Definition setFixedDofs (d : list (Mat T)) (s : Integrator) : Integrator :=
  set_m_ddof d s.

Definition setScheme (sch : time_integration) (s : Integrator) : Integrator :=
  set_m_options (mkOptions sch (Theta (m_options s)) (Verbosity (m_options s))
                           (AbsTol (m_options s)) (RelTol (m_options s))) s.

Definition setTheta (th : T) (s : Integrator) : Integrator :=
  set_m_options (mkOptions (Scheme (m_options s)) th (Verbosity (m_options s))
                           (AbsTol (m_options s)) (RelTol (m_options s))) s.

(** [initialize()]. *)
Definition initialize (s : Integrator) : result Integrator :=
  if rows (solVector s) =? nsNumDofs (stiffAssembler s) then
    let s := add_log (StiffAssembleVector (solVector s) (m_ddof s))
               (set_stiffAssembler
                  (assembleVector (solVector s) (m_ddof s) (stiffAssembler s))
                  s) in
    let s := set_massAssembler
               (massSetFixedDofs (m_ddof s) (massAssembler s)) s in
    let s := if negb (assembledFlag (massAssembler s))
             then add_log MassAssemble
                    (set_massAssembler (massAssemble (massAssembler s)) s)
             else s in
    (* IMEX stuff *)
    let s := set_oldSolVector (solVector s) s in
    let s := set_oldTimeStep sone s in
    Ok (set_initialized true s)
  else Err NoInitialConditions.

(** One pass of
    [for (auto &it : *patchesALE)
       velocity.patch(it.first).coefs()
         -= velocityALE->patch(it.second).coefs();]
    A patch index outside either multipatch is outside the defined behaviour
    of the source (a debug assertion); the velocity is then left as it is. *)
Fixpoint update {A : Type} (i : nat) (x : A) (l : list A) : list A :=
  match l, i with
  | [], _ => []
  | _ :: r, O => x :: r
  | y :: r, S k => y :: update k x r
  end.

Fixpoint subtractALE (patches : list (nat * nat)) (ale : MultiPatch T)
    (velocity : MultiPatch T) : MultiPatch T :=
  match patches with
  | [] => velocity
  | it :: rest =>
      subtractALE rest ale
        (match nth_error velocity (fst it), nth_error ale (snd it) with
         | Some c, Some a => update (fst it) (msub c a) velocity
         | _, _ => velocity
         end)
  end.

(** The block surgery both [implicitLinear] and [assemble] perform on
    [m_system.matrix()]:
    [[
    m_system.matrix() = tStep*stiffAssembler.matrix();
    tempVelocityBlock = m_system.matrix().block(0,0,numDofsVel,numDofsVel);
    tempVelocityBlock *= (theta-1);
    tempVelocityBlock += massAssembler.matrix();
    tempVelocityBlock.conservativeResize(stiffAssembler.numDofs(),numDofsVel);
    m_system.matrix().leftCols(numDofsVel) += tempVelocityBlock;
    ]] *)
Definition systemMatrix (dt theta : T) (numDofsVel numDofs : nat)
    (stiffMatrix massMat : Mat T) : Mat T :=
  let m := mscale dt stiffMatrix in
  let tempVelocityBlock := block 0 0 numDofsVel numDofsVel m in
  let tempVelocityBlock := mscale (theta - sone)%S tempVelocityBlock in
  let tempVelocityBlock := madd tempVelocityBlock massMat in
  let tempVelocityBlock :=
    conservativeResize numDofs numDofsVel tempVelocityBlock in
  addLeftCols numDofsVel m tempVelocityBlock.

(** The velocity and pressure built from a solution vector, the ALE velocity
    subtracted when [flagALE] is set, handed to the stiffness assembly. *)
Definition assembleStiffnessAt (x : Mat T) (fixedDoFs : list (Mat T))
    (s : Integrator) : Integrator :=
  let vp := constructSolution (stiffAssembler s) x fixedDoFs in
  let s := add_log (ConstructSolution x fixedDoFs (fst vp) (snd vp)) s in
  let velocity := if flagALE s
                  then subtractALE (patchesALE s) (velocityALE s) (fst vp)
                  else fst vp in
  let a := assemblePatches velocity (snd vp) (stiffAssembler s) in
  add_log (StiffAssemble (nsAssembly (stiffAssembler s)) velocity (snd vp)
                         (nsRhs a))
          (set_stiffAssembler a s).

(** [assemble(solutionVector,fixedDoFs,assembleMatrix)]. *)
Definition assemble (solutionVector : Mat T) (fixedDoFs : list (Mat T))
    (assembleMatrix : bool) (s : Integrator) : Integrator * bool :=
  let theta := Theta (m_options s) in
  let s := assembleStiffnessAt solutionVector fixedDoFs s in
  let numDofsVel := massNumDofs (massAssembler s) in
  let s := set_sysMatrix
             (systemMatrix (tStep s) theta numDofsVel
                           (nsNumDofs (stiffAssembler s))
                           (nsMatrix (stiffAssembler s))
                           (massMatrix (massAssembler s))) s in
  let s := set_sysRhs
             (madd (mscale (tStep s * theta)%S (nsRhs (stiffAssembler s)))
                   (constRHS s)) s in
  (s, true).

(** The part of the right-hand side that comes from the previous step:
    [dt*(1-theta)*F_n - dt*(1-theta)*A(u_n)*u_n + M*u_n - M_FD*u_DDOFS_n]. *)
Definition previousStepRhs (s : Integrator) : Mat T :=
  let theta := Theta (m_options s) in
  let numDofsVel := massNumDofs (massAssembler s) in
  let a := (tStep s * (sone - theta))%S in
  let r := mscale a (nsRhs (stiffAssembler s)) in
  let r := subRows 0 numDofsVel r
             (mmul (mscale a (block 0 0 numDofsVel numDofsVel
                                      (nsMatrix (stiffAssembler s))))
                   (middleRows 0 numDofsVel (solVector s))) in
  let r := addRows 0 numDofsVel r
             (mmul (massMatrix (massAssembler s))
                   (middleRows 0 numDofsVel (solVector s))) in
  subRows 0 numDofsVel r (massRhs (massAssembler s)).

(** The right-hand side of the mass assembler after the fixed degrees of
    freedom of the stiffness assembler are eliminated. *)
Definition eliminatedRhs (s : Integrator) : Mat T :=
  mmul (mscale (- sone)%S (eliminationMatrix (massAssembler s)))
       (vstack (nsFixedDofs (stiffAssembler s))).

(** The constant part of the right-hand side of a step that starts in [s]:
    the previous-step part plus [-M_FD*u_DDOFS_n+1]. *)
Definition constantRhs (s : Integrator) : Mat T :=
  addRows 0 (massNumDofs (massAssembler s)) (previousStepRhs s)
          (eliminatedRhs s).

(** [solVector + tStep/oldTimeStep*(solVector-oldSolVector)]. *)
Definition extrapolation (s : Integrator) : Mat T :=
  madd (solVector s)
       (mscale (tStep s / oldTimeStep s)%S
               (msub (solVector s) (oldSolVector s))).

(** [implicitLinear()] is cut at [massAssembler.eliminateFixedDofs()], the
    one call in it that may raise.  Before it: the previous-step part of the
    right-hand side, and the stiffness assembled at the extrapolated
    solution. *)
Definition implicitLinearStart (s : Integrator) : Integrator :=
  let s := set_stiffAssembler (setAssembly ossen (stiffAssembler s)) s in
  let s := set_sysRhs (previousStepRhs s) s in
  assembleStiffnessAt (extrapolation s) (nsFixedDofs (stiffAssembler s)) s.

(** After it: the rest of the right-hand side, the matrix, the bookkeeping
    and the linear solve. *)
Definition implicitLinearFinish (theta : T) (numDofsVel : nat)
    (s : Integrator) : Integrator :=
  let s := set_sysRhs
             (madd (sysRhs s)
                   (mscale (tStep s * theta)%S (nsRhs (stiffAssembler s))))
             s in
  let s := set_sysRhs
             (addRows 0 numDofsVel (sysRhs s) (massRhs (massAssembler s)))
             s in
  let s := set_sysMatrix
             (systemMatrix (tStep s) theta numDofsVel
                           (nsNumDofs (stiffAssembler s))
                           (nsMatrix (stiffAssembler s))
                           (massMatrix (massAssembler s))) s in
  let s := set_oldSolVector (solVector s) s in
  let s := set_oldTimeStep (tStep s) s in
  let s := set_m_ddof (nsFixedDofs (stiffAssembler s)) s in
  let s := set_numIters 1 s in
  let s := add_log (LinearSolve (sysMatrix s) (sysRhs s)) s in
  set_solVector (luSolve (sysMatrix s) (sysRhs s)) s.

(** [implicitLinear()]. *)
Definition implicitLinear (s : Integrator) : result Integrator :=
  let theta := Theta (m_options s) in
  let numDofsVel := massNumDofs (massAssembler s) in
  let s := implicitLinearStart s in
  m <- eliminateFixedDofs
         (massSetFixedDofs (nsFixedDofs (stiffAssembler s))
                           (massAssembler s)) ;;
  Ok (implicitLinearFinish theta numDofsVel (set_massAssembler m s)).

(** Modelled from the spec: the nonlinear solver [gsIterative<T>], whose
    body is outside the sources, in the iteration mode [next] the integrator
    selects.  It repeatedly assembles the system at the trial solution
    through the [assemble] of the object it drives, solves the linear system
    with LU for the next trial solution, and stops when its stopping test on
    the tolerances holds or when the iteration cap is reached; it gives the
    last trial solution and the number of iterations. *)
Fixpoint iterate (fuel : nat) (absTol relTol : T) (fixedDoFs : list (Mat T))
    (trials : list (Mat T)) (x : Mat T) (n : nat) (s : Integrator)
    : Integrator * Mat T * nat :=
  match fuel with
  | O => (s, x, n)
  | S fuel' =>
      let (s, ok) := assemble x fixedDoFs true s in
      if ok then
        let s := add_log (LinearSolve (sysMatrix s) (sysRhs s)) s in
        let x' := luSolve (sysMatrix s) (sysRhs s) in
        if converged absTol relTol (x' :: x :: trials)
        then (s, x', S n)
        else iterate fuel' absTol relTol fixedDoFs (x :: trials) x' (S n) s
      else (s, x, n)
  end.

(** [implicitNonlinear()], cut in the same way.  Before the elimination:
    the previous-step part of [constRHS]. *)
Definition implicitNonlinearStart (s : Integrator) : Integrator :=
  let s := set_stiffAssembler (setAssembly newton_next (stiffAssembler s)) s in
  set_constRHS (previousStepRhs s) s.

(** After it: the last term of [constRHS], the nonlinear solve, the
    bookkeeping. *)
Definition implicitNonlinearFinish (numDofsVel : nat) (s : Integrator)
    : Integrator :=
  let s := set_constRHS
             (addRows 0 numDofsVel (constRHS s) (massRhs (massAssembler s)))
             s in
  let '(s, solution, iterations) :=
    iterate MaxIters (AbsTol (m_options s)) (RelTol (m_options s))
            (m_ddof s) [] (solVector s) 0 s in
  let s := set_solVector solution s in
  let s := set_m_ddof (nsFixedDofs (stiffAssembler s)) s in
  set_numIters iterations s.

(** [implicitNonlinear()]. *)
Definition implicitNonlinear (s : Integrator) : result Integrator :=
  let numDofsVel := massNumDofs (massAssembler s) in
  let s := implicitNonlinearStart s in
  m <- eliminateFixedDofs
         (massSetFixedDofs (nsFixedDofs (stiffAssembler s))
                           (massAssembler s)) ;;
  Ok (implicitNonlinearFinish numDofsVel (set_massAssembler m s)).

(** [makeTimeStep(timeStep,ALE)]. *)
Definition makeTimeStep (timeStep : T) (ALE : bool) (s : Integrator)
    : result Integrator :=
  s <- (if initialized s then Ok s else initialize s) ;;
  let s := set_tStep timeStep s in
  let s := set_flagALE ALE s in
  s <- (if scheme_eqb (Scheme (m_options s)) implicit_nonlinear
        then implicitNonlinear s else Ok s) ;;
  if scheme_eqb (Scheme (m_options s)) implicit_linear
  then implicitLinear s else Ok s.

(** [saveState()]. *)
Definition saveState (s : Integrator) : result Integrator :=
  s <- (if initialized s then Ok s else initialize s) ;;
  let s := set_saved
             (mkCheckpoint (solVector s) (oldSolVector s)
                           (massRhs (massAssembler s))
                           (nsRhs (stiffAssembler s))
                           (nsMatrix (stiffAssembler s))
                           (m_ddof s)) s in
  Ok (set_hasSavedState true s).

(** [recoverState()]. *)
Definition recoverState (s : Integrator) : result Integrator :=
  if hasSavedState s then
    let s := set_solVector (velVecSaved (saved s)) s in
    let s := set_oldSolVector (oldVecSaved (saved s)) s in
    let s := set_massAssembler
               (massSetRHS (massRhsSaved (saved s)) (massAssembler s)) s in
    let s := set_stiffAssembler
               (setMatrix (stiffMatrixSaved (saved s)) (stiffAssembler s)) s in
    let s := set_stiffAssembler
               (setRHS (stiffRhsSaved (saved s)) (stiffAssembler s)) s in
    Ok (set_m_ddof (ddofsSaved (saved s)) s)
  else Err NoStateSaved.

(** *** Views of the state, to say what a function leaves alone *)

(** What an assembly of the integrator leaves alone: everything but the
    cached stiffness system, [m_system] and the log. *)
Definition kept (s : Integrator) :=
  (massAssembler s, velocityALE s, patchesALE s, initialized s, m_options s,
   m_ddof s, numIters s, hasSavedState s, solVector s, oldSolVector s,
   oldTimeStep s, tStep s, flagALE s, constRHS s, saved s,
   (nsAssembly (stiffAssembler s), nsFixedDofs (stiffAssembler s),
    nsNumDofs (stiffAssembler s), nsPatches (stiffAssembler s))).

(** What a step leaves alone whatever the scheme. *)
Definition outside_step (s : Integrator) :=
  (velocityALE s, patchesALE s, m_options s, hasSavedState s, saved s,
   initialized s, massNumDofs (massAssembler s),
   nsNumDofs (stiffAssembler s), assembledFlag (massAssembler s)).

(** The state [implicitNonlinear] hands to the nonlinear solver. *)
Definition beforeIterations (s : Integrator) : Integrator :=
  set_constRHS (constantRhs s)
    (set_massAssembler
       (massSetRHS (eliminatedRhs s)
          (massSetFixedDofs (nsFixedDofs (stiffAssembler s))
                            (massAssembler s)))
       (set_stiffAssembler (setAssembly newton_next (stiffAssembler s)) s)).

(** The stages of [implicitLinear]. *)
Definition oseenReady (s : Integrator) : Integrator :=
  set_sysRhs (previousStepRhs s)
    (set_stiffAssembler (setAssembly ossen (stiffAssembler s)) s).

(** The state [implicitLinear] leaves. *)
Definition afterImplicitLinear (s : Integrator) : Integrator :=
  implicitLinearFinish (Theta (m_options s)) (massNumDofs (massAssembler s))
    (set_massAssembler
       (massSetRHS (eliminatedRhs s)
          (massSetFixedDofs (nsFixedDofs (stiffAssembler s))
                            (massAssembler s)))
       (implicitLinearStart s)).

End Integrator.

Arguments Integrator T : clear implicits.

(** *** Shapes of the log *)

Section Traces.
Context {T : Type} {ST : Scalar T}.

(** A run of assemblies in which every stiffness assembly directly follows
    the construction of the velocity and pressure, and receives that velocity
    with the ALE velocity subtracted and that pressure. *)
Inductive ale_iterations (patches : list (nat * nat)) (ale : MultiPatch T)
    : list (event T) -> Prop :=
| ale_done : ale_iterations patches ale []
| ale_iter x fd v0 p0 mode r m b rest :
    ale_iterations patches ale rest ->
    ale_iterations patches ale
      (ConstructSolution x fd v0 p0
       :: StiffAssemble mode (subtractALE patches ale v0) p0 r
       :: LinearSolve m b :: rest).

(** A run of assemblies in which every linear solve directly follows a
    stiffness assembly and has the right-hand side [k*r + c], [r] being the
    right-hand side that assembly produced. *)
Inductive rhs_iterations (k : T) (c : Mat T) : list (event T) -> Prop :=
| rhs_done : rhs_iterations k c []
| rhs_iter x fd v0 p0 mode v p r m rest :
    rhs_iterations k c rest ->
    rhs_iterations k c
      (ConstructSolution x fd v0 p0
       :: StiffAssemble mode v p r
       :: LinearSolve m (madd (mscale k r) c) :: rest).

(** The number of linear solves in a log. *)
Fixpoint solves (l : list (event T)) : nat :=
  match l with
  | [] => 0
  | LinearSolve _ _ :: rest => S (solves rest)
  | _ :: rest => solves rest
  end.

End Traces.

End NsTimeIntegrator.

Import NsTimeIntegrator.

(** ** The one-way FSI coupler ([main] of the flapping-beam example)

    The loop of [main] from [while (simTime < timeSpan)] on.  The progress
    bar, the stopwatches and the Paraview output are left out; [writeLog] is
    recorded as a call. *)

Module Coupler.

Inductive boxSide : Set := west | east | south | north.

(** [x < y] on [real_t], as a test. *)
Definition Rltb (x y : R) : bool := if Rlt_dec x y then true else false.

(** The multiplier of the saved inflow values in
    [inflowDDoFs*(1-cos(M_PI*(simTime+tStep)/2.))/2]. *)
Definition rampFactor (simTime tStep : R) : R :=
  ((1 - cos (PI * (simTime + tStep) / 2)) / 2)%R.

(** [inflowDDoFs*(1-cos(M_PI*(simTime+tStep)/2.))/2], coefficient by
    coefficient. *)
Definition rampedInflow (inflowDDoFs : Mat R) (simTime tStep : R) : Mat R :=
  mkMat (rows inflowDDoFs) (cols inflowDDoFs)
        (fun i j => (coef inflowDDoFs i j
                     * (1 - cos (PI * (simTime + tStep) / 2)) / 2)%R).

(** The inputs of the run: the command line and the inflow values saved
    before the loop. *)
Record Config : Type := mkConfig {
  timeStep : R;
  timeSpan : R;
  warmUp : bool;
  inflowDDoFs : Mat R
}.

(** [real_t tStep = (warmUp && simTime < 2.) ? 0.1 : timeStep;] *)
Definition stepSize (cfg : Config) (simTime : R) : R :=
  if warmUp cfg && Rltb simTime 2 then (1 / 10)%R else timeStep cfg.

(** The calls of one run, oldest first.  [FlowStep] also records the mesh
    displacement [dispALE] in force when the fluid step is invoked. *)
Inductive call : Type :=
| CheckSolution (displacement : MultiPatch R) (answer : Z)
| SetInflow (values : Mat R)
| BeamStep (tStep : R)
| AleSolve
| FlowStep (tStep : R) (ALE : bool) (meshDisplacement : MultiPatch R)
| WriteLog (simTime : R).

Inductive exit : Set := TimeSpanReached | BrokenMesh.

(** The three sub-solvers with their assemblers.  Their bodies are outside
    the sources (the fluid one is [NsTimeIntegrator] above, driven through
    its assembler); the loop only needs the calls it makes on them:
    - [checkSolution]: [aleAssembler.checkSolution(dispALE)], -1 when the
      displacement is valid, else the index of a patch with a negative
      Jacobian;
    - [beamDisplacement]:
      [elAssembler.constructSolution(elTimeSolver.displacementVector(),..)];
    - [beamMakeTimeStep]: [elTimeSolver.makeTimeStep(tStep)];
    - [aleSetInterface]: the three [aleAssembler.setFixedDofs] from the
      boundaries of [dispDiff.patch(0)];
    - [aleSolve]: [aleNewton.reset(); aleNewton.solve();]
    - [aleSolution]:
      [aleAssembler.constructSolution(aleNewton.solution(),..)];
    - [flowSetFixedDofs]: [nsAssembler.setFixedDofs(patch,side,values)];
    - [flowMovePatch]:
      [nsAssembler.patches().patch(p).coefs() += increment];
    - [boundaryCoefs]: [patch.boundary(side)->coefs()];
    - [flowMakeTimeStep]: [nsTimeSolver.makeTimeStep(tStep,ALE)], which
      reads the ALE velocity through the pointer it was built with. *)
Class Solvers (Beam Mesh Flow : Type) : Type := {
  checkSolution : Mesh -> MultiPatch R -> Z;
  beamDisplacement : Beam -> MultiPatch R;
  beamMakeTimeStep : R -> Beam -> Beam;
  aleSetInterface : MultiPatch R -> Mesh -> Mesh;
  aleSolve : Mesh -> Mesh;
  aleSolution : Mesh -> MultiPatch R;
  flowSetFixedDofs : nat -> boxSide -> Mat R -> Flow -> Flow;
  flowMovePatch : nat -> Mat R -> Flow -> Flow;
  boundaryCoefs : boxSide -> Mat R -> Mat R;
  flowMakeTimeStep : R -> bool -> MultiPatch R -> Flow -> result Flow
}.

(** The variables of [main] the loop changes, and the calls made so far. *)
Record State (Beam Mesh Flow : Type) : Type := mkState {
  simTime : R;
  numTimeStep : R;
  beam : Beam;
  mesh : Mesh;
  flow : Flow;
  dispBeam : MultiPatch R;
  dispALE : MultiPatch R;
  velALE : MultiPatch R;
  trace : list call
}.

Section Loop.
Context {Beam Mesh Flow : Type} {solvers : Solvers Beam Mesh Flow}.

Definition record (c : call) (s : State Beam Mesh Flow)
    : State Beam Mesh Flow :=
  mkState (simTime s) (numTimeStep s) (beam s) (mesh s) (flow s) (dispBeam s)
          (dispALE s) (velALE s) (trace s ++ [c]).

(** [dispDiff.patch(0).coefs() = dispBeam.patch(0).coefs() -
    dispDiff.patch(0).coefs();] *)
Definition patch0Difference (new old : MultiPatch R) : MultiPatch R :=
  match new, old with
  | n :: _, o :: rest => msub n o :: rest
  | _, _ => old
  end.

(** The loop over the patches of [velALE]: the ALE difference, the update of
    the flow geometry (patch [p+3]), the ALE velocity. *)
Fixpoint aleVelocity (tStep : R) (p : nat) (sol disp : MultiPatch R)
    (f : Flow) : MultiPatch R * Flow :=
  match sol, disp with
  | a :: sol', d :: disp' =>
      let difference := msub a d in
      let f := flowMovePatch (p + 3) difference f in
      let (rest, f) := aleVelocity tStep (S p) sol' disp' f in
      (mkMat (rows difference) (cols difference)
             (fun i j => (coef difference i j / tStep)%R) :: rest, f)
  | _, _ => (sol, f)
  end.

Definition patchOr (l : MultiPatch R) (p : nat) : Mat R :=
  nth p l (mzero 0 0).

(** [if (simTime < 2.) nsAssembler.setFixedDofs(0,boundary::west,...)]. *)
Definition rampInflow (cfg : Config) (tStep : R) (s : State Beam Mesh Flow)
    : State Beam Mesh Flow :=
  if Rltb (simTime s) 2 then
    let values := rampedInflow (inflowDDoFs cfg) (simTime s) tStep in
    record (SetInflow values)
      (mkState (simTime s) (numTimeStep s) (beam s) (mesh s)
               (flowSetFixedDofs 0 west values (flow s)) (dispBeam s)
               (dispALE s) (velALE s) (trace s))
  else s.

(** The body of the [while] loop after the mesh check. *)
Definition iteration (cfg : Config) (s : State Beam Mesh Flow)
    : result (State Beam Mesh Flow) :=
  let tStep := stepSize cfg (simTime s) in
  let s := rampInflow cfg tStep s in
  (* BEAM *)
  let dispDiff := beamDisplacement (beam s) in
  let beam' := beamMakeTimeStep tStep (beam s) in
  let dispBeam' := beamDisplacement beam' in
  let dispDiff := patch0Difference dispBeam' dispDiff in
  let s := record (BeamStep tStep)
             (mkState (simTime s) (numTimeStep s) beam' (mesh s) (flow s)
                      dispBeam' (dispALE s) (velALE s) (trace s)) in
  (* ALE *)
  let mesh' := aleSolve (aleSetInterface dispDiff (mesh s)) in
  let (velALE', flow') :=
    aleVelocity tStep 0 (aleSolution mesh') (dispALE s) (flow s) in
  let dispALE' := aleSolution mesh' in
  let s := record AleSolve
             (mkState (simTime s) (numTimeStep s) (beam s) mesh' flow'
                      (dispBeam s) dispALE' velALE' (trace s)) in
  (* FLOW *)
  let f := flowSetFixedDofs 3 south
             (boundaryCoefs south (patchOr (velALE s) 0)) (flow s) in
  let f := flowSetFixedDofs 4 north
             (boundaryCoefs north (patchOr (velALE s) 1)) f in
  let f := flowSetFixedDofs 5 west
             (boundaryCoefs west (patchOr (velALE s) 2)) f in
  let s := record (FlowStep tStep true (dispALE s)) s in
  f <- flowMakeTimeStep tStep true (velALE s) f ;;
  (* Iteration end *)
  let s := mkState (simTime s + tStep)%R (numTimeStep s + 1)%R (beam s)
                   (mesh s) f (dispBeam s) (dispALE s) (velALE s) (trace s) in
  Ok (record (WriteLog (simTime s)) s).

Inductive outcome : Type :=
| Stopped (why : exit) (s : State Beam Mesh Flow)
| Raised (e : error)
| OutOfFuel (s : State Beam Mesh Flow).

(** [while (simTime < timeSpan) { if (checkSolution(dispALE) != -1) break;
    ... }], at most [fuel] iterations. *)
Fixpoint run (fuel : nat) (cfg : Config) (s : State Beam Mesh Flow)
    : outcome :=
  match fuel with
  | O => OutOfFuel s
  | S fuel' =>
      if Rltb (simTime s) (timeSpan cfg) then
        let answer := checkSolution (mesh s) (dispALE s) in
        let s := record (CheckSolution (dispALE s) answer) s in
        if (answer =? -1)%Z then
          match iteration cfg s with
          | Ok s' => run fuel' cfg s'
          | Err e => Raised e
          end
        else Stopped BrokenMesh s
      else Stopped TimeSpanReached s
  end.

(** The fluid steps of a run, each with the mesh displacement it ran on. *)
Fixpoint flowSteps (l : list call) : list (R * MultiPatch R) :=
  match l with
  | [] => []
  | FlowStep t _ d :: rest => (t, d) :: flowSteps rest
  | _ :: rest => flowSteps rest
  end.

End Loop.

Arguments outcome Beam Mesh Flow : clear implicits.

End Coupler.

(** ** Small instances to run the definitions on *)

Module Examples.

(** *** A fluid problem with two velocity unknowns and one pressure unknown *)

Definition vec3 (a b c : Q) : Mat Q :=
  mkMat 3 1 (fun i _ => match i with 0 => a | 1 => b | _ => c end).

Definition identity (n : nat) : Mat Q :=
  mkMat n n (fun i j => if i =? j then 1%Q else 0%Q).

(** One patch whose coefficients are the solution vector; a stiffness matrix
    and right-hand side that depend on the first velocity patch; a linear
    solve that hands the right-hand side back; a stopping test that asks for
    two iterations. *)
#[export] Instance toyBackend : Backend Q := {|
  constructSolution := fun _ x _ => ([x], [x]);
  nsAssembleVector := fun a x _ => (identity (nsNumDofs a), x);
  nsAssemblePatches := fun a v _ =>
    (identity (nsNumDofs a), mscale (1 # 2)%Q (hd (mzero 3 1) v));
  massVisitor := fun _ =>
    (fun i j => if i =? j then 1%Q else 0%Q, fun _ _ => 0%Q);
  luSolve := fun _ b => b;
  converged := fun _ _ trials => 3 <=? length trials;
  MaxIters := 5
|}.

Definition toyStiff : NsAssembler Q :=
  mkNsAssembler (mzero 3 3) (mzero 3 1) ossen [mzero 1 1] 3 [].

Definition toyMass : MassAssembler Q :=
  mkMassAssembler (mzero 2 2) (mzero 2 1) [mzero 1 1] (mzero 2 1) false 2.

(** A fresh integrator with the ALE velocity of one patch and the initial
    condition set. *)
Definition fresh : Integrator Q :=
  setSolutionVector (vec3 1 2 3)
    (gsNsTimeIntegrator toyStiff toyMass [vec3 1 1 1] [(0, 0)]).

(** The same integrator with no initial condition. *)
Definition bare : Integrator Q :=
  gsNsTimeIntegrator toyStiff toyMass [vec3 1 1 1] [(0, 0)].

Definition get (r : result (Integrator Q)) : Integrator Q :=
  match r with
  | Ok s => s
  | Err _ => bare
  end.

Definition started : Integrator Q := get (initialize fresh).

Definition afterNewton : Integrator Q :=
  get (makeTimeStep (1 # 100)%Q true started).

Definition afterLinear : Integrator Q :=
  get (makeTimeStep (1 # 100)%Q true (setScheme implicit_linear started)).

Definition afterSecondNewton : Integrator Q :=
  get (makeTimeStep (1 # 100)%Q true afterNewton).

Definition checkpointed : Integrator Q := get (saveState started).

Definition restored : Integrator Q := get (recoverState checkpointed).

(** *** The same problem over the reals *)

Definition realBackend : Backend R := {|
  constructSolution := fun _ x _ => ([x], [x]);
  nsAssembleVector := fun a x _ => (mzero (nsNumDofs a) (nsNumDofs a), x);
  nsAssemblePatches := fun a v _ =>
    (mkMat (nsNumDofs a) (nsNumDofs a) (fun i j => INR (i + j)),
     hd (mzero 3 1) v);
  massVisitor := fun _ => (fun i j => INR (i * j), fun _ _ => 0%R);
  luSolve := fun _ b => b;
  converged := fun _ _ _ => true;
  MaxIters := 1
|}.

Definition realStart : Integrator R :=
  set_initialized true
    (set_massAssembler
       (mkMassAssembler (mzero 2 2) (mzero 2 1) [] (mzero 2 0) true 2)
       (setSolutionVector (mzero 3 1)
          (gsNsTimeIntegrator
             (mkNsAssembler (mzero 3 3) (mzero 3 1) ossen [] 3 [])
             (mkMassAssembler (mzero 2 2) (mzero 2 1) [] (mzero 2 0) true 2)
             [] []))).

Definition realAssembled : Integrator R :=
  fst (assemble (B := realBackend) (mzero 3 1) [] true realStart).

(** *** A one-dimensional mesh that folds *)

(** Modelled from the spec: [checkSolution], whose body is outside the
    sources, is a Jacobian check of the mesh-motion solution that reports a
    patch where the Jacobian determinant is negative at a sample point, and
    -1 when there is none.  Here each patch is a line of nodes one unit
    apart, the sample points are its cells, and the Jacobian of the cell
    between the nodes [k] and [k+1] is [1 + d(k+1) - d(k)]. *)
Fixpoint folded (cells : nat) (d : Mat R) : bool :=
  match cells with
  | O => false
  | S k =>
      folded k d
      || Coupler.Rltb (1 + coef d (S k) 0 - coef d k 0)%R 0
  end.

Fixpoint firstFolded (index : Z) (l : MultiPatch R) : Z :=
  match l with
  | [] => (-1)%Z
  | p :: rest => if folded (rows p - 1) p then index
                 else firstFolded (index + 1)%Z rest
  end.

Definition segment (tip : R) : MultiPatch R :=
  [mkMat 2 1 (fun i _ => match i with 0 => 0%R | _ => tip end)].

(** The mesh is the segment [0,1] with two nodes.  The beam is its tip
    displacement and moves with velocity -20; the mesh state is the
    displacement of its right node, attached to the tip; the fluid has no
    state. *)
Definition toyConfig : Coupler.Config :=
  Coupler.mkConfig (1 / 10)%R 3%R false (mzero 0 0).

#[export] Instance toySolvers : Coupler.Solvers R R unit := {|
  Coupler.checkSolution := fun _ d => firstFolded 0 d;
  Coupler.beamDisplacement := fun b => segment b;
  Coupler.beamMakeTimeStep := fun t b => (b - 20 * t)%R;
  Coupler.aleSetInterface := fun diff m =>
    (m + coef (Coupler.patchOr diff 0) 1 0)%R;
  Coupler.aleSolve := fun m => m;
  Coupler.aleSolution := fun m => segment m;
  Coupler.flowSetFixedDofs := fun _ _ _ f => f;
  Coupler.flowMovePatch := fun _ _ f => f;
  Coupler.boundaryCoefs := fun _ m => m;
  Coupler.flowMakeTimeStep := fun _ _ _ f => Ok f
|}.

Definition toyStart : Coupler.State R R unit :=
  Coupler.mkState 0%R 0%R 0%R 0%R tt (segment 0) (segment 0) (segment 0) [].

Definition toyRun (fuel : nat) : Coupler.outcome R R unit :=
  Coupler.run fuel toyConfig toyStart.

(** A state whose mesh displacement is folded already. *)
Definition toyFolded : Coupler.State R R unit :=
  Coupler.mkState 0%R 0%R 0%R (-2)%R tt (segment 0) (segment (-2))
                  (segment 0) [].

(** The same problem with warm-up and the step 0.01. *)
Definition warmConfig : Coupler.Config :=
  Coupler.mkConfig (1 / 100)%R 3%R true (mzero 0 0).

Definition warmAfterOne : Coupler.State R R unit :=
  match Coupler.iteration warmConfig toyStart with
  | Ok s => s
  | Err _ => toyStart
  end.

(** A state at the end of the ramp. *)
Definition toyAtTwo : Coupler.State R R unit :=
  Coupler.mkState 2%R 200%R 0%R 0%R tt (segment 0) (segment 0) (segment 0)
                  [].

(** A state late in the ramp. *)
Definition toyLate : Coupler.State R R unit :=
  Coupler.mkState (19 / 10)%R 19%R 0%R 0%R tt (segment 0) (segment 0)
                  (segment 0) [].

(** The command-line defaults: step 0.01, span 3, no warm-up. *)
Definition defaultConfig (inflow : Mat R) : Coupler.Config :=
  Coupler.mkConfig (1 / 100)%R 3%R false inflow.

End Examples.

(** ** Sequences of steps *)

Module Stepping.

Section Stepping.
Context {T : Type} {ST : Scalar T} {B : Backend T}.

(** What a caller's loop over [makeTimeStep(dt,ALE)] does to the integrator:
    the calls in order, up to the first that raises. *)
Fixpoint makeTimeSteps (calls : list (T * bool)) (s : Integrator T)
    : result (Integrator T) :=
  match calls with
  | [] => Ok s
  | (dt, ale) :: rest => s' <- makeTimeStep dt ale s ;; makeTimeSteps rest s'
  end.

(** Every [ConstructSolution] of a log was given the fixed degrees of
    freedom [fd]. *)
Definition constructedFrom (fd : list (Mat T)) (l : list (event T)) : Prop :=
  forall x fd' v p, In (ConstructSolution x fd' v p) l -> fd' = fd.

(** The stiffness assembler through the assemblies of a step with ALE: each
    round constructs the velocity and the pressure on the assembler as it
    stands, subtracts the ALE velocity on the listed patches and leaves the
    assembler with the system assembled at the result; [a'] is the assembler
    after the last round. *)
Inductive ale_assemblies (patches : list (nat * nat)) (ale : MultiPatch T)
    : NsAssembler T -> list (event T) -> NsAssembler T -> Prop :=
| assemblies_done a : ale_assemblies patches ale a [] a
| assemblies_round a x fd m b rest a' :
    ale_assemblies patches ale
      (assemblePatches
         (subtractALE patches ale (fst (constructSolution a x fd)))
         (snd (constructSolution a x fd)) a)
      rest a' ->
    ale_assemblies patches ale a
      (ConstructSolution x fd (fst (constructSolution a x fd))
                         (snd (constructSolution a x fd))
       :: StiffAssemble (nsAssembly a)
            (subtractALE patches ale (fst (constructSolution a x fd)))
            (snd (constructSolution a x fd))
            (nsRhs (assemblePatches
                      (subtractALE patches ale
                                   (fst (constructSolution a x fd)))
                      (snd (constructSolution a x fd)) a))
       :: LinearSolve m b :: rest)
      a'.

(** The events of the rounds of a step: a velocity constructed from the
    fixed degrees of freedom [fd], a stiffness assembly at a velocity and a
    pressure, a linear solve. *)
Definition roundEvent (fd : list (Mat T)) (e : event T) : Prop :=
  match e with
  | ConstructSolution _ fd' _ _ => fd' = fd
  | StiffAssemble _ _ _ _ => True
  | LinearSolve _ _ => True
  | _ => False
  end.

(** The events of [initialize()]. *)
Definition initEvent (e : event T) : bool :=
  match e with
  | StiffAssembleVector _ _ => true
  | MassAssemble => true
  | _ => false
  end.

(** The states in which neither check of a step can fail. *)
Definition safe (s : Integrator T) : Prop :=
  initialized s = true /\
  (Scheme (m_options s) = other_scheme \/
   assembledFlag (massAssembler s) = true).

End Stepping.

End Stepping.

(** ** The set-up of the mass assembler *)

Module MassSetup.

(** The two checks of [gsMassAssembler<T>::refresh]. *)
Inductive refresh_error : Set :=
| DimensionMismatch       (* "The RHS dimension and the domain dimension
                             don't match!" *)
| UnsupportedDimension.   (* "Only two- and three-dimenstion domains are
                             supported!" *)

(** What the constructor and [refresh] read and write of the assembler,
    apart from the degree-of-freedom mappers, the sparse system and the
    Dirichlet values, which the base class builds: the dimension of the body
    force, the parametric dimension of the domain, the bases (one per
    unknown) and the real option "bdO". *)
Record Setup (Basis T : Type) : Type := mkSetup {
  m_dim : nat;                (* body_force.targetDim() *)
  parDim : nat;               (* m_pde_ptr->domain().parDim() *)
  m_bases : list Basis;
  bdO : T                     (* m_options.getReal("bdO") *)
}.

Section MassSetup.
Context {Basis T : Type} {ST : Scalar T}.

(** A count as a scalar, as in [m_bases.size()*(...)]. *)
Definition ofNat (n : nat) : T := ofQ (inject_Z (Z.of_nat n)).

(** [for (short_t d = 0; d < m_dim; ++d) m_bases.push_back(basis);] *)
Fixpoint pushBases (d : nat) (basis : Basis) (bases : list Basis)
    : list Basis :=
  match d with
  | O => bases
  | S k => pushBases k basis (bases ++ [basis])
  end.

(** The members the constructor sets before [Base::initialize]; [domainDim]
    is the parametric dimension of [patches] and [options_bdO] the value of
    "bdO" in the options it passes on. *)
Definition gsMassAssembler (domainDim targetDim : nat) (basis : Basis)
    (options_bdO : T) : Setup Basis T :=
  mkSetup targetDim domainDim (pushBases targetDim basis []) options_bdO.

(** [gsMassAssembler<T>::refresh]: the two checks, then
    [m_options.setReal("bdO",m_bases.size()*(1+m_options.getReal("bdO"))-1)]. *)
Definition refresh (a : Setup Basis T) : refresh_error + Setup Basis T :=
  if negb (m_dim a =? parDim a) then inl DimensionMismatch
  else if negb ((m_dim a =? 2) || (m_dim a =? 3))
  then inl UnsupportedDimension
  else inr (mkSetup (m_dim a) (parDim a) (m_bases a)
              (ofNat (length (m_bases a)) * (sone + bdO a) - sone)%S).

(** [refresh()] called [k] times. *)
Fixpoint refreshes (k : nat) (a : Setup Basis T)
    : refresh_error + Setup Basis T :=
  match k with
  | O => inr a
  | S k' => match refresh a with
            | inr a' => refreshes k' a'
            | inl e => inl e
            end
  end.

(** [x^k]. *)
Fixpoint spow (x : T) (k : nat) : T :=
  match k with
  | O => sone
  | S k' => (x * spow x k')%S
  end.

End MassSetup.

End MassSetup.

(** ** Vectors in text files *)

Module VectorFiles.

Section VectorFiles.
Context {T : Type} {ST : Scalar T}.

(** [std::ifstream input(fname)]: [None] when the file cannot be opened;
    otherwise the outcomes of the successive extractions [input >> value],
    each a number or, at text that is no number, a failure.  Past the end
    every extraction fails. *)
Definition ifstream : Type := option (list (option T)).

(** [while (input >> value) inputVector.push_back(value);] *)
Fixpoint readValues (input : list (option T)) (inputVector : list T)
    : list T :=
  match input with
  | Some value :: rest => readValues rest (inputVector ++ [value])
  | _ => inputVector
  end.

(** [vector(i,j) = x]. *)
Definition setCoef (i j : nat) (x : T) (A : Mat T) : Mat T :=
  mkMat (rows A) (cols A)
        (fun i' j' => if (i' =? i) && (j' =? j) then x else coef A i' j').

(** [for (int i = 0; i < inputVector.size(); ++i)
       vector(i,0) = inputVector[i];] from [i] on, [todo] rounds. *)
Fixpoint fill (todo i : nat) (inputVector : list T) (vector : Mat T)
    : Mat T :=
  match todo with
  | O => vector
  | S k => fill k (S i) inputVector
                (setCoef i 0 (nth i inputVector szero) vector)
  end.

(** [gsReadVector(vector,fname)]: the vector afterwards and the result. *)
Definition gsReadVector (vector : Mat T) (input : ifstream) : Mat T * bool :=
  match input with
  | Some text =>
      let inputVector := readValues text [] in
      (fill (length inputVector) 0 inputVector
            (mzero (length inputVector) 1), true)
  | None => (vector, false)
  end.

End VectorFiles.

End VectorFiles.

(** ** Views of a coupled run *)

Module CouplerViews.
Import Coupler.

Section Views.
Context {Beam Mesh Flow : Type} {solvers : Solvers Beam Mesh Flow}.

(** The state a run ends in, when it ends with one. *)
Definition finalState (o : outcome Beam Mesh Flow)
    : option (State Beam Mesh Flow) :=
  match o with
  | Stopped _ s => Some s
  | OutOfFuel s => Some s
  | Raised _ => None
  end.

(** The step sizes of the fluid steps of a trace, oldest first. *)
Definition stepSizes (l : list call) : list R := map fst (flowSteps l).

Definition total (l : list R) : R := fold_right Rplus 0%R l.

(** The beam after steps of the given sizes. *)
Definition beamAfter (sizes : list R) (b : Beam) : Beam :=
  fold_left (fun b t => beamMakeTimeStep t b) sizes b.

End Views.

End CouplerViews.

(** ** More instances *)

Module MoreExamples.
Import Examples MassSetup.

(** The toy integrator with the implicit-linear scheme and a checkpoint. *)
Definition linearCheckpointed : Integrator Q :=
  get (saveState (setScheme implicit_linear started)).

(** The real problem before its initialisation, with the implicit-linear
    scheme and the initial condition [(1,2,3)]. *)
Definition realFresh : Integrator R :=
  setScheme implicit_linear
    (setSolutionVector
       (mkMat 3 1 (fun i _ => INR (S i)))
       (gsNsTimeIntegrator
          (mkNsAssembler (mzero 3 3) (mzero 3 1) ossen [] 3 [])
          (mkMassAssembler (mzero 2 2) (mzero 2 1) [] (mzero 2 0) false 2)
          [] [])).

(** The correspondence between the flow and the ALE patches of the
    flapping-beam example:
    [for (index_t p = 0; p < 3; ++p) patchesALE.push_back((p+3,p));] *)
Definition mainPatchesALE : list (nat * nat) :=
  map (fun p => (p + 3, p)) (seq 0 3).

(** A velocity on seven patches, patch [p] with the coefficient [p], and an
    ALE velocity on three patches with the coefficients 10, 20, 30. *)
Definition sevenPatches : MultiPatch Q :=
  map (fun p => mkMat 1 1 (fun _ _ => inject_Z (Z.of_nat p))) (seq 0 7).

Definition threePatches : MultiPatch Q :=
  map (fun p => mkMat 1 1 (fun _ _ => inject_Z (10 * Z.of_nat (S p))))
      (seq 0 3).

(** The Dirichlet values 5 and 7 of two unknowns. *)
Definition twoValues : list (Mat Q) :=
  [mkMat 1 1 (fun _ _ => 5%Q); mkMat 1 1 (fun _ _ => 7%Q)].

(** A mass assembler over the reals, assembled, with homogeneous Dirichlet
    values for two unknowns. *)
Definition realHomogeneous : MassAssembler R :=
  mkMassAssembler (mzero 2 2) (mzero 2 1) [mzero 1 1; mzero 2 1]
    (mkMat 2 3 (fun i j => INR (i + j))) true 2.

(** The set-up of a mass assembler on a plane domain with a plane body
    force, the option "bdO" at one third. *)
Definition planeSetup : Setup unit R := gsMassAssembler 2 2 tt (1 / 3)%R.

(** A run with the time step zero. *)
Definition stuckConfig : Coupler.Config :=
  Coupler.mkConfig 0%R 3%R false (mzero 0 0).

(** A mass assembler that is not assembled yet, with the Dirichlet values 5
    and 7 of two unknowns, and Dirichlet values of the same total size in
    one block. *)
Definition dirichletMass : MassAssembler Q :=
  mkMassAssembler (mzero 2 2) (mzero 2 1) twoValues (mzero 2 2) false 2.

Definition oneBlock : list (Mat Q) :=
  [mkMat 2 1 (fun i _ => inject_Z (Z.of_nat (S i)))].

(** The folding-mesh problem with a fluid solver that keeps the sizes of
    the steps it was asked to take, oldest first. *)
Definition recordingSolvers : Coupler.Solvers R R (list R) := {|
  Coupler.checkSolution := fun _ d => firstFolded 0 d;
  Coupler.beamDisplacement := fun b => segment b;
  Coupler.beamMakeTimeStep := fun t b => (b - 20 * t)%R;
  Coupler.aleSetInterface := fun diff m =>
    (m + coef (Coupler.patchOr diff 0) 1 0)%R;
  Coupler.aleSolve := fun m => m;
  Coupler.aleSolution := fun m => segment m;
  Coupler.flowSetFixedDofs := fun _ _ _ f => f;
  Coupler.flowMovePatch := fun _ _ f => f;
  Coupler.boundaryCoefs := fun _ m => m;
  Coupler.flowMakeTimeStep := fun t _ _ f => Ok (f ++ [t])
|}.

Definition recordingStart : Coupler.State R R (list R) :=
  Coupler.mkState 0%R 0%R 0%R 0%R [] (segment 0) (segment 0) (segment 0) [].

End MoreExamples.

(** ** Properties of the time integrator *)

Module NsTimeIntegratorFacts.
Import Stepping.

(** *** What each function writes, and what it logs *)

Section Frame.
Context {T : Type} {ST : Scalar T} {B : Backend T}.

Ltac use_kept H := unfold kept in H; injection H; intros.

Lemma assemble_kept x fd b (s : Integrator T) :
  kept (fst (assemble x fd b s)) = kept s.
Proof. reflexivity. Qed.

Lemma assemble_log x fd b (s : Integrator T) :
  let vp := constructSolution (stiffAssembler s) x fd in
  let v := if flagALE s
           then subtractALE (patchesALE s) (velocityALE s) (fst vp)
           else fst vp in
  log (fst (assemble x fd b s)) =
  log s ++ [ConstructSolution x fd (fst vp) (snd vp);
            StiffAssemble (nsAssembly (stiffAssembler s)) v (snd vp)
              (nsRhs (stiffAssembler (fst (assemble x fd b s))))].
Proof. simpl. rewrite <- app_assoc. reflexivity. Qed.

Lemma assemble_rhs x fd b (s : Integrator T) :
  let s' := fst (assemble x fd b s) in
  sysRhs s' = madd (mscale (tStep s * Theta (m_options s))%S
                           (nsRhs (stiffAssembler s'))) (constRHS s).
Proof. reflexivity. Qed.

Lemma assemble_succeeds x fd b (s : Integrator T) :
  assemble x fd b s = (fst (assemble x fd b s), true).
Proof. reflexivity. Qed.

(** The nonlinear solve: its log is a run of iterations, each with the ALE
    velocity subtracted and with the right-hand side built on the constant
    part it started with; it counts its linear solves and writes nothing
    but the cached systems and the log. *)
Lemma iterate_trace fuel :
  forall absTol relTol fd trials x n (s : Integrator T) s' x' n',
  iterate fuel absTol relTol fd trials x n s = (s', x', n') ->
  exists l,
    log s' = log s ++ l /\
    (flagALE s = true -> ale_iterations (patchesALE s) (velocityALE s) l) /\
    rhs_iterations (tStep s * Theta (m_options s))%S (constRHS s) l /\
    n' = n + solves l /\
    kept s' = kept s.
Proof.
  induction fuel as [|fuel IH];
    intros absTol relTol fd trials x n s s' x' n' H.
  - simpl in H. inversion H; subst. exists []. rewrite app_nil_r.
    repeat split; try constructor. simpl; lia.
  - cbn [iterate] in H. rewrite assemble_succeeds in H.
    pose proof (assemble_log x fd true s) as Hlog. cbv zeta in Hlog.
    pose proof (assemble_rhs x fd true s) as Hrhs. cbv zeta in Hrhs.
    pose proof (assemble_kept x fd true s) as Hk.
    set (s1 := fst (assemble x fd true s)) in *. clearbody s1.
    set (s2 := add_log (LinearSolve (sysMatrix s1) (sysRhs s1)) s1) in *.
    assert (Hk2 : kept s2 = kept s) by (rewrite <- Hk; reflexivity).
    assert (Hlog2 : log s2
                    = log s1 ++ [LinearSolve (sysMatrix s1) (sysRhs s1)])
      by reflexivity.
    clearbody s2.
    destruct (converged absTol relTol _).
    + inversion H; subst s' x' n'. clear H.
      eexists. split.
      { rewrite Hlog2, Hlog, <- app_assoc. reflexivity. }
      use_kept Hk.
      split; [|split; [|split]].
      * intros Hf. rewrite Hf. simpl. constructor. constructor.
      * simpl. rewrite Hrhs. constructor. constructor.
      * simpl. lia.
      * exact Hk2.
    + apply IH in H. destruct H as (l & Hl & Hale & Hr & Hn & Hk3).
      eexists. split.
      { rewrite Hl, Hlog2, Hlog, <- !app_assoc. reflexivity. }
      pose proof Hk2 as Hk2'. use_kept Hk2.
      split; [|split; [|split]].
      * intros Hf. rewrite Hf. simpl. constructor.
        replace (patchesALE s) with (patchesALE s2) by assumption.
        replace (velocityALE s) with (velocityALE s2) by assumption.
        apply Hale. congruence.
      * simpl. rewrite Hrhs. constructor.
        replace (tStep s) with (tStep s2) by assumption.
        replace (m_options s) with (m_options s2) by assumption.
        replace (constRHS s) with (constRHS s2) by assumption.
        exact Hr.
      * simpl. lia.
      * rewrite Hk3. exact Hk2'.
Qed.

Lemma eliminateFixedDofs_ok (m : MassAssembler T) :
  assembledFlag m = true ->
  eliminateFixedDofs m =
  Ok (massSetRHS (mmul (mscale (- sone)%S (eliminationMatrix m))
                       (vstack (massDdof m))) m).
Proof. intros H. unfold eliminateFixedDofs. rewrite H. reflexivity. Qed.

Lemma eliminateFixedDofs_err (m : MassAssembler T) :
  assembledFlag m = false -> eliminateFixedDofs m = Err MassNotAssembled.
Proof. intros H. unfold eliminateFixedDofs. rewrite H. reflexivity. Qed.

Lemma implicitNonlinear_err (s : Integrator T) :
  assembledFlag (massAssembler s) = false ->
  implicitNonlinear s = Err MassNotAssembled.
Proof.
  intros H. unfold implicitNonlinear. cbv zeta.
  rewrite eliminateFixedDofs_err by exact H. reflexivity.
Qed.

Lemma implicitLinear_err (s : Integrator T) :
  assembledFlag (massAssembler s) = false ->
  implicitLinear s = Err MassNotAssembled.
Proof.
  intros H. unfold implicitLinear. cbv zeta.
  rewrite eliminateFixedDofs_err by exact H. reflexivity.
Qed.

Lemma implicitNonlinear_ok (s : Integrator T) :
  assembledFlag (massAssembler s) = true ->
  implicitNonlinear s =
  Ok (let '(s1, solution, iterations) :=
        iterate MaxIters (AbsTol (m_options s)) (RelTol (m_options s))
                (m_ddof s) [] (solVector s) 0 (beforeIterations s) in
      set_numIters iterations
        (set_m_ddof (nsFixedDofs (stiffAssembler s1))
                    (set_solVector solution s1))).
Proof.
  intros H. unfold implicitNonlinear. cbv zeta.
  rewrite eliminateFixedDofs_ok by exact H. reflexivity.
Qed.

(** [implicitNonlinear] on an assembled mass matrix. *)
Lemma implicitNonlinear_spec (s : Integrator T) :
  assembledFlag (massAssembler s) = true ->
  exists s' l,
    implicitNonlinear s = Ok s' /\
    log s' = log s ++ l /\
    (flagALE s = true -> ale_iterations (patchesALE s) (velocityALE s) l) /\
    rhs_iterations (tStep s * Theta (m_options s))%S (constantRhs s) l /\
    constRHS s' = constantRhs s /\
    numIters s' = solves l /\
    oldSolVector s' = oldSolVector s /\
    oldTimeStep s' = oldTimeStep s /\
    tStep s' = tStep s /\
    outside_step s' = outside_step s.
Proof.
  intros H. rewrite (implicitNonlinear_ok s H).
  destruct (iterate MaxIters (AbsTol (m_options s)) (RelTol (m_options s))
                    (m_ddof s) [] (solVector s) 0 (beforeIterations s))
    as [[s1 x1] n1] eqn:E.
  apply iterate_trace in E.
  destruct E as (l & Hl & Hale & Hr & Hn & Hk).
  eexists. exists l. split; [reflexivity|].
  unfold kept in Hk. injection Hk as Hk1 Hk2 Hk3 Hk4 Hk5 Hk6 Hk7 Hk8 Hk9
    Hk10 Hk11 Hk12 Hk13 Hk14 Hk15 Hk16 Hk17 Hk18 Hk19.
  change (log (beforeIterations s)) with (log s) in Hl.
  change (flagALE (beforeIterations s)) with (flagALE s) in Hale.
  change (patchesALE (beforeIterations s)) with (patchesALE s) in Hale.
  change (velocityALE (beforeIterations s)) with (velocityALE s) in Hale.
  change (tStep (beforeIterations s)) with (tStep s) in Hr.
  change (m_options (beforeIterations s)) with (m_options s) in Hr.
  change (constRHS (beforeIterations s)) with (constantRhs s) in Hr.
  split; [exact Hl|]. split; [exact Hale|]. split; [exact Hr|].
  split; [exact Hk14|]. split; [exact Hn|]. split; [exact Hk10|].
  split; [exact Hk11|]. split; [exact Hk12|].
  unfold outside_step.
  change (velocityALE (set_numIters n1 (set_m_ddof
            (nsFixedDofs (stiffAssembler s1)) (set_solVector x1 s1))))
    with (velocityALE s1).
  change (patchesALE (set_numIters n1 (set_m_ddof
            (nsFixedDofs (stiffAssembler s1)) (set_solVector x1 s1))))
    with (patchesALE s1).
  change (m_options (set_numIters n1 (set_m_ddof
            (nsFixedDofs (stiffAssembler s1)) (set_solVector x1 s1))))
    with (m_options s1).
  change (hasSavedState (set_numIters n1 (set_m_ddof
            (nsFixedDofs (stiffAssembler s1)) (set_solVector x1 s1))))
    with (hasSavedState s1).
  change (saved (set_numIters n1 (set_m_ddof
            (nsFixedDofs (stiffAssembler s1)) (set_solVector x1 s1))))
    with (saved s1).
  change (initialized (set_numIters n1 (set_m_ddof
            (nsFixedDofs (stiffAssembler s1)) (set_solVector x1 s1))))
    with (initialized s1).
  change (massAssembler (set_numIters n1 (set_m_ddof
            (nsFixedDofs (stiffAssembler s1)) (set_solVector x1 s1))))
    with (massAssembler s1).
  change (stiffAssembler (set_numIters n1 (set_m_ddof
            (nsFixedDofs (stiffAssembler s1)) (set_solVector x1 s1))))
    with (stiffAssembler s1).
  rewrite Hk1, Hk2, Hk3, Hk4, Hk5, Hk8, Hk15, Hk18. reflexivity.
Qed.

(** What [assembleStiffnessAt] leaves alone, and what it logs. *)
Lemma assembleStiffnessAt_kept x fd (s : Integrator T) :
  kept (assembleStiffnessAt x fd s) = kept s.
Proof. reflexivity. Qed.

Lemma assembleStiffnessAt_log x fd (s : Integrator T) :
  let vp := constructSolution (stiffAssembler s) x fd in
  log (assembleStiffnessAt x fd s) =
  log s ++ [ConstructSolution x fd (fst vp) (snd vp);
            StiffAssemble (nsAssembly (stiffAssembler s))
              (if flagALE s
               then subtractALE (patchesALE s) (velocityALE s) (fst vp)
               else fst vp)
              (snd vp)
              (nsRhs (stiffAssembler (assembleStiffnessAt x fd s)))].
Proof. simpl. rewrite <- app_assoc. reflexivity. Qed.

Lemma implicitLinearStart_eq (s : Integrator T) :
  implicitLinearStart s
  = assembleStiffnessAt (extrapolation s) (nsFixedDofs (stiffAssembler s))
                        (oseenReady s).
Proof. reflexivity. Qed.

Lemma implicitLinearFinish_fields theta nv (s : Integrator T) :
  let s' := implicitLinearFinish theta nv s in
  log s' = log s ++ [LinearSolve (sysMatrix s') (sysRhs s')] /\
  sysMatrix s' = systemMatrix (tStep s) theta nv
                   (nsNumDofs (stiffAssembler s))
                   (nsMatrix (stiffAssembler s))
                   (massMatrix (massAssembler s)) /\
  stiffAssembler s' = stiffAssembler s /\
  massAssembler s' = massAssembler s /\
  numIters s' = 1 /\
  oldSolVector s' = solVector s /\
  oldTimeStep s' = tStep s /\
  tStep s' = tStep s /\
  (velocityALE s', patchesALE s', m_options s', hasSavedState s', saved s',
   initialized s', flagALE s')
  = (velocityALE s, patchesALE s, m_options s, hasSavedState s, saved s,
     initialized s, flagALE s).
Proof. repeat split. Qed.

Lemma implicitLinear_ok (s : Integrator T) :
  assembledFlag (massAssembler s) = true ->
  implicitLinear s = Ok (afterImplicitLinear s).
Proof.
  intros H. unfold implicitLinear. cbv zeta.
  rewrite implicitLinearStart_eq.
  pose proof (assembleStiffnessAt_kept (extrapolation s)
                (nsFixedDofs (stiffAssembler s)) (oseenReady s)) as Hk.
  unfold afterImplicitLinear. rewrite implicitLinearStart_eq.
  set (s1 := assembleStiffnessAt _ _ _) in *. clearbody s1.
  unfold kept in Hk. injection Hk as Hk1 Hk2 Hk3 Hk4 Hk5 Hk6 Hk7 Hk8 Hk9
    Hk10 Hk11 Hk12 Hk13 Hk14 Hk15 Hk16 Hk17 Hk18 Hk19.
  change (massAssembler (oseenReady s)) with (massAssembler s) in Hk1.
  change (nsFixedDofs (stiffAssembler (oseenReady s)))
    with (nsFixedDofs (stiffAssembler s)) in Hk17.
  rewrite Hk1, Hk17.
  rewrite eliminateFixedDofs_ok by exact H. reflexivity.
Qed.

(** [implicitLinear] on an assembled mass matrix. *)
Lemma implicitLinear_spec (s : Integrator T) :
  assembledFlag (massAssembler s) = true ->
  exists s' v0 p0,
    implicitLinear s = Ok s' /\
    log s' = log s ++
      [ConstructSolution (extrapolation s) (nsFixedDofs (stiffAssembler s))
                         v0 p0;
       StiffAssemble ossen
         (if flagALE s then subtractALE (patchesALE s) (velocityALE s) v0
          else v0) p0 (nsRhs (stiffAssembler s'));
       LinearSolve (sysMatrix s') (sysRhs s')] /\
    sysMatrix s' =
      systemMatrix (tStep s) (Theta (m_options s))
                   (massNumDofs (massAssembler s))
                   (nsNumDofs (stiffAssembler s))
                   (nsMatrix (stiffAssembler s'))
                   (massMatrix (massAssembler s')) /\
    massMatrix (massAssembler s') = massMatrix (massAssembler s) /\
    numIters s' = 1 /\
    oldSolVector s' = solVector s /\
    oldTimeStep s' = tStep s /\
    tStep s' = tStep s /\
    outside_step s' = outside_step s.
Proof.
  intros H. rewrite (implicitLinear_ok s H).
  exists (afterImplicitLinear s).
  exists (fst (constructSolution
                 (setAssembly ossen (stiffAssembler s)) (extrapolation s)
                 (nsFixedDofs (stiffAssembler s)))).
  exists (snd (constructSolution
                 (setAssembly ossen (stiffAssembler s)) (extrapolation s)
                 (nsFixedDofs (stiffAssembler s)))).
  split; [reflexivity|].
  unfold afterImplicitLinear. rewrite implicitLinearStart_eq.
  pose proof (assembleStiffnessAt_kept (extrapolation s)
                (nsFixedDofs (stiffAssembler s)) (oseenReady s)) as Hk.
  pose proof (assembleStiffnessAt_log (extrapolation s)
                (nsFixedDofs (stiffAssembler s)) (oseenReady s)) as Hl.
  cbv zeta in Hl.
  set (s1 := assembleStiffnessAt _ _ _) in *. clearbody s1.
  set (m1 := massSetRHS _ _).
  assert (Hm1 : massMatrix m1 = massMatrix (massAssembler s)
                /\ massNumDofs m1 = massNumDofs (massAssembler s)
                /\ assembledFlag m1 = assembledFlag (massAssembler s))
    by (repeat split).
  destruct Hm1 as (Hmm & Hmn & Hmf). clearbody m1.
  destruct (implicitLinearFinish_fields (Theta (m_options s))
              (massNumDofs (massAssembler s)) (set_massAssembler m1 s1))
    as (Fl & Fm & Fs & Fma & Fn & Fo & Ft & Ftt & Fr).
  cbv zeta in Fl, Fm, Fs, Fma, Fn, Fo, Ft, Ftt, Fr.
  set (s' := implicitLinearFinish _ _ _) in *. clearbody s'.
  change (log (set_massAssembler m1 s1)) with (log s1) in Fl.
  change (tStep (set_massAssembler m1 s1)) with (tStep s1) in Fm, Ft, Ftt.
  change (stiffAssembler (set_massAssembler m1 s1))
    with (stiffAssembler s1) in Fm, Fs.
  change (massAssembler (set_massAssembler m1 s1)) with m1 in Fm, Fma.
  change (solVector (set_massAssembler m1 s1)) with (solVector s1) in Fo.
  change (velocityALE (set_massAssembler m1 s1)) with (velocityALE s1) in Fr.
  change (patchesALE (set_massAssembler m1 s1)) with (patchesALE s1) in Fr.
  change (m_options (set_massAssembler m1 s1)) with (m_options s1) in Fr.
  change (hasSavedState (set_massAssembler m1 s1))
    with (hasSavedState s1) in Fr.
  change (saved (set_massAssembler m1 s1)) with (saved s1) in Fr.
  change (initialized (set_massAssembler m1 s1)) with (initialized s1) in Fr.
  change (flagALE (set_massAssembler m1 s1)) with (flagALE s1) in Fr.
  injection Fr as Fr1 Fr2 Fr3 Fr4 Fr5 Fr6 Fr7.
  unfold kept in Hk. injection Hk as Hk1 Hk2 Hk3 Hk4 Hk5 Hk6 Hk7 Hk8 Hk9
    Hk10 Hk11 Hk12 Hk13 Hk14 Hk15 Hk16 Hk17 Hk18 Hk19.
  change (velocityALE (oseenReady s)) with (velocityALE s) in *.
  change (patchesALE (oseenReady s)) with (patchesALE s) in *.
  change (initialized (oseenReady s)) with (initialized s) in *.
  change (m_options (oseenReady s)) with (m_options s) in *.
  change (hasSavedState (oseenReady s)) with (hasSavedState s) in *.
  change (solVector (oseenReady s)) with (solVector s) in *.
  change (tStep (oseenReady s)) with (tStep s) in *.
  change (flagALE (oseenReady s)) with (flagALE s) in *.
  change (saved (oseenReady s)) with (saved s) in *.
  change (log (oseenReady s)) with (log s) in *.
  change (nsAssembly (stiffAssembler (oseenReady s))) with ossen in *.
  change (stiffAssembler (oseenReady s))
    with (setAssembly ossen (stiffAssembler s)) in *.
  change (nsNumDofs (setAssembly ossen (stiffAssembler s)))
    with (nsNumDofs (stiffAssembler s)) in *.
  split.
  { rewrite Fl, Hl, Fs, <- app_assoc. reflexivity. }
  split.
  { rewrite Fm, Fs, Fma, Hk12, Hk18. reflexivity. }
  split; [rewrite Fma; exact Hmm|].
  split; [exact Fn|].
  split; [rewrite Fo; exact Hk9|].
  split; [rewrite Ft; exact Hk12|].
  split; [rewrite Ftt; exact Hk12|].
  unfold outside_step.
  rewrite Fr1, Fr2, Fr3, Fr4, Fr5, Fr6, Fma, Fs, Hmn, Hmf.
  rewrite Hk2, Hk3, Hk4, Hk5, Hk8, Hk15, Hk18. reflexivity.
Qed.

Lemma initialize_err (s : Integrator T) :
  rows (solVector s) <> nsNumDofs (stiffAssembler s) ->
  initialize s = Err NoInitialConditions.
Proof.
  intros H. unfold initialize.
  apply Nat.eqb_neq in H. rewrite H. reflexivity.
Qed.

(** [initialize] on a solution vector of the right length. *)
Lemma initialize_spec (s : Integrator T) :
  rows (solVector s) = nsNumDofs (stiffAssembler s) ->
  exists s1,
    initialize s = Ok s1 /\
    initialized s1 = true /\
    assembledFlag (massAssembler s1) = true /\
    log s1 = log s ++ StiffAssembleVector (solVector s) (m_ddof s)
                      :: (if assembledFlag (massAssembler s) then []
                          else [MassAssemble]) /\
    solVector s1 = solVector s /\
    oldSolVector s1 = solVector s /\
    oldTimeStep s1 = sone /\
    m_options s1 = m_options s /\
    hasSavedState s1 = hasSavedState s /\
    saved s1 = saved s /\
    velocityALE s1 = velocityALE s /\
    patchesALE s1 = patchesALE s.
Proof.
  intros H. unfold initialize.
  apply Nat.eqb_eq in H. rewrite H.
  eexists. split; [reflexivity|]. simpl.
  destruct (assembledFlag (massAssembler s)) eqn:E; simpl;
    rewrite ?E, <- ?app_assoc; repeat split; reflexivity.
Qed.

Lemma initialize_cases (s : Integrator T) :
  initialize s = Err NoInitialConditions /\
  rows (solVector s) <> nsNumDofs (stiffAssembler s)
  \/ (exists s1, initialize s = Ok s1) /\
     rows (solVector s) = nsNumDofs (stiffAssembler s).
Proof.
  destruct (Nat.eq_dec (rows (solVector s)) (nsNumDofs (stiffAssembler s)))
    as [E|E].
  - right. destruct (initialize_spec s E) as (s1 & H1 & _). eauto.
  - left. split; [apply initialize_err|]; assumption.
Qed.

(** The part of [makeTimeStep] after the implicit initialisation. *)
Lemma makeTimeStep_initialized dt ale (s : Integrator T) :
  initialized s = true ->
  makeTimeStep dt ale s =
  match Scheme (m_options s) with
  | implicit_nonlinear => implicitNonlinear (set_flagALE ale (set_tStep dt s))
  | implicit_linear => implicitLinear (set_flagALE ale (set_tStep dt s))
  | other_scheme => Ok (set_flagALE ale (set_tStep dt s))
  end.
Proof.
  intros H. unfold makeTimeStep. rewrite H. cbn [bind].
  set (s2 := set_flagALE ale (set_tStep dt s)).
  assert (Hopt : m_options s2 = m_options s) by reflexivity.
  rewrite Hopt.
  destruct (Scheme (m_options s)) eqn:Es; cbn [scheme_eqb bind].
  - rewrite Hopt, Es. reflexivity.
  - destruct (assembledFlag (massAssembler s2)) eqn:Ef.
    + destruct (implicitNonlinear_spec s2 Ef) as (s3 & l & H3 & Hrest).
      rewrite H3. cbn [bind].
      assert (Ho : outside_step s3 = outside_step s2) by apply Hrest.
      unfold outside_step in Ho. injection Ho; intros.
      replace (m_options s3) with (m_options s2) by (symmetry; assumption).
      rewrite Hopt, Es. reflexivity.
    + rewrite (implicitNonlinear_err s2 Ef). reflexivity.
  - rewrite Hopt, Es. reflexivity.
Qed.

Lemma makeTimeStep_uninitialized dt ale (s : Integrator T) :
  initialized s = false ->
  makeTimeStep dt ale s = (s1 <- initialize s ;; makeTimeStep dt ale s1).
Proof.
  intros H. unfold makeTimeStep at 1. rewrite H.
  destruct (initialize_cases s) as [[E _]|[[s1 E] Hr]]; rewrite E; cbn [bind].
  - reflexivity.
  - destruct (initialize_spec s Hr) as (s1' & E' & Hi & _).
    rewrite E in E'. inversion E'; subst s1'.
    unfold makeTimeStep. rewrite Hi. reflexivity.
Qed.

Lemma saveState_uninitialized (s : Integrator T) :
  initialized s = false ->
  saveState s = (s1 <- initialize s ;; saveState s1).
Proof.
  intros H. unfold saveState at 1. rewrite H.
  destruct (initialize_cases s) as [[E _]|[[s1 E] Hr]]; rewrite E; cbn [bind].
  - reflexivity.
  - destruct (initialize_spec s Hr) as (s1' & E' & Hi & _).
    rewrite E in E'. inversion E'; subst s1'.
    unfold saveState. rewrite Hi. reflexivity.
Qed.

Lemma makeTimeStep_ok dt ale (s : Integrator T) :
  initialized s = true ->
  assembledFlag (massAssembler s) = true ->
  exists s', makeTimeStep dt ale s = Ok s'.
Proof.
  intros Hi Hf. rewrite makeTimeStep_initialized by exact Hi.
  set (s2 := set_flagALE ale (set_tStep dt s)).
  assert (Hf2 : assembledFlag (massAssembler s2) = true) by exact Hf.
  destruct (Scheme (m_options s)).
  - destruct (implicitLinear_spec s2 Hf2) as (s' & ? & ? & H & _). eauto.
  - destruct (implicitNonlinear_spec s2 Hf2) as (s' & ? & H & _). eauto.
  - eauto.
Qed.


Lemma saveState_ok (s : Integrator T) :
  initialized s = true -> exists s1, saveState s = Ok s1.
Proof. intros H. unfold saveState. rewrite H. cbn [bind]. eauto. Qed.

Lemma makeTimeStep_keeps_flag dt ale (s s' : Integrator T) :
  initialized s = true ->
  assembledFlag (massAssembler s) = true ->
  makeTimeStep dt ale s = Ok s' ->
  assembledFlag (massAssembler s') = true.
Proof.
  intros Hi Hf H. rewrite makeTimeStep_initialized in H by exact Hi.
  set (s2 := set_flagALE ale (set_tStep dt s)) in *.
  assert (Hf2 : assembledFlag (massAssembler s2) = true) by exact Hf.
  destruct (Scheme (m_options s)).
  - destruct (implicitLinear_spec s2 Hf2)
      as (s3 & ? & ? & H3 & _ & _ & _ & _ & _ & _ & _ & Ho).
    rewrite H3 in H. inversion H; subst s3.
    unfold outside_step in Ho. injection Ho; intros. congruence.
  - destruct (implicitNonlinear_spec s2 Hf2)
      as (s3 & ? & H3 & _ & _ & _ & _ & _ & _ & _ & _ & Ho).
    rewrite H3 in H. inversion H; subst s3.
    unfold outside_step in Ho. injection Ho; intros. congruence.
  - inversion H; subst s'. exact Hf.
Qed.

(** A step leaves the checkpoint, the options and the ALE data alone. *)
Lemma makeTimeStep_outside dt ale (s s' : Integrator T) :
  makeTimeStep dt ale s = Ok s' ->
  velocityALE s' = velocityALE s /\ patchesALE s' = patchesALE s /\
  m_options s' = m_options s /\ hasSavedState s' = hasSavedState s /\
  saved s' = saved s /\ initialized s' = true.
Proof.
  assert (Hinit : forall s0 : Integrator T, initialized s0 = true ->
            makeTimeStep dt ale s0 = Ok s' ->
            velocityALE s' = velocityALE s0 /\ patchesALE s' = patchesALE s0 /\
            m_options s' = m_options s0 /\
            hasSavedState s' = hasSavedState s0 /\
            saved s' = saved s0 /\ initialized s' = true).
  { intros s0 Hi H. rewrite makeTimeStep_initialized in H by exact Hi.
    set (s2 := set_flagALE ale (set_tStep dt s0)) in *.
    destruct (assembledFlag (massAssembler s2)) eqn:Ef.
    - destruct (Scheme (m_options s0)).
      + destruct (implicitLinear_spec s2 Ef) as (s3 & ? & ? & H3 & Hrest).
        rewrite H3 in H. inversion H; subst s3.
        assert (Ho : outside_step s' = outside_step s2) by apply Hrest.
        unfold outside_step in Ho. injection Ho; intros.
        repeat split; try assumption. congruence.
      + destruct (implicitNonlinear_spec s2 Ef) as (s3 & ? & H3 & Hrest).
        rewrite H3 in H. inversion H; subst s3.
        assert (Ho : outside_step s' = outside_step s2) by apply Hrest.
        unfold outside_step in Ho. injection Ho; intros.
        repeat split; try assumption. congruence.
      + inversion H; subst s'. repeat split. exact Hi.
    - destruct (Scheme (m_options s0)).
      + rewrite (implicitLinear_err s2 Ef) in H. discriminate.
      + rewrite (implicitNonlinear_err s2 Ef) in H. discriminate.
      + inversion H; subst s'. repeat split. exact Hi. }
  intros H. destruct (initialized s) eqn:Ei.
  - apply Hinit; assumption.
  - rewrite makeTimeStep_uninitialized in H by exact Ei.
    destruct (initialize_cases s) as [[E _]|[[s1 E] Hr]]; rewrite E in H;
      cbn [bind] in H; [discriminate|].
    destruct (initialize_spec s Hr)
      as (s1' & E' & Hi & _ & _ & _ & _ & _ & Ho & Hh & Hs & Hv & Hp).
    rewrite E in E'. inversion E'; subst s1'.
    destruct (Hinit s1 Hi H) as (? & ? & ? & ? & ? & ?).
    repeat split; congruence.
Qed.

(** *** The ALE subtraction, patch by patch *)

Lemma update_length {A : Type} i (x : A) l : length (update i x l) = length l.
Proof.
  revert i; induction l as [|y l IH]; intros [|i]; simpl; auto.
Qed.

Lemma nth_error_update_same {A : Type} i (x : A) l :
  i < length l -> nth_error (update i x l) i = Some x.
Proof.
  revert i; induction l as [|y l IH]; intros [|i] H; simpl in *;
    try lia; auto. apply IH. lia.
Qed.

Lemma nth_error_update_other {A : Type} i j (x : A) l :
  i <> j -> nth_error (update i x l) j = nth_error l j.
Proof.
  revert i j; induction l as [|y l IH]; intros [|i] [|j] H; simpl;
    try congruence; auto.
Qed.

Lemma subtractALE_other patches ale : forall (v : MultiPatch T) p,
  ~ In p (map fst patches) ->
  nth_error (subtractALE patches ale v) p = nth_error v p.
Proof.
  induction patches as [|[i j] rest IH]; intros v p Hp; simpl in *.
  - reflexivity.
  - rewrite IH by tauto.
    destruct (nth_error v i), (nth_error ale j); try reflexivity.
    apply nth_error_update_other. tauto.
Qed.

Lemma subtractALE_listed patches ale : forall (v : MultiPatch T) p q c a,
  NoDup (map fst patches) -> In (p, q) patches ->
  nth_error v p = Some c -> nth_error ale q = Some a ->
  nth_error (subtractALE patches ale v) p = Some (msub c a).
Proof.
  induction patches as [|[i j] rest IH]; intros v p q c a Hnd Hin Hc Ha;
    simpl in *; [contradiction|].
  inversion Hnd as [|? ? Hni Hnd']; subst.
  destruct Hin as [E|Hin].
  - inversion E; subst i j. rewrite Hc, Ha.
    rewrite subtractALE_other by exact Hni.
    apply nth_error_update_same. apply nth_error_Some. congruence.
  - assert (Hne : i <> p).
    { intros ->. apply Hni. change p with (fst (p, q)). now apply in_map. }
    apply IH with (q := q); try assumption.
    destruct (nth_error v i), (nth_error ale j); try assumption.
    rewrite nth_error_update_other; assumption.
Qed.

Lemma subtractALE_length patches ale : forall v : MultiPatch T,
  length (subtractALE patches ale v) = length v.
Proof.
  induction patches as [|[i j] rest IH]; intros v; simpl; [reflexivity|].
  rewrite IH.
  destruct (nth_error v i), (nth_error ale j); try reflexivity.
  apply update_length.
Qed.

(** *** The stiffness assembler through a step with ALE *)

Lemma assembleStiffnessAt_stiff x fd (s : Integrator T) :
  flagALE s = true ->
  stiffAssembler (assembleStiffnessAt x fd s)
  = assemblePatches
      (subtractALE (patchesALE s) (velocityALE s)
                   (fst (constructSolution (stiffAssembler s) x fd)))
      (snd (constructSolution (stiffAssembler s) x fd)) (stiffAssembler s).
Proof.
  intros H.
  change (stiffAssembler (assembleStiffnessAt x fd s))
    with (assemblePatches
            (if flagALE s
             then subtractALE (patchesALE s) (velocityALE s)
                    (fst (constructSolution (stiffAssembler s) x fd))
             else fst (constructSolution (stiffAssembler s) x fd))
            (snd (constructSolution (stiffAssembler s) x fd))
            (stiffAssembler s)).
  rewrite H. reflexivity.
Qed.

Lemma assemble_stiff x fd b (s : Integrator T) :
  flagALE s = true ->
  stiffAssembler (fst (assemble x fd b s))
  = assemblePatches
      (subtractALE (patchesALE s) (velocityALE s)
                   (fst (constructSolution (stiffAssembler s) x fd)))
      (snd (constructSolution (stiffAssembler s) x fd)) (stiffAssembler s).
Proof.
  intros H. rewrite <- (assembleStiffnessAt_stiff x fd s H). reflexivity.
Qed.

Lemma iterate_assemblies fuel :
  forall absTol relTol fd trials x n (s : Integrator T) s' x' n',
  iterate fuel absTol relTol fd trials x n s = (s', x', n') ->
  flagALE s = true ->
  exists l,
    log s' = log s ++ l /\
    ale_assemblies (patchesALE s) (velocityALE s) (stiffAssembler s) l
                   (stiffAssembler s').
Proof.
  induction fuel as [|fuel IH];
    intros absTol relTol fd trials x n s s' x' n' H Hf.
  - simpl in H. inversion H; subst. exists []. rewrite app_nil_r.
    split; [reflexivity|constructor].
  - cbn [iterate] in H. rewrite assemble_succeeds in H.
    pose proof (assemble_log x fd true s) as Hlog. cbv zeta in Hlog.
    pose proof (assemble_stiff x fd true s Hf) as Hst.
    pose proof (assemble_kept x fd true s) as Hk.
    rewrite Hf in Hlog.
    set (s1 := fst (assemble x fd true s)) in *. clearbody s1.
    set (s2 := add_log (LinearSolve (sysMatrix s1) (sysRhs s1)) s1) in *.
    assert (Hk2 : kept s2 = kept s) by (rewrite <- Hk; reflexivity).
    assert (Hst2 : stiffAssembler s2 = stiffAssembler s1) by reflexivity.
    assert (Hlog2 : log s2
                    = log s1 ++ [LinearSolve (sysMatrix s1) (sysRhs s1)])
      by reflexivity.
    clearbody s2.
    unfold kept in Hk2. injection Hk2 as Hk1 Hk2 Hk3 Hk4 Hk5 Hk6 Hk7 Hk8
      Hk9 Hk10 Hk11 Hk12 Hk13 Hk14 Hk15 Hk16 Hk17 Hk18 Hk19.
    rewrite Hst in Hlog.
    destruct (converged absTol relTol _).
    + inversion H; subst s' x' n'. clear H.
      eexists. split.
      { rewrite Hlog2, Hlog, <- app_assoc. reflexivity. }
      simpl. constructor. rewrite Hst2, Hst. constructor.
    + apply IH in H; [|congruence].
      destruct H as (l & Hl & Ha).
      eexists. split.
      { rewrite Hl, Hlog2, Hlog, <- !app_assoc. reflexivity. }
      simpl. constructor.
      rewrite Hk2, Hk3, Hst2, Hst in Ha. exact Ha.
Qed.


Lemma beforeIterations_fields (s : Integrator T) :
  log (beforeIterations s) = log s /\
  flagALE (beforeIterations s) = flagALE s /\
  patchesALE (beforeIterations s) = patchesALE s /\
  velocityALE (beforeIterations s) = velocityALE s /\
  stiffAssembler (beforeIterations s)
  = setAssembly newton_next (stiffAssembler s).
Proof. split; [|split; [|split; [|split]]]; reflexivity. Qed.

Lemma oseenReady_frame (s : Integrator T) :
  log (oseenReady s) = log s /\
  flagALE (oseenReady s) = flagALE s /\
  patchesALE (oseenReady s) = patchesALE s /\
  velocityALE (oseenReady s) = velocityALE s /\
  stiffAssembler (oseenReady s) = setAssembly ossen (stiffAssembler s).
Proof. split; [|split; [|split; [|split]]]; reflexivity. Qed.

Lemma implicitNonlinear_assemblies (s : Integrator T) :
  assembledFlag (massAssembler s) = true ->
  flagALE s = true ->
  exists s' l,
    implicitNonlinear s = Ok s' /\
    log s' = log s ++ l /\
    ale_assemblies (patchesALE s) (velocityALE s)
                   (setAssembly newton_next (stiffAssembler s)) l
                   (stiffAssembler s').
Proof.
  intros H Hf. rewrite (implicitNonlinear_ok s H).
  destruct (beforeIterations_fields s) as (Bl & Bf & Bp & Bv & Bs).
  destruct (iterate MaxIters (AbsTol (m_options s)) (RelTol (m_options s))
                    (m_ddof s) [] (solVector s) 0 (beforeIterations s))
    as [[s1 x1] n1] eqn:E.
  apply iterate_assemblies in E; [|rewrite Bf; exact Hf].
  destruct E as (l & Hl & Ha).
  rewrite Bl in Hl. rewrite Bp, Bv, Bs in Ha.
  eexists. exists l. split; [reflexivity|].
  split; [exact Hl | exact Ha].
Qed.

Lemma implicitLinearFinish_round theta nv (s : Integrator T) :
  stiffAssembler (implicitLinearFinish theta nv s) = stiffAssembler s /\
  exists m b,
    log (implicitLinearFinish theta nv s) = log s ++ [LinearSolve m b].
Proof. split; [reflexivity|]. eexists. eexists. reflexivity. Qed.

Lemma set_massAssembler_frame m (s : Integrator T) :
  log (set_massAssembler m s) = log s /\
  stiffAssembler (set_massAssembler m s) = stiffAssembler s.
Proof. split; reflexivity. Qed.

Lemma implicitLinear_assemblies (s : Integrator T) :
  assembledFlag (massAssembler s) = true ->
  flagALE s = true ->
  exists s' l,
    implicitLinear s = Ok s' /\
    log s' = log s ++ l /\
    ale_assemblies (patchesALE s) (velocityALE s)
                   (setAssembly ossen (stiffAssembler s)) l
                   (stiffAssembler s').
Proof.
  intros H Hf. rewrite (implicitLinear_ok s H).
  unfold afterImplicitLinear. rewrite implicitLinearStart_eq.
  destruct (oseenReady_frame s) as (Ol & Of & Op & Ov & Os).
  pose proof (assembleStiffnessAt_log (extrapolation s)
                (nsFixedDofs (stiffAssembler s)) (oseenReady s)) as Hl.
  cbv zeta in Hl.
  pose proof (assembleStiffnessAt_stiff (extrapolation s)
                (nsFixedDofs (stiffAssembler s)) (oseenReady s)) as Hs.
  rewrite Of in Hs, Hl. specialize (Hs Hf). rewrite Hf in Hl.
  rewrite Ol, Op, Ov, Os in Hl. rewrite Op, Ov, Os in Hs.
  set (s1 := assembleStiffnessAt _ _ _) in *. clearbody s1.
  set (m1 := massSetRHS _ _). clearbody m1.
  destruct (implicitLinearFinish_round (Theta (m_options s))
              (massNumDofs (massAssembler s)) (set_massAssembler m1 s1))
    as (Fs & m & b & Fl).
  destruct (set_massAssembler_frame m1 s1) as [G1 G2].
  rewrite G1 in Fl. rewrite G2 in Fs. rewrite Hs in Hl.
  eexists. eexists. split; [reflexivity|]. split.
  - rewrite Fl, Hl, <- app_assoc. reflexivity.
  - rewrite Fs, Hs. simpl. constructor. constructor.
Qed.

(** *** The assemblers after the initialisation *)

(** The two assemblers after [initialize()]. *)
Lemma initialize_assemblers (s s1 : Integrator T) :
  initialize s = Ok s1 ->
  stiffAssembler s1
  = assembleVector (solVector s) (m_ddof s) (stiffAssembler s) /\
  nsMatrix (stiffAssembler s1)
  = fst (nsAssembleVector (stiffAssembler s) (solVector s) (m_ddof s)) /\
  nsRhs (stiffAssembler s1)
  = snd (nsAssembleVector (stiffAssembler s) (solVector s) (m_ddof s)) /\
  massAssembler s1
  = (if assembledFlag (massAssembler s)
     then massSetFixedDofs (m_ddof s) (massAssembler s)
     else massAssemble (massSetFixedDofs (m_ddof s) (massAssembler s))) /\
  massDdof (massAssembler s1) = m_ddof s /\
  (assembledFlag (massAssembler s) = false ->
   massMatrix (massAssembler s1)
   = mkMat (massNumDofs (massAssembler s)) (massNumDofs (massAssembler s))
       (fst (massVisitor (massSetFixedDofs (m_ddof s) (massAssembler s))))) /\
  (assembledFlag (massAssembler s) = true ->
   massMatrix (massAssembler s1) = massMatrix (massAssembler s)).
Proof.
  intros H. unfold initialize in H.
  destruct (rows (solVector s) =? nsNumDofs (stiffAssembler s));
    [|discriminate].
  inversion H; subst s1. clear H. simpl.
  destruct (assembledFlag (massAssembler s)) eqn:E; simpl; rewrite ?E;
    (split; [reflexivity|]); (split; [reflexivity|]);
    (split; [reflexivity|]); (split; [reflexivity|]);
    (split; [reflexivity|]); split; intros; try discriminate; reflexivity.
Qed.

End Frame.

(** *** The blocks of the system matrix *)

Section Blocks.
Context {T : Type} {ST : Scalar T}.
Hypothesis Tring : ring_theory szero sone sadd smul ssub sopp (@eq T).
Add Ring scalar_ring : Tring.

Lemma systemMatrix_coef (dt theta : T) nv n (A M : Mat T) i j :
  nv <= n ->
  coef (systemMatrix dt theta nv n A M) i j =
  if (i <? nv) && (j <? nv)
  then (coef M i j + dt * theta * coef A i j)%S
  else (dt * coef A i j)%S.
Proof.
  intros Hn. unfold systemMatrix. simpl.
  destruct (j <? nv) eqn:Ej; [|rewrite andb_false_r; reflexivity].
  destruct (i <? nv) eqn:Ei; simpl.
  - assert (Hi : (i <? n) = true).
    { apply Nat.ltb_lt. apply Nat.ltb_lt in Ei. lia. }
    rewrite Hi. simpl. ring.
  - rewrite !andb_false_r. simpl. ring.
Qed.

End Blocks.

(** *** Checkpoints *)

Section Checkpoints.
Context {T : Type} {ST : Scalar T} {B : Backend T}.

Lemma recoverState_spec (s : Integrator T) :
  hasSavedState s = true ->
  exists s',
    recoverState s = Ok s' /\
    solVector s' = velVecSaved (saved s) /\
    oldSolVector s' = oldVecSaved (saved s) /\
    m_ddof s' = ddofsSaved (saved s) /\
    nsMatrix (stiffAssembler s') = stiffMatrixSaved (saved s) /\
    nsRhs (stiffAssembler s') = stiffRhsSaved (saved s) /\
    massRhs (massAssembler s') = massRhsSaved (saved s) /\
    saved s' = saved s /\
    hasSavedState s' = true.
Proof.
  intros H. unfold recoverState. rewrite H.
  eexists. split; [reflexivity|]. simpl. repeat split. exact H.
Qed.

Lemma saveState_spec (s s1 : Integrator T) :
  saveState s = Ok s1 ->
  hasSavedState s1 = true /\
  saved s1 = mkCheckpoint (solVector s1) (oldSolVector s1)
               (massRhs (massAssembler s1)) (nsRhs (stiffAssembler s1))
               (nsMatrix (stiffAssembler s1)) (m_ddof s1).
Proof.
  intros Hs. unfold saveState in Hs.
  destruct (if initialized s then Ok s else initialize s) as [s0|e];
    cbn [bind] in Hs; [|discriminate].
  inversion Hs; subst s1. split; reflexivity.
Qed.

Lemma recoverState_again (s s' : Integrator T) :
  recoverState s = Ok s' ->
  hasSavedState s' = true /\ saved s' = saved s /\ recoverState s' = Ok s'.
Proof.
  intros H. unfold recoverState in H.
  destruct (hasSavedState s) eqn:E; [|discriminate].
  inversion H; subst s'. clear H.
  split; [exact E|]. split; [reflexivity|].
  unfold recoverState. simpl. rewrite E. reflexivity.
Qed.

(** C2: on an initialised integrator, [saveState()] directly followed by
    [recoverState()] succeeds and gives back the solution vector, the
    previous solution vector, the fixed degrees of freedom, the cached
    stiffness matrix and right-hand side and the mass right-hand side that
    were there when [saveState()] was called. *)
Theorem saveState_recoverState_roundtrip (s : Integrator T) :
  initialized s = true ->
  exists s1 s2,
    saveState s = Ok s1 /\ recoverState s1 = Ok s2 /\
    solVector s2 = solVector s /\
    oldSolVector s2 = oldSolVector s /\
    m_ddof s2 = m_ddof s /\
    nsMatrix (stiffAssembler s2) = nsMatrix (stiffAssembler s) /\
    nsRhs (stiffAssembler s2) = nsRhs (stiffAssembler s) /\
    massRhs (massAssembler s2) = massRhs (massAssembler s).
Proof.
  intros H. unfold saveState. rewrite H. cbn [bind].
  eexists. eexists. split; [reflexivity|].
  unfold recoverState. simpl. repeat split.
Qed.

(** The use the checkpoint is made for: a step taken after [saveState()] is
    undone by [recoverState()]. *)
Lemma step_rolled_back dt ale (s s1 s2 : Integrator T) :
  saveState s = Ok s1 ->
  makeTimeStep dt ale s1 = Ok s2 ->
  exists s3,
    recoverState s2 = Ok s3 /\
    solVector s3 = solVector s1 /\
    oldSolVector s3 = oldSolVector s1 /\
    m_ddof s3 = m_ddof s1 /\
    nsMatrix (stiffAssembler s3) = nsMatrix (stiffAssembler s1) /\
    nsRhs (stiffAssembler s3) = nsRhs (stiffAssembler s1) /\
    massRhs (massAssembler s3) = massRhs (massAssembler s1).
Proof.
  intros Hs Hm.
  destruct (saveState_spec _ Hs) as [Hh Hc].
  destruct (makeTimeStep_outside _ _ _ Hm) as (_ & _ & _ & Hh2 & Hc2 & _).
  rewrite Hh in Hh2. rewrite Hc in Hc2.
  destruct (recoverState_spec s2 Hh2)
    as (s3 & H3 & ? & ? & ? & ? & ? & ? & _).
  exists s3. rewrite Hc2 in *. simpl in *. repeat split; assumption.
Qed.

(** C3, as the code has it: [recoverState()] raises exactly when no
    [saveState()] has set the flag, which a fresh integrator has not; the
    checkpoint is not consumed: a successful [recoverState()] leaves the
    flag and the saved copies as they were, and a second [recoverState()]
    succeeds and gives the same state again. *)
Theorem recoverState_needs_a_checkpoint_and_keeps_it (s : Integrator T) :
  (failed (recoverState s) <-> hasSavedState s = false) /\
  (forall a m v p,
     recoverState (gsNsTimeIntegrator a m v p) = Err NoStateSaved) /\
  (forall s1, saveState s = Ok s1 -> hasSavedState s1 = true) /\
  (forall dt ale s', makeTimeStep dt ale s = Ok s' ->
     hasSavedState s' = hasSavedState s) /\
  (forall s', recoverState s = Ok s' ->
     hasSavedState s' = true /\ saved s' = saved s /\
     recoverState s' = Ok s').
Proof.
  split; [|split; [|split; [|split]]].
  - unfold failed, recoverState. destruct (hasSavedState s); split.
    + intros [e He]. discriminate.
    + discriminate.
    + reflexivity.
    + intros _. eauto.
  - reflexivity.
  - intros s1 H. apply (saveState_spec _ H).
  - intros dt ale s' H. apply (makeTimeStep_outside _ _ _ H).
  - intros s' H. now apply recoverState_again.
Qed.

End Checkpoints.

(** *** Steps *)

Section Steps.
Context {T : Type} {ST : Scalar T} {B : Backend T}.

(** C4, as the code has it: a completed step of the implicit-linear scheme
    leaves the pre-step solution vector in [oldSolVector] and [dt] in
    [oldTimeStep]; a step of any other scheme, the implicit-nonlinear one
    included, writes neither: they keep the values they had, which are the
    initial solution vector and 1 when the step itself initialised the
    integrator. *)
Theorem makeTimeStep_previous_step_data dt ale (s s' : Integrator T) :
  makeTimeStep dt ale s = Ok s' ->
  (Scheme (m_options s) = implicit_linear ->
     oldSolVector s' = solVector s /\ oldTimeStep s' = dt) /\
  (Scheme (m_options s) <> implicit_linear -> initialized s = true ->
     oldSolVector s' = oldSolVector s /\ oldTimeStep s' = oldTimeStep s) /\
  (Scheme (m_options s) <> implicit_linear -> initialized s = false ->
     oldSolVector s' = solVector s /\ oldTimeStep s' = sone).
Proof.
  assert (Hinit : forall s0 : Integrator T, initialized s0 = true ->
            makeTimeStep dt ale s0 = Ok s' ->
            (Scheme (m_options s0) = implicit_linear ->
               oldSolVector s' = solVector s0 /\ oldTimeStep s' = dt) /\
            (Scheme (m_options s0) <> implicit_linear ->
               oldSolVector s' = oldSolVector s0 /\
               oldTimeStep s' = oldTimeStep s0)).
  { intros s0 Hi H. rewrite makeTimeStep_initialized in H by exact Hi.
    set (s2 := set_flagALE ale (set_tStep dt s0)) in *.
    destruct (assembledFlag (massAssembler s2)) eqn:Ef.
    - destruct (Scheme (m_options s0)).
      + destruct (implicitLinear_spec s2 Ef)
          as (s3 & ? & ? & H3 & _ & _ & _ & _ & Ho & Ht & _).
        rewrite H3 in H. inversion H; subst s3.
        split; [intros _; split; assumption | congruence].
      + destruct (implicitNonlinear_spec s2 Ef)
          as (s3 & ? & H3 & _ & _ & _ & _ & _ & Ho & Ht & _).
        rewrite H3 in H. inversion H; subst s3.
        split; [discriminate | intros _; split; assumption].
      + inversion H; subst s'.
        split; [discriminate | intros _; split; reflexivity].
    - destruct (Scheme (m_options s0)).
      + rewrite (implicitLinear_err s2 Ef) in H. discriminate.
      + rewrite (implicitNonlinear_err s2 Ef) in H. discriminate.
      + inversion H; subst s'.
        split; [discriminate | intros _; split; reflexivity]. }
  intros H. destruct (initialized s) eqn:Ei.
  - destruct (Hinit s Ei H) as [Hl Hn].
    split; [exact Hl|]. split; [intros; now apply Hn | discriminate].
  - rewrite makeTimeStep_uninitialized in H by exact Ei.
    destruct (initialize_cases s) as [[E _]|[[s1 E] Hr]]; rewrite E in H;
      cbn [bind] in H; [discriminate|].
    destruct (initialize_spec s Hr)
      as (s1' & E' & Hi & _ & _ & Hsol & Hold & Hstep & Ho & _).
    rewrite E in E'. inversion E'; subst s1'.
    destruct (Hinit s1 Hi H) as [Hl Hn]. rewrite Ho in Hl, Hn.
    split; [|split].
    + intros Hs. rewrite <- Hsol. now apply Hl.
    + discriminate.
    + intros Hs _. rewrite <- Hold, <- Hstep. now apply Hn.
Qed.

(** The seed of the implicit-linear step: the velocity and pressure are
    constructed from [solVector + dt/oldTimeStep*(solVector-oldSolVector)]. *)
Lemma implicitLinear_seed dt ale (s s' : Integrator T) :
  initialized s = true -> Scheme (m_options s) = implicit_linear ->
  makeTimeStep dt ale s = Ok s' ->
  exists v0 p0,
    In (ConstructSolution
          (madd (solVector s)
                (mscale (dt / oldTimeStep s)%S
                        (msub (solVector s) (oldSolVector s))))
          (nsFixedDofs (stiffAssembler s)) v0 p0) (log s').
Proof.
  intros Hi Hs H. rewrite makeTimeStep_initialized, Hs in H by exact Hi.
  set (s2 := set_flagALE ale (set_tStep dt s)) in *.
  destruct (assembledFlag (massAssembler s2)) eqn:Ef.
  - destruct (implicitLinear_spec s2 Ef) as (s3 & v0 & p0 & H3 & Hl & _).
    rewrite H3 in H. inversion H; subst s3.
    exists v0, p0. rewrite Hl. apply in_or_app. right. left. reflexivity.
  - rewrite (implicitLinear_err s2 Ef) in H. discriminate.
Qed.

(** C8: in a step with ALE, every stiffness assembly - each iteration of the
    implicit-nonlinear scheme, the single one of the implicit-linear scheme -
    is made on the velocity constructed from the trial solution with the ALE
    velocity subtracted: the stiffness assembler the step leaves is the one
    reached through these assemblies, in the first step of an integrator as
    in the later ones.  So does every call of [assemble].  The subtraction
    leaves the patches that are not listed as they are and, each patch being
    listed once, replaces a listed patch by its coefficients minus those of
    the ALE patch paired with it. *)
Theorem ale_velocity_subtracted_before_every_assembly dt
    (s s' : Integrator T) :
  makeTimeStep dt true s = Ok s' ->
  (exists s0 l,
     (if initialized s then s0 = s else initialize s = Ok s0) /\
     log s' = log s0 ++ l /\
     ale_iterations (patchesALE s) (velocityALE s) l /\
     ale_assemblies (patchesALE s) (velocityALE s)
       match Scheme (m_options s) with
       | implicit_linear => setAssembly ossen (stiffAssembler s0)
       | implicit_nonlinear => setAssembly newton_next (stiffAssembler s0)
       | other_scheme => stiffAssembler s0
       end l (stiffAssembler s') /\
     (Scheme (m_options s) <> other_scheme -> numIters s' = solves l)) /\
  (forall x fd b (t : Integrator T),
     flagALE t = true ->
     stiffAssembler (fst (assemble x fd b t))
     = assemblePatches
         (subtractALE (patchesALE t) (velocityALE t)
                      (fst (constructSolution (stiffAssembler t) x fd)))
         (snd (constructSolution (stiffAssembler t) x fd))
         (stiffAssembler t)) /\
  (forall v p, ~ In p (map fst (patchesALE s)) ->
     nth_error (subtractALE (patchesALE s) (velocityALE s) v) p
     = nth_error v p) /\
  (forall v p q c a,
     NoDup (map fst (patchesALE s)) -> In (p, q) (patchesALE s) ->
     nth_error v p = Some c -> nth_error (velocityALE s) q = Some a ->
     nth_error (subtractALE (patchesALE s) (velocityALE s) v) p
     = Some (msub c a)).
Proof.
  assert (Hinit : forall s0 : Integrator T, initialized s0 = true ->
            makeTimeStep dt true s0 = Ok s' ->
            exists l,
              log s' = log s0 ++ l /\
              ale_iterations (patchesALE s0) (velocityALE s0) l /\
              ale_assemblies (patchesALE s0) (velocityALE s0)
                match Scheme (m_options s0) with
                | implicit_linear => setAssembly ossen (stiffAssembler s0)
                | implicit_nonlinear =>
                    setAssembly newton_next (stiffAssembler s0)
                | other_scheme => stiffAssembler s0
                end l (stiffAssembler s') /\
              (Scheme (m_options s0) <> other_scheme ->
               numIters s' = solves l)).
  { intros s0 Hi H. rewrite makeTimeStep_initialized in H by exact Hi.
    set (s2 := set_flagALE true (set_tStep dt s0)) in *.
    assert (Hf : flagALE s2 = true) by reflexivity.
    assert (Hp : patchesALE s2 = patchesALE s0) by reflexivity.
    assert (Hv : velocityALE s2 = velocityALE s0) by reflexivity.
    assert (Hst : stiffAssembler s2 = stiffAssembler s0) by reflexivity.
    assert (Hlg : log s2 = log s0) by reflexivity.
    assert (Ho : m_options s2 = m_options s0) by reflexivity.
    clearbody s2.
    destruct (assembledFlag (massAssembler s2)) eqn:Ef.
    - destruct (Scheme (m_options s0)) eqn:Es.
      + destruct (implicitLinear_spec s2 Ef)
          as (s3 & v0 & p0 & H3 & Hl & _ & _ & Hn & _).
        destruct (implicitLinear_assemblies s2 Ef Hf)
          as (s3' & l & H3' & Hl' & Ha).
        rewrite H3 in H3'. inversion H3'; subst s3'.
        rewrite H3 in H. inversion H; subst s3.
        rewrite Hf, Hp, Hv, Hst in Hl.
        rewrite Hl in Hl'. apply app_inv_head in Hl'. subst l.
        rewrite Hlg in Hl. rewrite Hp, Hv, Hst in Ha.
        eexists. split; [exact Hl|]. split; [|split].
        * constructor. constructor.
        * exact Ha.
        * intros _. exact Hn.
      + destruct (implicitNonlinear_spec s2 Ef)
          as (s3 & l & H3 & Hl & Hale & _ & _ & Hn & _).
        destruct (implicitNonlinear_assemblies s2 Ef Hf)
          as (s3' & l' & H3' & Hl' & Ha).
        rewrite H3 in H3'. inversion H3'; subst s3'.
        rewrite H3 in H. inversion H; subst s3.
        rewrite Hl in Hl'. apply app_inv_head in Hl'. subst l'.
        rewrite Hlg in Hl. rewrite Hp, Hv, Hst in Ha.
        rewrite Hp, Hv in Hale.
        exists l. split; [exact Hl|]. split; [|split].
        * apply Hale. exact Hf.
        * exact Ha.
        * intros _. exact Hn.
      + inversion H; subst s'. exists [].
        split; [rewrite Hlg; now rewrite app_nil_r|].
        split; [constructor|]. split; [|congruence].
        rewrite Hst. constructor.
    - destruct (Scheme (m_options s0)) eqn:Es.
      + rewrite (implicitLinear_err s2 Ef) in H. discriminate.
      + rewrite (implicitNonlinear_err s2 Ef) in H. discriminate.
      + inversion H; subst s'. exists [].
        split; [rewrite Hlg; now rewrite app_nil_r|].
        split; [constructor|]. split; [|congruence].
        rewrite Hst. constructor. }
  intros H. split; [|split; [|split]].
  - destruct (initialized s) eqn:Hi.
    + destruct (Hinit s Hi H) as (l & Hl & Hale & Ha & Hn).
      exists s, l. repeat split; assumption.
    + rewrite makeTimeStep_uninitialized in H by exact Hi.
      destruct (initialize_cases s) as [[E _]|[[s1 E] Hr]]; rewrite E in H;
        cbn [bind] in H; [discriminate|].
      destruct (initialize_spec s Hr)
        as (s1' & E' & Hi1 & _ & _ & _ & _ & _ & Ho & _ & _ & Hv & Hp).
      rewrite E in E'. inversion E'; subst s1'.
      destruct (Hinit s1 Hi1 H) as (l & Hl & Hale & Ha & Hn).
      rewrite Ho, Hv, Hp in *.
      exists s1, l. repeat split; assumption.
  - intros x fd b t. apply assemble_stiff.
  - intros v p. apply subtractALE_other.
  - intros v p q c a. apply subtractALE_listed.
Qed.

(** C9: in a step of the implicit-nonlinear scheme the constant part of the
    right-hand side is the one computed from the state the step starts in;
    it is still in [constRHS] after the step, no assembly writes it, and the
    right-hand side of every linear solve of the step is
    [dt*theta*r + constRHS], [r] being the right-hand side the stiffness
    assembly of that iteration produced. *)
Theorem constant_rhs_reused_across_iterations dt ale (s s' : Integrator T) :
  initialized s = true ->
  Scheme (m_options s) = implicit_nonlinear ->
  makeTimeStep dt ale s = Ok s' ->
  constRHS s' = constantRhs (set_tStep dt s) /\
  (exists l,
     log s' = log s ++ l /\
     rhs_iterations (dt * Theta (m_options s))%S
                    (constantRhs (set_tStep dt s)) l /\
     numIters s' = solves l) /\
  (forall x fd b (t : Integrator T),
     constRHS (fst (assemble x fd b t)) = constRHS t /\
     sysRhs (fst (assemble x fd b t))
     = madd (mscale (tStep t * Theta (m_options t))%S
                    (nsRhs (stiffAssembler (fst (assemble x fd b t)))))
            (constRHS t)).
Proof.
  intros Hi Hs H. rewrite makeTimeStep_initialized, Hs in H by exact Hi.
  set (s2 := set_flagALE ale (set_tStep dt s)) in *.
  destruct (assembledFlag (massAssembler s2)) eqn:Ef.
  - destruct (implicitNonlinear_spec s2 Ef)
      as (s3 & l & H3 & Hl & _ & Hr & Hc & Hn & _).
    rewrite H3 in H. inversion H; subst s3.
    split; [exact Hc|]. split.
    + exists l. repeat split; assumption.
    + intros x fd b t. split; reflexivity.
  - rewrite (implicitNonlinear_err s2 Ef) in H. discriminate.
Qed.

(** C10: on an integrator that is not initialised, [makeTimeStep] and
    [saveState] are [initialize()] followed by the call on the initialised
    integrator.  [initialize()] leaves in the stiffness assembler the matrix
    and the right-hand side assembled at the stored solution and [m_ddof],
    and in the mass assembler the mass matrix, assembled then unless it was
    assembled already.  Either call raises exactly when the stored solution
    vector does not have as many rows as the assembler has degrees of
    freedom. *)
Theorem uninitialized_calls_initialize_first (s : Integrator T) :
  initialized s = false ->
  (forall dt ale,
     makeTimeStep dt ale s = (s1 <- initialize s ;; makeTimeStep dt ale s1)) /\
  saveState s = (s1 <- initialize s ;; saveState s1) /\
  (forall s1, initialize s = Ok s1 ->
     initialized s1 = true /\
     assembledFlag (massAssembler s1) = true /\
     log s1 = log s ++ StiffAssembleVector (solVector s) (m_ddof s)
                       :: (if assembledFlag (massAssembler s) then []
                           else [MassAssemble]) /\
     nsMatrix (stiffAssembler s1)
     = fst (nsAssembleVector (stiffAssembler s) (solVector s) (m_ddof s)) /\
     nsRhs (stiffAssembler s1)
     = snd (nsAssembleVector (stiffAssembler s) (solVector s) (m_ddof s)) /\
     massDdof (massAssembler s1) = m_ddof s /\
     (assembledFlag (massAssembler s) = false ->
      massMatrix (massAssembler s1)
      = mkMat (massNumDofs (massAssembler s))
              (massNumDofs (massAssembler s))
              (fst (massVisitor
                      (massSetFixedDofs (m_ddof s) (massAssembler s))))) /\
     (assembledFlag (massAssembler s) = true ->
      massMatrix (massAssembler s1) = massMatrix (massAssembler s))) /\
  (forall dt ale,
     failed (makeTimeStep dt ale s)
     <-> rows (solVector s) <> nsNumDofs (stiffAssembler s)) /\
  (failed (saveState s)
   <-> rows (solVector s) <> nsNumDofs (stiffAssembler s)).
Proof.
  intros Hi. split; [|split; [|split; [|split]]].
  - intros dt ale. now apply makeTimeStep_uninitialized.
  - now apply saveState_uninitialized.
  - intros s1 H.
    destruct (initialize_cases s) as [[E _]|[_ Hr]]; [congruence|].
    destruct (initialize_spec s Hr) as (s1' & E' & H1 & H2 & H3 & _).
    rewrite H in E'. inversion E'; subst s1'.
    destruct (initialize_assemblers _ H)
      as (_ & A1 & A2 & _ & A3 & A4 & A5).
    repeat (split; [assumption|]). exact A5.
  - intros dt ale. rewrite makeTimeStep_uninitialized by exact Hi.
    destruct (initialize_cases s) as [[E Hr]|[_ Hr]].
    + rewrite E. cbn [bind]. split; [intros _; exact Hr|].
      intros _. eexists. reflexivity.
    + destruct (initialize_spec s Hr) as (s1 & E & H1 & H2 & _).
      rewrite E. cbn [bind].
      destruct (makeTimeStep_ok dt ale s1 H1 H2) as [s' Hs'].
      rewrite Hs'. split; [intros [e He]; discriminate | contradiction].
  - rewrite saveState_uninitialized by exact Hi.
    destruct (initialize_cases s) as [[E Hr]|[_ Hr]].
    + rewrite E. cbn [bind]. split; [intros _; exact Hr|].
      intros _. eexists. reflexivity.
    + destruct (initialize_spec s Hr) as (s1 & E & H1 & _).
      rewrite E. cbn [bind]. unfold saveState. rewrite H1. cbn [bind].
      split; [intros [e He]; discriminate | contradiction].
Qed.

End Steps.

Section SystemMatrix.
Context {T : Type} {ST : Scalar T} {B : Backend T}.
Hypothesis Tring : ring_theory szero sone sadd smul ssub sopp (@eq T).

(** C7: the system matrix left by [assemble] and by [implicitLinear] is
    [dt] times the stiffness matrix outside the velocity-velocity block and
    the mass matrix plus [dt*theta] times the stiffness matrix inside it. *)
Theorem velocity_block_carries_mass_and_theta (s : Integrator T) :
  massNumDofs (massAssembler s) <= nsNumDofs (stiffAssembler s) ->
  (forall x fd b i j,
     let s' := fst (assemble x fd b s) in
     coef (sysMatrix s') i j =
     if (i <? massNumDofs (massAssembler s))
        && (j <? massNumDofs (massAssembler s))
     then (coef (massMatrix (massAssembler s')) i j
           + tStep s' * Theta (m_options s')
             * coef (nsMatrix (stiffAssembler s')) i j)%S
     else (tStep s' * coef (nsMatrix (stiffAssembler s')) i j)%S) /\
  (forall s' i j,
     implicitLinear s = Ok s' ->
     coef (sysMatrix s') i j =
     if (i <? massNumDofs (massAssembler s))
        && (j <? massNumDofs (massAssembler s))
     then (coef (massMatrix (massAssembler s')) i j
           + tStep s' * Theta (m_options s')
             * coef (nsMatrix (stiffAssembler s')) i j)%S
     else (tStep s' * coef (nsMatrix (stiffAssembler s')) i j)%S).
Proof.
  intros Hn. split.
  - intros x fd b i j s'.
    change (sysMatrix s') with
      (systemMatrix (tStep s) (Theta (m_options s))
                    (massNumDofs (massAssembler s))
                    (nsNumDofs (stiffAssembler s))
                    (nsMatrix (stiffAssembler s'))
                    (massMatrix (massAssembler s))).
    rewrite (systemMatrix_coef Tring) by exact Hn. reflexivity.
  - intros s' i j H.
    destruct (assembledFlag (massAssembler s)) eqn:Ef.
    + destruct (implicitLinear_spec s Ef)
        as (s3 & v0 & p0 & H3 & _ & Hm & Hmm & _ & _ & _ & Ht & Ho).
      rewrite H3 in H. inversion H; subst s3.
      unfold outside_step in Ho. injection Ho; intros.
      rewrite Hm, (systemMatrix_coef Tring) by exact Hn.
      rewrite Ht. replace (m_options s') with (m_options s) by congruence.
      reflexivity.
    + rewrite (implicitLinear_err s Ef) in H. discriminate.
Qed.

End SystemMatrix.
End NsTimeIntegratorFacts.

(** ** Properties of the coupler *)

Module CouplerFacts.
Import Coupler.

Lemma Rltb_true x y : (x < y)%R -> Rltb x y = true.
Proof.
  intros H. unfold Rltb.
  destruct (Rlt_dec x y); [reflexivity|contradiction].
Qed.

Lemma Rltb_false x y : (y <= x)%R -> Rltb x y = false.
Proof. intros H. unfold Rltb. destruct (Rlt_dec x y); [lra|reflexivity]. Qed.

(** *** The inflow ramp *)

Lemma rampFactor_sin simTime tStep :
  rampFactor simTime tStep
  = (sin (PI * (simTime + tStep) / 4) * sin (PI * (simTime + tStep) / 4))%R.
Proof.
  unfold rampFactor.
  replace (PI * (simTime + tStep) / 2)%R
    with (2 * (PI * (simTime + tStep) / 4))%R by field.
  rewrite cos_2a_sin. field.
Qed.

Lemma rampFactor_positive simTime tStep :
  (0 < simTime + tStep < 4)%R -> (0 < rampFactor simTime tStep)%R.
Proof.
  intros [H0 H4]. rewrite rampFactor_sin.
  assert (Hpi := PI_RGT_0).
  apply Rmult_lt_0_compat; apply sin_gt_0; nra.
Qed.

Lemma rampFactor_start simTime tStep :
  (simTime + tStep = 0)%R -> rampFactor simTime tStep = 0%R.
Proof.
  intros H. unfold rampFactor. rewrite H.
  replace (PI * 0 / 2)%R with 0%R by field. rewrite cos_0. field.
Qed.

Lemma rampFactor_end simTime tStep :
  (simTime + tStep = 2)%R -> rampFactor simTime tStep = 1%R.
Proof.
  intros H. unfold rampFactor. rewrite H.
  replace (PI * 2 / 2)%R with PI by field. rewrite cos_PI. field.
Qed.

Section Loop.
Context {Beam Mesh Flow : Type} {solvers : Solvers Beam Mesh Flow}.

(** What one iteration of the loop does, call by call. *)
Lemma iteration_spec cfg (s s' : State Beam Mesh Flow) :
  iteration cfg s = Ok s' ->
  let t := stepSize cfg (simTime s) in
  trace s' = trace s
             ++ (if Rltb (simTime s) 2
                 then [SetInflow (rampedInflow (inflowDDoFs cfg) (simTime s) t)]
                 else [])
             ++ [BeamStep t; AleSolve; FlowStep t true (dispALE s');
                 WriteLog (simTime s')] /\
  simTime s' = (simTime s + t)%R /\
  numTimeStep s' = (numTimeStep s + 1)%R /\
  beam s' = beamMakeTimeStep t (beam s) /\
  dispALE s' = aleSolution (mesh s') /\
  velALE s' = fst (aleVelocity t 0 (aleSolution (mesh s')) (dispALE s)
                               (flow (rampInflow cfg t s))).
Proof.
  intros H t. unfold iteration in H. fold t in H.
  assert (Hr : trace (rampInflow cfg t s)
               = trace s ++ (if Rltb (simTime s) 2
                             then [SetInflow (rampedInflow (inflowDDoFs cfg)
                                                           (simTime s) t)]
                             else []) /\
               simTime (rampInflow cfg t s) = simTime s /\
               numTimeStep (rampInflow cfg t s) = numTimeStep s /\
               beam (rampInflow cfg t s) = beam s /\
               mesh (rampInflow cfg t s) = mesh s /\
               dispALE (rampInflow cfg t s) = dispALE s).
  { unfold rampInflow. destruct (Rltb (simTime s) 2); simpl;
      rewrite ?app_nil_r; repeat split; reflexivity. }
  destruct Hr as (Htr & Hsim & Hnum & Hbeam & Hmesh & Hdisp).
  set (s0 := rampInflow cfg t s) in *.
  simpl in H.
  destruct (aleVelocity _ _ _ _ _) as [v f] eqn:Ev in H.
  simpl in H.
  destruct (flowMakeTimeStep _ _ _ _) as [f'|e] in H; cbn [bind] in H;
    [|discriminate].
  inversion H; subst s'. clear H. simpl.
  rewrite Htr, Hsim, Hnum, Hbeam, Hmesh, Hdisp in *.
  rewrite <- !app_assoc. simpl.
  repeat split; try reflexivity.
  rewrite Ev. reflexivity.
Qed.

(** The fluid step of an iteration: the fluid solver the iteration leaves is
    the result of [nsTimeSolver.makeTimeStep(tStep,true)] on the solver
    with the geometry moved and the three interface values set. *)
Lemma iteration_flow cfg (s s' : State Beam Mesh Flow) :
  iteration cfg s = Ok s' ->
  let t := stepSize cfg (simTime s) in
  flowMakeTimeStep t true (velALE s')
    (flowSetFixedDofs 5 west (boundaryCoefs west (patchOr (velALE s') 2))
       (flowSetFixedDofs 4 north
          (boundaryCoefs north (patchOr (velALE s') 1))
          (flowSetFixedDofs 3 south
             (boundaryCoefs south (patchOr (velALE s') 0))
             (snd (aleVelocity t 0 (aleSolution (mesh s')) (dispALE s)
                               (flow (rampInflow cfg t s)))))))
  = Ok (flow s').
Proof.
  intros H t. unfold iteration in H. fold t in H.
  assert (Hr : mesh (rampInflow cfg t s) = mesh s /\
               dispALE (rampInflow cfg t s) = dispALE s /\
               beam (rampInflow cfg t s) = beam s).
  { unfold rampInflow. destruct (Rltb (simTime s) 2); repeat split. }
  destruct Hr as (Hmesh & Hdisp & Hbeam).
  set (s0 := rampInflow cfg t s) in *.
  simpl in H.
  destruct (aleVelocity _ _ _ _ _) as [v f] eqn:Ev in H.
  simpl in H.
  destruct (flowMakeTimeStep _ _ _ _) as [f'|e] eqn:Ef in H;
    cbn [bind] in H; [|discriminate].
  inversion H; subst s'. clear H. simpl.
  rewrite Hmesh, Hdisp, Hbeam in *.
  rewrite Ev. simpl. exact Ef.
Qed.

(** C1, as the code has it: when the mesh check at the top of an iteration
    reports the displacement carried over from the previous iteration
    invalid, the loop is left at once, whatever fuel is left: no beam, mesh
    or fluid step of that iteration is called.  The displacement an
    iteration computes is the one its own fluid step runs on; it is checked
    at the top of the next iteration only. *)
Theorem broken_mesh_stops_before_the_steps fuel cfg (s : State Beam Mesh Flow) :
  (simTime s < timeSpan cfg)%R ->
  (checkSolution (mesh s) (dispALE s) <> -1)%Z ->
  run (S fuel) cfg s
  = Stopped BrokenMesh
      (record (CheckSolution (dispALE s) (checkSolution (mesh s) (dispALE s)))
              s) /\
  (forall s0 s',
     iteration cfg s0 = Ok s' ->
     dispALE s' = aleSolution (mesh s') /\
     flowSteps (trace s')
     = flowSteps (trace s0) ++ [(stepSize cfg (simTime s0), dispALE s')]).
Proof.
  intros Ht Hc. split.
  - simpl. rewrite Rltb_true by exact Ht.
    apply Z.eqb_neq in Hc. rewrite Hc. reflexivity.
  - intros s0 s' H. apply iteration_spec in H.
    destruct H as (Htr & _ & _ & _ & Hd & _).
    split; [exact Hd|]. rewrite Htr.
    assert (Happ : forall l1 l2, flowSteps (l1 ++ l2)
                                 = flowSteps l1 ++ flowSteps l2).
    { induction l1 as [|c l1 IH]; intros l2; simpl; [reflexivity|].
      destruct c; simpl; rewrite ?IH; reflexivity. }
    rewrite !Happ. destruct (Rltb (simTime s0) 2); reflexivity.
Qed.

(** C6: the step size of an iteration is 0.1 when warm-up is on and the
    simulation time is below 2, and the configured step otherwise.  The
    three solvers receive it: the beam the iteration leaves is the result
    of the beam step of that size, the ALE velocity it leaves is the mesh
    increment divided by it, and the fluid solver it leaves is the result
    of the fluid step of that size, with the ALE flag set, on the solver
    with the geometry moved and the interface values set.  The simulation
    time advances by it. *)
Theorem step_size_of_an_iteration cfg (s s' : State Beam Mesh Flow) :
  iteration cfg s = Ok s' ->
  let t := stepSize cfg (simTime s) in
  (warmUp cfg = true -> (simTime s < 2)%R -> t = (1 / 10)%R) /\
  (warmUp cfg = false \/ (2 <= simTime s)%R -> t = timeStep cfg) /\
  beam s' = beamMakeTimeStep t (beam s) /\
  velALE s' = fst (aleVelocity t 0 (aleSolution (mesh s')) (dispALE s)
                               (flow (rampInflow cfg t s))) /\
  In (BeamStep t) (trace s') /\
  In (FlowStep t true (dispALE s')) (trace s') /\
  simTime s' = (simTime s + t)%R /\
  flowMakeTimeStep t true (velALE s')
    (flowSetFixedDofs 5 west (boundaryCoefs west (patchOr (velALE s') 2))
       (flowSetFixedDofs 4 north
          (boundaryCoefs north (patchOr (velALE s') 1))
          (flowSetFixedDofs 3 south
             (boundaryCoefs south (patchOr (velALE s') 0))
             (snd (aleVelocity t 0 (aleSolution (mesh s')) (dispALE s)
                               (flow (rampInflow cfg t s)))))))
  = Ok (flow s').
Proof.
  intros H t. pose proof (iteration_flow _ _ H) as Hflow.
  cbv zeta in Hflow. fold t in Hflow.
  apply iteration_spec in H. fold t in H.
  destruct H as (Htr & Hs & _ & Hb & _ & Hv).
  split; [|split].
  - intros Hw Hlt. unfold t, stepSize. rewrite Hw, Rltb_true by exact Hlt.
    reflexivity.
  - intros [Hw|Hge]; unfold t, stepSize.
    + rewrite Hw. reflexivity.
    + rewrite Rltb_false by exact Hge. rewrite andb_false_r. reflexivity.
  - split; [exact Hb|]. split; [exact Hv|].
    split; [rewrite Htr; apply in_or_app; right; apply in_or_app; right;
            simpl; auto|].
    split; [rewrite Htr; apply in_or_app; right; apply in_or_app; right;
            simpl; auto|].
    split; [exact Hs | exact Hflow].
Qed.

(** C5, as the code has it: in an iteration that starts at a simulation
    time below 2 the inflow values are set to the saved ones times
    [(1-cos(pi*(simTime+tStep)/2))/2], the ramp taken at the end of the
    step; from time 2 on the inflow values are not set any more.  The
    factor is 0 when [simTime+tStep] is 0, 1 when it is 2 and positive in
    between. *)
Theorem inflow_ramp_at_the_end_of_the_step cfg tStep
    (s : State Beam Mesh Flow) :
  ((simTime s < 2)%R ->
     trace (rampInflow cfg tStep s)
     = trace s ++ [SetInflow (rampedInflow (inflowDDoFs cfg) (simTime s)
                                           tStep)] /\
     flow (rampInflow cfg tStep s)
     = flowSetFixedDofs 0 west
         (rampedInflow (inflowDDoFs cfg) (simTime s) tStep) (flow s)) /\
  ((2 <= simTime s)%R -> rampInflow cfg tStep s = s) /\
  (forall i j,
     coef (rampedInflow (inflowDDoFs cfg) (simTime s) tStep) i j
     = (rampFactor (simTime s) tStep * coef (inflowDDoFs cfg) i j)%R) /\
  ((simTime s + tStep = 0)%R -> rampFactor (simTime s) tStep = 0%R) /\
  ((simTime s + tStep = 2)%R -> rampFactor (simTime s) tStep = 1%R) /\
  ((0 < simTime s + tStep < 4)%R -> (0 < rampFactor (simTime s) tStep)%R).
Proof.
  split; [|split; [|split; [|split; [|split]]]].
  - intros H. unfold rampInflow. rewrite Rltb_true by exact H.
    split; reflexivity.
  - intros H. unfold rampInflow. rewrite Rltb_false by exact H. reflexivity.
  - intros i j. unfold rampedInflow, rampFactor. simpl. field.
  - apply rampFactor_start.
  - apply rampFactor_end.
  - apply rampFactor_positive.
Qed.

End Loop.
End CouplerFacts.

(** ** The properties on the instances *)

Module Runs.
Import Examples NsTimeIntegratorFacts CouplerFacts.

Lemma segment_folded tip : (tip < -1)%R -> firstFolded 0 (segment tip) = 0%Z.
Proof.
  intros H. unfold firstFolded, segment, folded. simpl.
  rewrite Rltb_true by lra. reflexivity.
Qed.

Lemma segment_valid tip : (-1 <= tip)%R -> firstFolded 0 (segment tip) = (-1)%Z.
Proof.
  intros H. unfold firstFolded, segment, folded. simpl.
  rewrite Rltb_false by lra. reflexivity.
Qed.

(** *** The coupler on the folding mesh *)

Lemma toy_first_iteration :
  exists s1,
    Coupler.iteration toyConfig
      (Coupler.record (Coupler.CheckSolution (segment 0) (-1)) toyStart)
    = Ok s1 /\
    Coupler.simTime s1 = (0 + 1 / 10)%R /\
    Coupler.mesh s1 = (0 + (0 - 20 * (1 / 10) - 0))%R /\
    Coupler.dispALE s1 = segment (0 + (0 - 20 * (1 / 10) - 0))%R /\
    Coupler.flowSteps (Coupler.trace s1)
    = [((1 / 10)%R, segment (0 + (0 - 20 * (1 / 10) - 0))%R)].
Proof.
  unfold Coupler.iteration, Coupler.stepSize, Coupler.rampInflow.
  simpl. rewrite (@Rltb_true 0 2) by lra. simpl.
  eexists. split; [reflexivity|]. simpl. repeat split.
Qed.

Lemma fluid_step_taken_on_a_folded_mesh :
  exists s d,
    toyRun 2 = Coupler.Stopped Coupler.BrokenMesh s /\
    Coupler.flowSteps (Coupler.trace s) = [((1 / 10)%R, d)] /\
    Coupler.checkSolution (Coupler.mesh s) d = 0%Z.
Proof.
  destruct toy_first_iteration as (s1 & H1 & Ht & Hm & Hd & Hf).
  exists (Coupler.record
            (Coupler.CheckSolution (Coupler.dispALE s1)
               (Coupler.checkSolution (Coupler.mesh s1) (Coupler.dispALE s1)))
            s1).
  exists (segment (0 + (0 - 20 * (1 / 10) - 0))%R).
  assert (Hc : Coupler.checkSolution (Coupler.mesh s1) (Coupler.dispALE s1)
               = 0%Z).
  { rewrite Hd. apply segment_folded. lra. }
  split; [|split].
  - unfold toyRun. cbn [Coupler.run].
    change (Coupler.simTime toyStart) with 0%R.
    change (Coupler.timeSpan toyConfig) with 3%R.
    rewrite (@Rltb_true 0 3) by lra.
    change (Coupler.checkSolution (Coupler.mesh toyStart)
              (Coupler.dispALE toyStart))
      with (firstFolded 0 (segment 0)).
    rewrite segment_valid by lra.
    change (Coupler.dispALE toyStart) with (segment 0).
    change ((-1 =? -1)%Z) with true. cbv iota.
    rewrite H1, Ht, Hc. rewrite Rltb_true by lra. reflexivity.
  - simpl.
    assert (Happ : forall l1 l2, Coupler.flowSteps (l1 ++ l2)
                   = Coupler.flowSteps l1 ++ Coupler.flowSteps l2).
    { induction l1 as [|c l1 IH]; intros l2; simpl; [reflexivity|].
      destruct c; simpl; rewrite ?IH; reflexivity. }
    rewrite Happ, Hf. reflexivity.
  - cbn [Coupler.checkSolution toySolvers]. apply segment_folded. lra.
Qed.


(** *** The integrator on the toy problem *)

Lemma get_ok (r : result (Integrator Q)) :
  (exists s, r = Ok s) -> r = Ok (get r).
Proof. intros [s ->]. reflexivity. Qed.

Lemma started_ready :
  initialize fresh = Ok started /\
  initialized started = true /\
  assembledFlag (massAssembler started) = true.
Proof.
  assert (H : rows (solVector fresh) = nsNumDofs (stiffAssembler fresh))
    by reflexivity.
  destruct (initialize_spec fresh H) as (s1 & E & Hi & Hf & _).
  assert (Es : started = s1) by (unfold started; rewrite E; reflexivity).
  rewrite Es. auto.
Qed.

Lemma setScheme_ready sch (s : Integrator Q) :
  initialized s = true -> assembledFlag (massAssembler s) = true ->
  initialized (setScheme sch s) = true /\
  assembledFlag (massAssembler (setScheme sch s)) = true.
Proof. intros H1 H2. split; assumption. Qed.

Lemma toy_newton_steps :
  makeTimeStep (1 # 100)%Q true started = Ok afterNewton /\
  makeTimeStep (1 # 100)%Q true afterNewton = Ok afterSecondNewton.
Proof.
  destruct started_ready as (_ & Hi & Hf).
  assert (H1 : makeTimeStep (1 # 100)%Q true started = Ok afterNewton)
    by (apply get_ok, makeTimeStep_ok; assumption).
  split; [exact H1|].
  apply get_ok, makeTimeStep_ok.
  - apply (makeTimeStep_outside _ _ _ H1).
  - exact (makeTimeStep_keeps_flag _ _ _ Hi Hf H1).
Qed.

Lemma toy_linear_step :
  makeTimeStep (1 # 100)%Q true (setScheme implicit_linear started)
  = Ok afterLinear.
Proof.
  destruct started_ready as (_ & Hi & Hf).
  destruct (setScheme_ready implicit_linear started Hi Hf) as [Hi' Hf'].
  apply get_ok, makeTimeStep_ok; assumption.
Qed.

Lemma toy_checkpoint :
  saveState started = Ok checkpointed /\
  recoverState checkpointed = Ok restored.
Proof.
  destruct started_ready as (_ & Hi & Hf).
  assert (Hs : saveState started = Ok checkpointed)
    by (apply get_ok, saveState_ok; exact Hi).
  split; [exact Hs|].
  apply get_ok.
  destruct (saveState_spec _ Hs) as [Hc _].
  destruct (recoverState_spec checkpointed Hc) as (s' & E & _).
  eauto.
Qed.


Lemma started_scheme : Scheme (m_options started) = implicit_nonlinear.
Proof. vm_compute. reflexivity. Qed.

(** Two Newton iterations, each with one construction, one stiffness
    assembly and one linear solve, after the two calls of [initialize]. *)
Example toy_newton_log :
  numIters afterNewton = 2 /\ solves (log afterNewton) = 2 /\
  length (log afterNewton) = 8.
Proof. vm_compute. repeat split. Qed.

(** The system matrix of the implicit-linear step with [dt = 1/100] and
    [theta = 1/2]: [1 + dt*theta] in the velocity block, [dt] in the pressure
    block, nothing off the diagonal. *)
Example toy_linear_matrix :
  map (fun ij => Qred (coef (sysMatrix afterLinear) (fst ij) (snd ij)))
      [(0, 0); (1, 1); (2, 2); (2, 0)]
  = [(201 # 200)%Q; (201 # 200)%Q; (1 # 100)%Q; 0%Q].
Proof. vm_compute. reflexivity. Qed.

(** The ALE velocity [(1,1,1)] is subtracted from the velocity [(1,2,3)]
    before the assembly, whose right-hand side is half the velocity. *)
Example toy_linear_rhs :
  map (fun i => Qred (coef (nsRhs (stiffAssembler afterLinear)) i 0))
      [0; 1; 2]
  = [0%Q; (1 # 2)%Q; 1%Q].
Proof. vm_compute. reflexivity. Qed.

(** *** The theorems on the instances *)

Lemma roundtrip_on_the_toy_problem :
  exists s1 s2,
    saveState started = Ok s1 /\ recoverState s1 = Ok s2 /\
    solVector s2 = solVector started /\
    oldSolVector s2 = oldSolVector started /\
    m_ddof s2 = m_ddof started /\
    nsMatrix (stiffAssembler s2) = nsMatrix (stiffAssembler started) /\
    nsRhs (stiffAssembler s2) = nsRhs (stiffAssembler started) /\
    massRhs (massAssembler s2) = massRhs (massAssembler started).
Proof.
  exact (saveState_recoverState_roundtrip started
           (proj1 (proj2 started_ready))).
Defined.

Lemma bare_integrator_cannot_recover :
  hasSavedState bare = false /\ failed (recoverState bare).
Proof.
  split; [reflexivity|].
  apply (proj1 (recoverState_needs_a_checkpoint_and_keeps_it bare)).
  reflexivity.
Defined.

Lemma second_recoverState_succeeds :
  saveState started = Ok checkpointed /\
  recoverState checkpointed = Ok restored /\
  recoverState restored = Ok restored.
Proof.
  destruct toy_checkpoint as [Hs Hr].
  split; [exact Hs|]. split; [exact Hr|].
  apply (recoverState_again _ Hr).
Qed.

Lemma linear_step_on_the_toy_problem :
  makeTimeStep (1 # 100)%Q true (setScheme implicit_linear started)
  = Ok afterLinear /\
  oldSolVector afterLinear = solVector (setScheme implicit_linear started) /\
  oldTimeStep afterLinear = (1 # 100)%Q.
Proof.
  split; [exact toy_linear_step|].
  apply (proj1 (makeTimeStep_previous_step_data _ _ _ toy_linear_step)).
  reflexivity.
Defined.

Lemma nonlinear_step_keeps_the_old_data :
  Scheme (m_options started) = implicit_nonlinear /\
  makeTimeStep (1 # 100)%Q true started = Ok afterNewton /\
  oldTimeStep afterNewton = 1%Q /\
  makeTimeStep (1 # 100)%Q true afterNewton = Ok afterSecondNewton /\
  coef (oldSolVector afterSecondNewton) 1 0 = 2%Q /\
  Qred (coef (solVector afterNewton) 1 0) = (320401 # 160000)%Q.
Proof.
  split; [exact started_scheme|].
  split; [apply toy_newton_steps|].
  split; [vm_compute; reflexivity|].
  split; [apply toy_newton_steps|].
  split; vm_compute; reflexivity.
Qed.

Lemma ramp_complete_at_the_end_of_the_last_ramped_step :
  (19 / 10 + 1 / 10 = 2)%R /\
  Coupler.rampFactor (19 / 10) (1 / 10) = 1%R.
Proof.
  split; [lra|].
  apply (proj1 (proj2 (proj2 (proj2 (proj2
           (inflow_ramp_at_the_end_of_the_step toyConfig (1 / 10)%R
                                               toyLate)))))).
  change (19 / 10 + 1 / 10 = 2)%R. lra.
Defined.

Lemma ramp_not_zero_in_the_first_step :
  Coupler.stepSize (defaultConfig (mzero 1 1)) 0 = (1 / 100)%R /\
  (0 < Coupler.rampFactor 0 (Coupler.stepSize (defaultConfig (mzero 1 1)) 0))%R
  /\ Coupler.rampInflow (defaultConfig (mzero 1 1)) (1 / 100)%R toyAtTwo
     = toyAtTwo.
Proof.
  split; [reflexivity|]. split.
  - apply rampFactor_positive.
    change (0 < 0 + 1 / 100 < 4)%R. lra.
  - unfold Coupler.rampInflow. simpl. rewrite Rltb_false by lra. reflexivity.
Qed.

Lemma warm_first_iteration :
  Coupler.iteration warmConfig toyStart = Ok warmAfterOne.
Proof.
  assert (H : exists s1, Coupler.iteration warmConfig toyStart = Ok s1).
  { unfold Coupler.iteration, Coupler.stepSize, Coupler.rampInflow.
    simpl. rewrite (@Rltb_true 0 2) by lra. simpl.
    eexists. reflexivity. }
  destruct H as [s1 E]. unfold warmAfterOne. rewrite E. reflexivity.
Qed.

Lemma warm_up_step_on_the_toy_problem :
  Coupler.warmUp warmConfig = true /\
  (Coupler.simTime toyStart < 2)%R /\
  Coupler.stepSize warmConfig (Coupler.simTime toyStart) = (1 / 10)%R.
Proof.
  split; [reflexivity|]. split; [simpl; lra|].
  apply (proj1 (step_size_of_an_iteration warmConfig toyStart
                  warm_first_iteration)).
  - reflexivity.
  - simpl. lra.
Defined.

Lemma blocks_on_the_real_problem :
  coef (sysMatrix realAssembled) 1 1
  = (coef (massMatrix (massAssembler realAssembled)) 1 1
     + tStep realAssembled * Theta (m_options realAssembled)
       * coef (nsMatrix (stiffAssembler realAssembled)) 1 1)%S /\
  coef (sysMatrix realAssembled) 2 1
  = (tStep realAssembled
     * coef (nsMatrix (stiffAssembler realAssembled)) 2 1)%S.
Proof.
  assert (H : massNumDofs (massAssembler realStart)
              <= nsNumDofs (stiffAssembler realStart)) by (simpl; lia).
  split.
  - exact (proj1 (velocity_block_carries_mass_and_theta
                    (B := realBackend) RTheory realStart H)
                 (mzero 3 1) [] true 1 1).
  - exact (proj1 (velocity_block_carries_mass_and_theta
                    (B := realBackend) RTheory realStart H)
                 (mzero 3 1) [] true 2 1).
Defined.

Lemma ale_subtracted_on_the_toy_problem :
  exists l,
    log afterNewton = log started ++ l /\
    ale_iterations (patchesALE started) (velocityALE started) l /\
    Stepping.ale_assemblies (patchesALE started) (velocityALE started)
      (setAssembly newton_next (stiffAssembler started)) l
      (stiffAssembler afterNewton) /\
    numIters afterNewton = solves l.
Proof.
  destruct (ale_velocity_subtracted_before_every_assembly
              (1 # 100)%Q started (proj1 toy_newton_steps))
    as ((s0 & l & Hs0 & Hl & Hale & Ha & Hn) & _).
  rewrite (proj1 (proj2 started_ready)) in Hs0. subst s0.
  rewrite started_scheme in Ha, Hn.
  exists l.
  refine (conj Hl (conj Hale (conj Ha (Hn _)))). discriminate.
Defined.

Lemma constant_rhs_on_the_toy_problem :
  constRHS afterNewton = constantRhs (set_tStep (1 # 100)%Q started).
Proof.
  exact (proj1 (constant_rhs_reused_across_iterations (1 # 100)%Q true
                  started (proj1 (proj2 started_ready)) started_scheme
                  (proj1 toy_newton_steps))).
Defined.

Lemma step_without_initial_condition_raises :
  initialized bare = false /\
  failed (makeTimeStep (1 # 100)%Q true bare) /\ failed (saveState bare) /\
  initialized fresh = false /\
  initialize fresh = Ok started /\
  nsRhs (stiffAssembler started)
  = snd (nsAssembleVector (stiffAssembler fresh) (solVector fresh)
                          (m_ddof fresh)) /\
  massMatrix (massAssembler started)
  = mkMat 2 2 (fst (massVisitor
                      (massSetFixedDofs (m_ddof fresh)
                                        (massAssembler fresh)))).
Proof.
  split; [reflexivity|].
  destruct (uninitialized_calls_initialize_first bare eq_refl)
    as (_ & _ & _ & Hm & Hs).
  split; [apply Hm; simpl; lia|]. split; [apply Hs; simpl; lia|].
  split; [reflexivity|]. split; [exact (proj1 started_ready)|].
  destruct (uninitialized_calls_initialize_first fresh eq_refl)
    as (_ & _ & Hi & _).
  destruct (Hi started (proj1 started_ready))
    as (_ & _ & _ & _ & Hr & _ & Hmass & _).
  split; [exact Hr | exact (Hmass eq_refl)].
Defined.

Lemma broken_mesh_stops_the_toy_run :
  Coupler.run 1 toyConfig toyFolded
  = Coupler.Stopped Coupler.BrokenMesh
      (Coupler.record
         (Coupler.CheckSolution (Coupler.dispALE toyFolded)
            (Coupler.checkSolution (Coupler.mesh toyFolded)
                                   (Coupler.dispALE toyFolded)))
         toyFolded).
Proof.
  assert (H1 : (Coupler.simTime toyFolded < Coupler.timeSpan toyConfig)%R)
    by (change (0 < 3)%R; lra).
  assert (H2 : Coupler.checkSolution (Coupler.mesh toyFolded)
                 (Coupler.dispALE toyFolded) <> (-1)%Z).
  { change (firstFolded 0 (segment (-2)) <> (-1)%Z).
    rewrite segment_folded by lra. discriminate. }
  exact (proj1 (broken_mesh_stops_before_the_steps 0 toyConfig toyFolded
                  H1 H2)).
Defined.

End Runs.

(** ** More on the integrator *)

Module IntegratorMore.
Import Stepping NsTimeIntegratorFacts.

Section More.
Context {T : Type} {ST : Scalar T} {B : Backend T}.

(** *** More on what the two schemes write *)

Lemma implicitLinearFinish_more theta nv (s : Integrator T) :
  let s' := implicitLinearFinish theta nv s in
  m_ddof s' = nsFixedDofs (stiffAssembler s) /\
  stiffAssembler s' = stiffAssembler s /\
  massAssembler s' = massAssembler s /\
  constRHS s' = constRHS s.
Proof. repeat split. Qed.

Lemma implicitLinear_more (s : Integrator T) :
  assembledFlag (massAssembler s) = true ->
  exists s',
    implicitLinear s = Ok s' /\
    m_ddof s' = nsFixedDofs (stiffAssembler s) /\
    massDdof (massAssembler s') = nsFixedDofs (stiffAssembler s) /\
    nsFixedDofs (stiffAssembler s') = nsFixedDofs (stiffAssembler s) /\
    massRhs (massAssembler s') = eliminatedRhs s /\
    constRHS s' = constRHS s.
Proof.
  intros H. rewrite (implicitLinear_ok s H).
  exists (afterImplicitLinear s). split; [reflexivity|].
  unfold afterImplicitLinear. rewrite implicitLinearStart_eq.
  pose proof (assembleStiffnessAt_kept (extrapolation s)
                (nsFixedDofs (stiffAssembler s)) (oseenReady s)) as Hk.
  set (s1 := assembleStiffnessAt _ _ _) in *. clearbody s1.
  set (m1 := massSetRHS _ _).
  assert (Hm1 : massDdof m1 = nsFixedDofs (stiffAssembler s)
                /\ massRhs m1 = eliminatedRhs s) by (split; reflexivity).
  destruct Hm1 as [Hmd Hmr]. clearbody m1.
  destruct (implicitLinearFinish_more (Theta (m_options s))
              (massNumDofs (massAssembler s)) (set_massAssembler m1 s1))
    as (Fd & Fs & Fm & Fc).
  cbv zeta in Fd, Fs, Fm, Fc.
  set (s' := implicitLinearFinish _ _ _) in *. clearbody s'.
  change (stiffAssembler (set_massAssembler m1 s1))
    with (stiffAssembler s1) in Fd, Fs.
  change (massAssembler (set_massAssembler m1 s1)) with m1 in Fm.
  change (constRHS (set_massAssembler m1 s1)) with (constRHS s1) in Fc.
  unfold kept in Hk. injection Hk as Hk1 Hk2 Hk3 Hk4 Hk5 Hk6 Hk7 Hk8 Hk9
    Hk10 Hk11 Hk12 Hk13 Hk14 Hk15 Hk16 Hk17 Hk18 Hk19.
  change (nsFixedDofs (stiffAssembler (oseenReady s)))
    with (nsFixedDofs (stiffAssembler s)) in Hk17.
  change (constRHS (oseenReady s)) with (constRHS s) in Hk14.
  split; [rewrite Fd; exact Hk17|].
  split; [rewrite Fm; exact Hmd|].
  split; [rewrite Fs; exact Hk17|].
  split; [rewrite Fm; exact Hmr|].
  rewrite Fc. exact Hk14.
Qed.

Lemma implicitLinearFinish_rhs theta nv (s : Integrator T) :
  sysRhs (implicitLinearFinish theta nv s)
  = addRows 0 nv
      (madd (sysRhs s)
            (mscale (tStep s * theta)%S (nsRhs (stiffAssembler s))))
      (massRhs (massAssembler s)).
Proof. reflexivity. Qed.

Lemma assembleStiffnessAt_sysRhs x fd (s : Integrator T) :
  sysRhs (assembleStiffnessAt x fd s) = sysRhs s.
Proof. reflexivity. Qed.

Lemma oseenReady_fields (s : Integrator T) :
  sysRhs (oseenReady s) = previousStepRhs s /\
  tStep (oseenReady s) = tStep s.
Proof. split; reflexivity. Qed.

Lemma set_massAssembler_fields m (s : Integrator T) :
  stiffAssembler (set_massAssembler m s) = stiffAssembler s /\
  sysRhs (set_massAssembler m s) = sysRhs s /\
  tStep (set_massAssembler m s) = tStep s /\
  massAssembler (set_massAssembler m s) = m.
Proof. repeat split. Qed.

(** The right-hand side the implicit-linear step solves with. *)
Lemma implicitLinear_rhs (s : Integrator T) :
  assembledFlag (massAssembler s) = true ->
  exists s',
    implicitLinear s = Ok s' /\
    sysRhs s'
    = addRows 0 (massNumDofs (massAssembler s))
        (madd (previousStepRhs s)
              (mscale (tStep s * Theta (m_options s))%S
                      (nsRhs (stiffAssembler s'))))
        (eliminatedRhs s).
Proof.
  intros H. rewrite (implicitLinear_ok s H).
  exists (afterImplicitLinear s). split; [reflexivity|].
  unfold afterImplicitLinear. rewrite implicitLinearStart_eq.
  pose proof (assembleStiffnessAt_kept (extrapolation s)
                (nsFixedDofs (stiffAssembler s)) (oseenReady s)) as Hk.
  pose proof (assembleStiffnessAt_sysRhs (extrapolation s)
                (nsFixedDofs (stiffAssembler s)) (oseenReady s)) as Hr.
  rewrite (proj1 (oseenReady_fields s)) in Hr.
  set (s1 := assembleStiffnessAt _ _ _) in *. clearbody s1.
  set (m1 := massSetRHS _ _).
  assert (Hmr : massRhs m1 = eliminatedRhs s) by reflexivity.
  clearbody m1.
  rewrite implicitLinearFinish_rhs.
  destruct (implicitLinearFinish_more (Theta (m_options s))
              (massNumDofs (massAssembler s)) (set_massAssembler m1 s1))
    as (_ & Fs & _).
  cbv zeta in Fs. rewrite Fs.
  destruct (set_massAssembler_fields m1 s1) as (G1 & G2 & G3 & G4).
  rewrite G1, G2, G3, G4.
  unfold kept in Hk. injection Hk as Hk1 Hk2 Hk3 Hk4 Hk5 Hk6 Hk7 Hk8 Hk9
    Hk10 Hk11 Hk12 Hk13 Hk14 Hk15 Hk16 Hk17 Hk18 Hk19.
  rewrite Hr, Hk12, Hmr. reflexivity.
Qed.

(** *** The events of a step *)

Lemma rounds_constructedFrom fd (l : list (event T)) :
  Forall (roundEvent fd) l -> constructedFrom fd l.
Proof.
  intros H x fd' v p Hin. rewrite Forall_forall in H.
  exact (H _ Hin).
Qed.

Lemma rounds_no_init fd (l : list (event T)) :
  Forall (roundEvent fd) l -> filter initEvent l = [].
Proof.
  induction 1 as [|e l He _ IH]; simpl; [reflexivity|].
  destruct e; simpl in *; try contradiction; exact IH.
Qed.

(** The nonlinear solve logs rounds only, and constructs every velocity from
    the fixed degrees of freedom it was given. *)
Lemma iterate_rounds fuel :
  forall absTol relTol fd trials x n (s : Integrator T) s' x' n' l0,
  iterate fuel absTol relTol fd trials x n s = (s', x', n') ->
  log s = l0 ->
  exists l, log s' = l0 ++ l /\ Forall (roundEvent fd) l.
Proof.
  induction fuel as [|fuel IH];
    intros absTol relTol fd trials x n s s' x' n' l0 H Hl0.
  - simpl in H. inversion H; subst. exists []. rewrite app_nil_r.
    split; [reflexivity|constructor].
  - cbn [iterate] in H. rewrite assemble_succeeds in H.
    pose proof (assemble_log x fd true s) as Hlog. cbv zeta in Hlog.
    set (s1 := fst (assemble x fd true s)) in *. clearbody s1.
    set (s2 := add_log (LinearSolve (sysMatrix s1) (sysRhs s1)) s1) in *.
    assert (Hlog2 : log s2
                    = log s1 ++ [LinearSolve (sysMatrix s1) (sysRhs s1)])
      by reflexivity.
    clearbody s2.
    match type of Hlog with _ = _ ++ ?new => set (round := new) in * end.
    assert (Hround : Forall (roundEvent fd)
                       (round ++ [LinearSolve (sysMatrix s1) (sysRhs s1)])).
    { unfold round. repeat constructor. }
    destruct (converged absTol relTol _).
    + inversion H; subst s' x' n'. clear H.
      exists (round ++ [LinearSolve (sysMatrix s1) (sysRhs s1)]).
      split; [|exact Hround].
      rewrite Hlog2, Hlog, Hl0, <- app_assoc. reflexivity.
    + destruct (IH _ _ _ _ _ _ _ _ _ _ _ H eq_refl) as (l & Hl & Hc).
      exists ((round ++ [LinearSolve (sysMatrix s1) (sysRhs s1)]) ++ l).
      split.
      * rewrite Hl, Hlog2, Hlog, Hl0, <- !app_assoc. reflexivity.
      * apply Forall_app. split; assumption.
Qed.

Lemma implicitNonlinear_more (s : Integrator T) :
  assembledFlag (massAssembler s) = true ->
  exists s' l,
    implicitNonlinear s = Ok s' /\
    log s' = log s ++ l /\
    Forall (roundEvent (m_ddof s)) l /\
    m_ddof s' = nsFixedDofs (stiffAssembler s) /\
    massDdof (massAssembler s') = nsFixedDofs (stiffAssembler s) /\
    nsFixedDofs (stiffAssembler s') = nsFixedDofs (stiffAssembler s) /\
    massRhs (massAssembler s') = eliminatedRhs s.
Proof.
  intros H. rewrite (implicitNonlinear_ok s H).
  destruct (iterate MaxIters (AbsTol (m_options s)) (RelTol (m_options s))
                    (m_ddof s) [] (solVector s) 0 (beforeIterations s))
    as [[s1 x1] n1] eqn:E.
  pose proof E as E2.
  apply iterate_trace in E. destruct E as (l0 & _ & _ & _ & _ & Hk).
  destruct (iterate_rounds _ _ _ _ _ _ _ _ E2 eq_refl)
    as (l & Hl & Hc).
  change (log (beforeIterations s)) with (log s) in Hl.
  eexists. exists l. split; [reflexivity|].
  unfold kept in Hk. injection Hk as Hk1 Hk2 Hk3 Hk4 Hk5 Hk6 Hk7 Hk8 Hk9
    Hk10 Hk11 Hk12 Hk13 Hk14 Hk15 Hk16 Hk17 Hk18 Hk19.
  change (nsFixedDofs (stiffAssembler (beforeIterations s)))
    with (nsFixedDofs (stiffAssembler s)) in Hk17.
  change (massAssembler (beforeIterations s))
    with (massSetRHS (eliminatedRhs s)
            (massSetFixedDofs (nsFixedDofs (stiffAssembler s))
                              (massAssembler s))) in Hk1.
  split; [exact Hl|]. split; [exact Hc|].
  split; [exact Hk17|].
  change (massAssembler (set_numIters n1 (set_m_ddof
            (nsFixedDofs (stiffAssembler s1)) (set_solVector x1 s1))))
    with (massAssembler s1).
  change (stiffAssembler (set_numIters n1 (set_m_ddof
            (nsFixedDofs (stiffAssembler s1)) (set_solVector x1 s1))))
    with (stiffAssembler s1).
  rewrite Hk1. split; [reflexivity|]. split; [exact Hk17|reflexivity].
Qed.

(** What one step on an initialised integrator logs. *)
Lemma makeTimeStep_rounds dt ale (s s' : Integrator T) :
  initialized s = true ->
  makeTimeStep dt ale s = Ok s' ->
  exists l,
    log s' = log s ++ l /\
    Forall (roundEvent match Scheme (m_options s) with
                       | implicit_linear => nsFixedDofs (stiffAssembler s)
                       | _ => m_ddof s
                       end) l /\
    (Scheme (m_options s) = other_scheme -> l = []).
Proof.
  intros Hi H. rewrite makeTimeStep_initialized in H by exact Hi.
  set (s0 := set_flagALE ale (set_tStep dt s)) in *.
  destruct (assembledFlag (massAssembler s0)) eqn:Ef.
  - destruct (Scheme (m_options s)).
    + destruct (implicitLinear_spec s0 Ef)
        as (s2 & v0 & p0 & H2 & Hl & _).
      rewrite H2 in H. inversion H; subst s2.
      eexists. split; [exact Hl|]. split; [|discriminate].
      repeat constructor.
    + destruct (implicitNonlinear_more s0 Ef)
        as (s2 & l & H2 & Hl & Hc & _).
      rewrite H2 in H. inversion H; subst s2.
      exists l. split; [exact Hl|]. split; [exact Hc|discriminate].
    + inversion H; subst s'. exists [].
      split; [simpl; now rewrite app_nil_r|]. split; [constructor|].
      reflexivity.
  - destruct (Scheme (m_options s)).
    + rewrite (implicitLinear_err s0 Ef) in H. discriminate.
    + rewrite (implicitNonlinear_err s0 Ef) in H. discriminate.
    + inversion H; subst s'. exists [].
      split; [simpl; now rewrite app_nil_r|]. split; [constructor|].
      reflexivity.
Qed.

(** *** Steps in sequence *)

Lemma makeTimeSteps_outside calls : forall (s s' : Integrator T),
  makeTimeSteps calls s = Ok s' ->
  saved s' = saved s /\ hasSavedState s' = hasSavedState s /\
  m_options s' = m_options s /\
  velocityALE s' = velocityALE s /\ patchesALE s' = patchesALE s.
Proof.
  induction calls as [|[dt ale] rest IH]; intros s s' H; simpl in H.
  - inversion H. repeat split.
  - destruct (makeTimeStep dt ale s) as [s1|e] eqn:E; cbn [bind] in H;
      [|discriminate].
    destruct (makeTimeStep_outside _ _ _ E) as (Hv & Hp & Ho & Hh & Hs & _).
    destruct (IH _ _ H) as (Hs' & Hh' & Ho' & Hv' & Hp').
    repeat split; congruence.
Qed.

Lemma saveState_initialized (s s1 : Integrator T) :
  saveState s = Ok s1 -> initialized s1 = true.
Proof.
  intros H. destruct (initialized s) eqn:Ei.
  - unfold saveState in H. rewrite Ei in H. cbn [bind] in H.
    inversion H. exact Ei.
  - rewrite saveState_uninitialized in H by exact Ei.
    destruct (initialize_cases s) as [[E _]|[[s0 E] Hr]]; rewrite E in H;
      cbn [bind] in H; [discriminate|].
    destruct (initialize_spec s Hr) as (s0' & E' & Hi & _).
    rewrite E in E'. inversion E'; subst s0'.
    unfold saveState in H. rewrite Hi in H. cbn [bind] in H.
    inversion H. exact Hi.
Qed.

(** What [recoverState] does not write. *)
Lemma recoverState_frame (s s' : Integrator T) :
  recoverState s = Ok s' ->
  oldTimeStep s' = oldTimeStep s /\ tStep s' = tStep s /\
  numIters s' = numIters s /\ sysMatrix s' = sysMatrix s /\
  sysRhs s' = sysRhs s /\ constRHS s' = constRHS s /\
  m_options s' = m_options s /\ flagALE s' = flagALE s /\
  initialized s' = initialized s /\ log s' = log s /\
  massMatrix (massAssembler s') = massMatrix (massAssembler s) /\
  massDdof (massAssembler s') = massDdof (massAssembler s) /\
  nsFixedDofs (stiffAssembler s') = nsFixedDofs (stiffAssembler s) /\
  nsAssembly (stiffAssembler s') = nsAssembly (stiffAssembler s).
Proof.
  intros H. unfold recoverState in H.
  destruct (hasSavedState s); [|discriminate].
  inversion H. repeat split.
Qed.

(** X1: a checkpoint survives any number of steps: after [saveState()] and
    any sequence of completed [makeTimeStep] calls, [recoverState()]
    succeeds and gives back the solution vector, the previous solution
    vector, the fixed degrees of freedom and the cached stiffness matrix,
    stiffness right-hand side and mass right-hand side of the moment of the
    [saveState()]. *)
Theorem checkpoint_survives_the_steps calls (s s1 s2 : Integrator T) :
  saveState s = Ok s1 ->
  makeTimeSteps calls s1 = Ok s2 ->
  exists s3,
    recoverState s2 = Ok s3 /\
    solVector s3 = solVector s1 /\
    oldSolVector s3 = oldSolVector s1 /\
    m_ddof s3 = m_ddof s1 /\
    nsMatrix (stiffAssembler s3) = nsMatrix (stiffAssembler s1) /\
    nsRhs (stiffAssembler s3) = nsRhs (stiffAssembler s1) /\
    massRhs (massAssembler s3) = massRhs (massAssembler s1).
Proof.
  intros Hs Hm.
  destruct (saveState_spec _ Hs) as [Hh Hc].
  destruct (makeTimeSteps_outside _ _ Hm) as (Hc2 & Hh2 & _).
  rewrite Hh in Hh2. rewrite Hc in Hc2.
  destruct (recoverState_spec s2 Hh2)
    as (s3 & H3 & ? & ? & ? & ? & ? & ? & _).
  exists s3. rewrite Hc2 in *. simpl in *. repeat split; assumption.
Qed.

(** X2: the roll-back is partial.  [recoverState()] writes neither
    [oldTimeStep], [tStep], [numIters] nor [m_system]; so after
    [saveState()], an implicit-linear step of size [dt] and
    [recoverState()], the solution vectors are the checkpointed ones but
    the previous step size is [dt], the size of the step that was undone,
    the iteration count is that of the undone step and [m_system] is the
    system it solved. *)
Theorem rollback_keeps_the_step_size dt ale (s s1 s2 s3 : Integrator T) :
  saveState s = Ok s1 ->
  Scheme (m_options s1) = implicit_linear ->
  makeTimeStep dt ale s1 = Ok s2 ->
  recoverState s2 = Ok s3 ->
  oldSolVector s3 = oldSolVector s1 /\
  solVector s3 = solVector s1 /\
  oldTimeStep s3 = dt /\ tStep s3 = dt /\ numIters s3 = 1 /\
  sysMatrix s3 = sysMatrix s2 /\ sysRhs s3 = sysRhs s2.
Proof.
  intros Hs Hsch Hm Hr.
  assert (Hi : initialized s1 = true) by exact (saveState_initialized _ Hs).
  destruct (step_rolled_back _ _ _ Hs Hm) as (s3' & Hr' & Hv & Ho & _).
  rewrite Hr in Hr'. inversion Hr'; subst s3'.
  destruct (recoverState_frame _ Hr)
    as (Ft & Fs & Fn & Fm & Fr & _).
  rewrite makeTimeStep_initialized, Hsch in Hm by exact Hi.
  set (s0 := set_flagALE ale (set_tStep dt s1)) in *.
  destruct (assembledFlag (massAssembler s0)) eqn:Ef.
  - destruct (implicitLinear_spec s0 Ef)
      as (s2' & ? & ? & H2 & _ & _ & _ & Hn & _ & Hot & Htt & _).
    rewrite H2 in Hm. inversion Hm; subst s2'.
    change (tStep s0) with dt in Hot, Htt.
    repeat split; try assumption; congruence.
  - rewrite (implicitLinear_err s0 Ef) in Hm. discriminate.
Qed.

(** X3: a value of the option "Scheme" that is neither implicit-linear nor
    implicit-nonlinear makes [makeTimeStep] a silent no-op: on an
    initialised integrator it records the step size and the ALE flag and
    nothing else; no system is assembled or solved, the solution does not
    move and nothing is raised. *)
Theorem unknown_scheme_does_nothing dt ale (s : Integrator T) :
  initialized s = true ->
  Scheme (m_options s) = other_scheme ->
  makeTimeStep dt ale s = Ok (set_flagALE ale (set_tStep dt s)) /\
  (forall s', makeTimeStep dt ale s = Ok s' ->
     solVector s' = solVector s /\ log s' = log s /\
     numIters s' = numIters s /\ tStep s' = dt /\ flagALE s' = ale /\
     stiffAssembler s' = stiffAssembler s /\
     massAssembler s' = massAssembler s).
Proof.
  intros Hi Hs.
  assert (H : makeTimeStep dt ale s = Ok (set_flagALE ale (set_tStep dt s)))
    by (rewrite makeTimeStep_initialized, Hs by exact Hi; reflexivity).
  split; [exact H|].
  intros s' H'. rewrite H in H'. inversion H'. repeat split.
Qed.

(** X4: a completed step of either implicit scheme adopts the fixed degrees
    of freedom the stiffness assembler holds when the step is called: after
    the step [m_ddof] and the mass assembler's fixed degrees of freedom are
    [stiffAssembler.allFixedDofs()], which the step does not change, and the
    mass right-hand side is the one eliminated with them. *)
Theorem step_adopts_the_fixed_dofs dt ale (s s' : Integrator T) :
  initialized s = true ->
  Scheme (m_options s) <> other_scheme ->
  makeTimeStep dt ale s = Ok s' ->
  m_ddof s' = nsFixedDofs (stiffAssembler s) /\
  massDdof (massAssembler s') = nsFixedDofs (stiffAssembler s) /\
  nsFixedDofs (stiffAssembler s') = nsFixedDofs (stiffAssembler s) /\
  massRhs (massAssembler s') = eliminatedRhs s.
Proof.
  intros Hi Hs H. rewrite makeTimeStep_initialized in H by exact Hi.
  set (s0 := set_flagALE ale (set_tStep dt s)) in *.
  assert (He : eliminatedRhs s0 = eliminatedRhs s) by reflexivity.
  assert (Hf : nsFixedDofs (stiffAssembler s0)
               = nsFixedDofs (stiffAssembler s)) by reflexivity.
  destruct (assembledFlag (massAssembler s0)) eqn:Ef.
  - destruct (Scheme (m_options s)).
    + destruct (implicitLinear_more s0 Ef)
        as (s2 & H2 & Hd & Hm & Hn & Hr & _).
      rewrite H2 in H. inversion H; subst s2.
      rewrite <- He, <- Hf. repeat split; assumption.
    + destruct (implicitNonlinear_more s0 Ef)
        as (s2 & l & H2 & _ & _ & Hd & Hm & Hn & Hr).
      rewrite H2 in H. inversion H; subst s2.
      rewrite <- He, <- Hf. repeat split; assumption.
    + congruence.
  - destruct (Scheme (m_options s)).
    + rewrite (implicitLinear_err s0 Ef) in H. discriminate.
    + rewrite (implicitNonlinear_err s0 Ef) in H. discriminate.
    + congruence.
Qed.
(** X6: the two schemes construct the velocity from different fixed degrees
    of freedom.  The implicit-linear step uses the ones the stiffness
    assembler holds at the call; every iteration of the implicit-nonlinear
    step uses [m_ddof] as it was before the call, that is the ones adopted
    by the previous step. *)
Theorem fixed_dofs_of_the_velocity dt ale (s s' : Integrator T) :
  initialized s = true ->
  makeTimeStep dt ale s = Ok s' ->
  exists l,
    log s' = log s ++ l /\
    match Scheme (m_options s) with
    | implicit_linear => constructedFrom (nsFixedDofs (stiffAssembler s)) l
    | implicit_nonlinear => constructedFrom (m_ddof s) l
    | other_scheme => l = []
    end.
Proof.
  intros Hi H.
  destruct (makeTimeStep_rounds _ _ _ Hi H) as (l & Hl & Hr & Ho).
  exists l. split; [exact Hl|].
  destruct (Scheme (m_options s)).
  - exact (rounds_constructedFrom Hr).
  - exact (rounds_constructedFrom Hr).
  - exact (Ho eq_refl).
Qed.

(** *** The checks of a step *)

Lemma saveState_frame (s s1 : Integrator T) :
  initialized s = true ->
  saveState s = Ok s1 ->
  initialized s1 = true /\ m_options s1 = m_options s /\
  massAssembler s1 = massAssembler s /\ solVector s1 = solVector s.
Proof.
  intros Hi H. unfold saveState in H. rewrite Hi in H. cbn [bind] in H.
  inversion H. repeat split. exact Hi.
Qed.

Lemma makeTimeStep_fresh_ok dt ale (s : Integrator T) :
  initialized s = false ->
  rows (solVector s) = nsNumDofs (stiffAssembler s) ->
  exists s', makeTimeStep dt ale s = Ok s'.
Proof.
  intros Hi Hr. rewrite makeTimeStep_uninitialized by exact Hi.
  destruct (initialize_spec s Hr) as (s1 & E & Hi1 & Hf1 & _).
  rewrite E. cbn [bind]. apply makeTimeStep_ok; assumption.
Qed.

Lemma makeTimeStep_safe dt ale (s : Integrator T) :
  safe s -> exists s', makeTimeStep dt ale s = Ok s' /\ safe s'.
Proof.
  intros [Hi [Ho|Hf]].
  - rewrite makeTimeStep_initialized, Ho by exact Hi.
    eexists. split; [reflexivity|]. split; [exact Hi | left; exact Ho].
  - destruct (makeTimeStep_ok dt ale s Hi Hf) as [s' E].
    exists s'. split; [exact E|]. split.
    + apply (makeTimeStep_outside _ _ _ E).
    + right. exact (makeTimeStep_keeps_flag _ _ _ Hi Hf E).
Qed.

Lemma makeTimeStep_gives_safe dt ale (s s' : Integrator T) :
  makeTimeStep dt ale s = Ok s' -> safe s'.
Proof.
  intros H. destruct (initialized s) eqn:Hi.
  - destruct (Scheme (m_options s)) eqn:Hs.
    + destruct (assembledFlag (massAssembler s)) eqn:Hf.
      * destruct (makeTimeStep_safe dt ale (conj Hi (or_intror Hf)))
          as (s2 & E & Hsafe).
        rewrite E in H. inversion H; subst. exact Hsafe.
      * rewrite makeTimeStep_initialized, Hs in H by exact Hi.
        rewrite implicitLinear_err in H by exact Hf. discriminate.
    + destruct (assembledFlag (massAssembler s)) eqn:Hf.
      * destruct (makeTimeStep_safe dt ale (conj Hi (or_intror Hf)))
          as (s2 & E & Hsafe).
        rewrite E in H. inversion H; subst. exact Hsafe.
      * rewrite makeTimeStep_initialized, Hs in H by exact Hi.
        rewrite implicitNonlinear_err in H by exact Hf. discriminate.
    + destruct (makeTimeStep_safe dt ale (conj Hi (or_introl Hs)))
        as (s2 & E & Hsafe).
      rewrite E in H. inversion H; subst. exact Hsafe.
  - rewrite makeTimeStep_uninitialized in H by exact Hi.
    destruct (initialize_cases s) as [[E _]|[[s1 E] Hr]]; rewrite E in H;
      cbn [bind] in H; [discriminate|].
    destruct (initialize_spec s Hr) as (s1' & E' & Hi1 & Hf1 & _).
    rewrite E in E'. inversion E'; subst s1'.
    destruct (makeTimeStep_safe dt ale (conj Hi1 (or_intror Hf1)))
      as (s2 & E2 & Hsafe).
    rewrite E2 in H. inversion H; subst. exact Hsafe.
Qed.

Lemma makeTimeSteps_safe calls : forall s : Integrator T,
  safe s -> exists s', makeTimeSteps calls s = Ok s'.
Proof.
  induction calls as [|[dt ale] rest IH]; intros s Hs; simpl.
  - eexists. reflexivity.
  - destruct (makeTimeStep_safe dt ale Hs) as (s1 & E & Hs1).
    rewrite E. cbn [bind]. apply IH. exact Hs1.
Qed.

(** X9: only the first step can raise.  The two checks a step can fail, the
    initial condition in [initialize()] and the assembled mass matrix in
    [eliminateFixedDofs()], fail in the first call of [makeTimeStep] or
    never: once one call has returned, every further sequence of calls
    returns. *)
Theorem only_the_first_step_raises dt ale calls (s s' : Integrator T) :
  makeTimeStep dt ale s = Ok s' ->
  exists s'', makeTimeSteps calls s' = Ok s''.
Proof.
  intros H. apply makeTimeSteps_safe.
  exact (makeTimeStep_gives_safe _ _ _ H).
Qed.

(** X10: with an initial condition of the right size no step raises: on an
    integrator that is not initialised yet and whose solution vector has
    [numDofs] rows, as after the constructor and [setSolutionVector], every
    sequence of [makeTimeStep] calls returns. *)
Theorem steps_with_an_initial_condition_return calls (s : Integrator T) :
  initialized s = false ->
  rows (solVector s) = nsNumDofs (stiffAssembler s) ->
  exists s', makeTimeSteps calls s = Ok s'.
Proof.
  intros Hi Hr. destruct calls as [|[dt ale] rest]; simpl.
  - eexists. reflexivity.
  - destruct (makeTimeStep_fresh_ok dt ale s Hi Hr) as [s1 E].
    rewrite E. cbn [bind]. apply makeTimeSteps_safe.
    exact (makeTimeStep_gives_safe _ _ _ E).
Qed.

(** *** Initialisation *)

Lemma makeTimeSteps_events calls : forall s s' : Integrator T,
  initialized s = true ->
  makeTimeSteps calls s = Ok s' ->
  exists l, log s' = log s ++ l /\ filter initEvent l = [].
Proof.
  induction calls as [|[dt ale] rest IH]; intros s s' Hi H; simpl in H.
  - inversion H. exists []. rewrite app_nil_r. split; reflexivity.
  - destruct (makeTimeStep dt ale s) as [s1|e] eqn:E; cbn [bind] in H;
      [|discriminate].
    destruct (makeTimeStep_rounds _ _ _ Hi E) as (l1 & Hl1 & Hr1 & _).
    assert (Hi1 : initialized s1 = true)
      by apply (makeTimeStep_outside _ _ _ E).
    destruct (IH _ _ Hi1 H) as (l2 & Hl2 & Hf2).
    exists (l1 ++ l2). split.
    + rewrite Hl2, Hl1, app_assoc. reflexivity.
    + rewrite filter_app, (rounds_no_init Hr1), Hf2. reflexivity.
Qed.

(** X24: [initialize()] runs once.  Over any sequence of steps an
    integrator that was initialised logs no assembly from the solution
    vector and no mass assembly; one that was not logs, in its first step,
    one assembly of the stiffness from the initial solution vector, and one
    mass assembly unless the mass matrix was assembled before. *)
Theorem initialisation_happens_once calls (s s' : Integrator T) :
  makeTimeSteps calls s = Ok s' ->
  exists l,
    log s' = log s ++ l /\
    (initialized s = true -> filter initEvent l = []) /\
    (initialized s = false -> calls <> [] ->
     filter initEvent l
     = StiffAssembleVector (solVector s) (m_ddof s)
       :: (if assembledFlag (massAssembler s) then [] else [MassAssemble])).
Proof.
  intros H. destruct (initialized s) eqn:Hi.
  - destruct (makeTimeSteps_events _ _ Hi H) as (l & Hl & Hf).
    exists l. split; [exact Hl|]. split; [intros _; exact Hf|discriminate].
  - destruct calls as [|[dt ale] rest].
    + simpl in H. inversion H. exists []. rewrite app_nil_r.
      split; [reflexivity|]. split; [discriminate|].
      intros _ Hne. exfalso. apply Hne. reflexivity.
    + simpl in H.
      destruct (makeTimeStep dt ale s) as [s2|e] eqn:E; cbn [bind] in H;
        [|discriminate].
      rewrite makeTimeStep_uninitialized in E by exact Hi.
      destruct (initialize_cases s) as [[Ei _]|[[s1 Ei] Hr]];
        rewrite Ei in E; cbn [bind] in E; [discriminate|].
      destruct (initialize_spec s Hr) as (s1' & Ei' & Hi1 & _ & Hl0 & _).
      rewrite Ei in Ei'. inversion Ei'; subst s1'.
      destruct (makeTimeStep_rounds _ _ _ Hi1 E) as (l1 & Hl1 & Hr1 & _).
      assert (Hi2 : initialized s2 = true)
        by apply (makeTimeStep_outside _ _ _ E).
      destruct (makeTimeSteps_events _ _ Hi2 H) as (l2 & Hl2 & Hf2).
      eexists. split.
      * rewrite Hl2, Hl1, Hl0, <- !app_assoc. reflexivity.
      * split; [discriminate|]. intros _ _.
        rewrite filter_app, filter_app, (rounds_no_init Hr1), Hf2.
        rewrite !app_nil_r.
        destruct (assembledFlag (massAssembler s)); reflexivity.
Qed.

End More.

(** *** The theta-scheme at its ends *)

Section Theta.
Context {T : Type} {ST : Scalar T} {B : Backend T}.
Hypothesis Tring : ring_theory szero sone sadd smul ssub sopp (@eq T).
Add Ring scalar_ring_more : Tring.

Lemma ssum_zero n (f : nat -> T) :
  (forall k, f k = szero) -> ssum n f = szero.
Proof.
  intros Hf. induction n as [|n IH]; simpl; [reflexivity|].
  rewrite IH, Hf. ring.
Qed.

(** X5: the first implicit-linear step extrapolates nothing.  When
    [makeTimeStep] itself initialises the integrator, the vector the
    velocity is constructed from,
    [solVector + dt/oldTimeStep*(solVector-oldSolVector)], has the
    coefficients and the dimensions of the initial solution vector. *)
Theorem first_linear_step_starts_from_the_solution dt ale
    (s s' : Integrator T) :
  initialized s = false ->
  Scheme (m_options s) = implicit_linear ->
  makeTimeStep dt ale s = Ok s' ->
  exists x v0 p0,
    In (ConstructSolution x (nsFixedDofs (stiffAssembler s)) v0 p0)
       (log s') /\
    rows x = rows (solVector s) /\ cols x = cols (solVector s) /\
    forall i j, coef x i j = coef (solVector s) i j.
Proof.
  intros Hi Hs H.
  rewrite makeTimeStep_uninitialized in H by exact Hi.
  destruct (initialize_cases s) as [[E _]|[[s1 E] Hr]]; rewrite E in H;
    cbn [bind] in H; [discriminate|].
  destruct (initialize_spec s Hr)
    as (s1' & E' & Hi1 & Hf1 & _ & Hsol & Hold & Hstep & Ho & _).
  rewrite E in E'. inversion E'; subst s1'.
  assert (Hfd : nsFixedDofs (stiffAssembler s1)
                = nsFixedDofs (stiffAssembler s)).
  { unfold initialize in E.
    destruct (rows (solVector s) =? nsNumDofs (stiffAssembler s));
      [|discriminate].
    inversion E. destruct (negb (assembledFlag _)); reflexivity. }
  rewrite makeTimeStep_initialized, Ho, Hs in H by exact Hi1.
  set (s0 := set_flagALE ale (set_tStep dt s1)) in *.
  assert (Hf0 : assembledFlag (massAssembler s0) = true) by exact Hf1.
  destruct (implicitLinear_spec s0 Hf0) as (s2 & v0 & p0 & H2 & Hl & _).
  rewrite H2 in H. inversion H; subst s2.
  exists (extrapolation s0), v0, p0.
  split.
  { rewrite Hl. apply in_or_app. right. left.
    change (nsFixedDofs (stiffAssembler s0))
      with (nsFixedDofs (stiffAssembler s1)).
    rewrite Hfd. reflexivity. }
  change (extrapolation s0)
    with (madd (solVector s1)
               (mscale (dt / oldTimeStep s1)%S
                       (msub (solVector s1) (oldSolVector s1)))).
  rewrite Hold, Hsol. simpl.
  split; [reflexivity|]. split; [reflexivity|].
  intros i j. ring.
Qed.

(** X7: with [theta = 1] (implicit Euler) the previous step enters the
    right-hand side through the mass terms only: on the velocity rows it is
    [M*u_n - M_FD*u_DDOFS_n], on the pressure rows it is zero; neither the
    stiffness matrix nor the body force of the previous step is used. *)
Theorem implicit_euler_previous_step (s : Integrator T) :
  Theta (m_options s) = sone ->
  forall i j,
    coef (previousStepRhs s) i j =
    if i <? massNumDofs (massAssembler s)
    then (coef (mmul (massMatrix (massAssembler s))
                     (middleRows 0 (massNumDofs (massAssembler s))
                                 (solVector s))) i j
          - coef (massRhs (massAssembler s)) i j)%S
    else szero.
Proof.
  intros Ht i j. unfold previousStepRhs. rewrite Ht. cbv zeta.
  cbn [coef subRows addRows mscale rows cols].
  change (0 <=? i) with true. cbn [andb Nat.add].
  rewrite Nat.sub_0_r.
  destruct (i <? massNumDofs (massAssembler s)).
  - assert (Hz : coef (mmul (mscale (tStep s * (sone - sone))%S
                   (block 0 0 (massNumDofs (massAssembler s))
                          (massNumDofs (massAssembler s))
                          (nsMatrix (stiffAssembler s))))
                   (middleRows 0 (massNumDofs (massAssembler s))
                               (solVector s))) i j = szero).
    { cbn [coef mmul]. apply ssum_zero. intros k.
      cbn [coef mscale]. ring. }
    rewrite Hz. ring.
  - ring.
Qed.

(** X8: with [theta = 0] (explicit Euler) the system [assemble] builds has
    the mass matrix alone in the velocity-velocity block and the constant
    part alone as right-hand side: there the trial solution enters neither;
    the pressure rows and columns still carry [dt] times the stiffness. *)
Theorem explicit_euler_system x fd b (s : Integrator T) :
  Theta (m_options s) = szero ->
  massNumDofs (massAssembler s) <= nsNumDofs (stiffAssembler s) ->
  let s' := fst (assemble x fd b s) in
  forall i j,
    coef (sysRhs s') i j = coef (constRHS s) i j /\
    coef (sysMatrix s') i j =
    if (i <? massNumDofs (massAssembler s))
       && (j <? massNumDofs (massAssembler s))
    then coef (massMatrix (massAssembler s)) i j
    else (tStep s * coef (nsMatrix (stiffAssembler s')) i j)%S.
Proof.
  intros Ht Hn s' i j. split.
  - change (sysRhs s')
      with (madd (mscale (tStep s * Theta (m_options s))%S
                         (nsRhs (stiffAssembler s'))) (constRHS s)).
    rewrite Ht. cbn [coef madd mscale]. ring.
  - change (sysMatrix s') with
      (systemMatrix (tStep s) (Theta (m_options s))
                    (massNumDofs (massAssembler s))
                    (nsNumDofs (stiffAssembler s))
                    (nsMatrix (stiffAssembler s'))
                    (massMatrix (massAssembler s))).
    rewrite (systemMatrix_coef Tring) by exact Hn. rewrite Ht.
    destruct ((i <? _) && (j <? _)); [ring|reflexivity].
Qed.

(** X22: the implicit-linear step solves with the right-hand side the
    nonlinear scheme would assemble: coefficient by coefficient,
    [m_system.rhs()] is [dt*theta] times the right-hand side of the
    stiffness assembled in the step plus the constant part of the step. *)
Theorem linear_rhs_is_the_constant_part_plus_the_load dt ale
    (s s' : Integrator T) :
  initialized s = true ->
  Scheme (m_options s) = implicit_linear ->
  makeTimeStep dt ale s = Ok s' ->
  forall i j,
    coef (sysRhs s') i j
    = (dt * Theta (m_options s) * coef (nsRhs (stiffAssembler s')) i j
       + coef (constantRhs (set_tStep dt s)) i j)%S.
Proof.
  intros Hi Hs H i j.
  rewrite makeTimeStep_initialized, Hs in H by exact Hi.
  set (s0 := set_flagALE ale (set_tStep dt s)) in *.
  destruct (assembledFlag (massAssembler s0)) eqn:Ef.
  - destruct (implicitLinear_rhs s0 Ef) as (s2 & H2 & Hr).
    rewrite H2 in H. inversion H; subst s2.
    rewrite Hr.
    change (previousStepRhs s0) with (previousStepRhs (set_tStep dt s)).
    change (eliminatedRhs s0) with (eliminatedRhs (set_tStep dt s)).
    change (massNumDofs (massAssembler s0))
      with (massNumDofs (massAssembler (set_tStep dt s))).
    change (tStep s0) with dt.
    change (Theta (m_options s0)) with (Theta (m_options s)).
    unfold constantRhs.
    set (P := previousStepRhs (set_tStep dt s)).
    set (E := eliminatedRhs (set_tStep dt s)).
    cbn [coef addRows madd mscale].
    destruct ((0 <=? i) && (i <? 0 + _)); ring.
  - rewrite (implicitLinear_err s0 Ef) in H. discriminate.
Qed.

End Theta.

Section Subtraction.
Context {T : Type} {ST : Scalar T}.

(** X11: the ALE loop [velocity.patch(it.first).coefs() -=
    velocityALE->patch(it.second).coefs()] over a correspondence that lists
    no flow patch twice subtracts from every listed flow patch the ALE patch
    paired with it, once; it leaves every other patch as it is and keeps the
    number of patches. *)
Theorem ale_subtraction_patchwise patches (ale v : MultiPatch T) :
  NoDup (map fst patches) ->
  length (subtractALE patches ale v) = length v /\
  (forall p, ~ In p (map fst patches) ->
     nth_error (subtractALE patches ale v) p = nth_error v p) /\
  (forall p q c a,
     In (p, q) patches ->
     nth_error v p = Some c -> nth_error ale q = Some a ->
     nth_error (subtractALE patches ale v) p = Some (msub c a)).
Proof.
  intros Hnd. split; [apply subtractALE_length|]. split.
  - intros p Hp. apply subtractALE_other. exact Hp.
  - intros p q c a Hin Hc Ha.
    exact (subtractALE_listed patches ale v p q Hnd Hin Hc Ha).
Qed.

End Subtraction.

End IntegratorMore.

(** ** The mass assembler and the vector files *)

Module AssemblerFacts.
Import MassSetup VectorFiles.

Section Mass.
Context {T : Type} {ST : Scalar T} {B : Backend T}.

Lemma vstack_cols (l : list (Mat T)) : cols (vstack l) = 1.
Proof. destruct l; reflexivity. Qed.

Lemma vstack_rows (l : list (Mat T)) : rows (vstack l) = numFixedDofs l.
Proof.
  induction l as [|d r IH]; simpl; [reflexivity|].
  unfold numFixedDofs in IH. rewrite IH. reflexivity.
Qed.

(** X14: [eliminateFixedDofs] stacks the Dirichlet values of the unknowns in
    order into one column: the column has as many rows as there are fixed
    degrees of freedom, and the values of unknown [k] start at the row that
    is the sum of the sizes of the unknowns before it. *)
Theorem fixed_dofs_are_stacked_in_order (l : list (Mat T)) k d i :
  nth_error l k = Some d ->
  i < rows d ->
  rows (vstack l) = numFixedDofs l /\
  cols (vstack l) = 1 /\
  numFixedDofs (firstn k l) + i < numFixedDofs l /\
  coef (vstack l) (numFixedDofs (firstn k l) + i) 0 = coef d i 0.
Proof.
  intros Hk Hi.
  split; [apply vstack_rows|]. split; [apply vstack_cols|].
  revert k Hk. induction l as [|d0 r IH]; intros k Hk.
  - destruct k; discriminate.
  - destruct k as [|k]; simpl in Hk.
    + inversion Hk; subst d0. simpl. split; [lia|].
      apply Nat.ltb_lt in Hi. rewrite Hi. reflexivity.
    + destruct (IH k Hk) as [Hlt Hc].
      cbn [firstn]. unfold numFixedDofs in *. cbn [fold_right] in *.
      split; [lia|].
      cbn [vstack coef].
      assert (Hge : (rows d0 + fold_right (fun d n => rows d + n) 0
                                          (firstn k r) + i <? rows d0)
                    = false) by (apply Nat.ltb_ge; lia).
      rewrite Hge.
      replace (rows d0 + fold_right (fun d n => rows d + n) 0 (firstn k r)
               + i - rows d0)
        with (fold_right (fun d n => rows d + n) 0 (firstn k r) + i)
        by lia.
      exact Hc.
Qed.

(** X12: [eliminateFixedDofs] raises exactly when the mass matrix has not
    been assembled.  After [assemble()], with Dirichlet values set
    afterwards that have in total as many rows as those of the assembly,
    the elimination matrix has as many columns as the stacked values have
    rows, and the call succeeds: it writes a right-hand side with [numDofs]
    rows and one column and nothing else, so that calling it again changes
    nothing. *)
Theorem eliminateFixedDofs_after_assemble (m : MassAssembler T) ddofs :
  numFixedDofs ddofs = numFixedDofs (massDdof m) ->
  (eliminateFixedDofs m = Err MassNotAssembled <-> assembledFlag m = false) /\
  exists m',
    eliminateFixedDofs (massSetFixedDofs ddofs (massAssemble m)) = Ok m' /\
    cols (eliminationMatrix m') = rows (vstack (massDdof m')) /\
    massRhs m'
    = mmul (mscale (- sone)%S (eliminationMatrix (massAssemble m)))
           (vstack ddofs) /\
    rows (massRhs m') = massNumDofs m /\ cols (massRhs m') = 1 /\
    massMatrix m' = massMatrix (massAssemble m) /\
    eliminationMatrix m' = eliminationMatrix (massAssemble m) /\
    cols (eliminationMatrix m') = numFixedDofs (massDdof m) /\
    massDdof m' = ddofs /\
    assembledFlag m' = true /\
    eliminateFixedDofs m' = Ok m'.
Proof.
  intros Hrows. split.
  - unfold eliminateFixedDofs.
    destruct (assembledFlag m); split; intros H;
      try discriminate; reflexivity.
  - eexists. split; [reflexivity|].
    cbn [massRhs massSetRHS rows cols mmul mscale eliminationMatrix
         massSetFixedDofs massAssemble massMatrix massDdof assembledFlag].
    rewrite vstack_cols, vstack_rows.
    split; [symmetry; exact Hrows|]. repeat split.
Qed.

End Mass.

Section Homogeneous.
Context {T : Type} {ST : Scalar T}.
Hypothesis Tring : ring_theory szero sone sadd smul ssub sopp (@eq T).
Add Ring scalar_ring_mass : Tring.

Lemma vstack_zero (l : list (Mat T)) :
  (forall d, In d l -> forall i j, coef d i j = szero) ->
  forall i j, coef (vstack l) i j = szero.
Proof.
  induction l as [|d r IH]; intros H i j; simpl; [reflexivity|].
  destruct (i <? rows d).
  - apply H. left. reflexivity.
  - apply IH. intros d' Hd'. apply H. right. exact Hd'.
Qed.

(** X13: with homogeneous Dirichlet values (all zero, or none at all) the
    right-hand side [eliminateFixedDofs] computes is zero, whatever the
    elimination matrix holds. *)
Theorem homogeneous_values_eliminate_to_zero (m m' : MassAssembler T) :
  (forall d, In d (massDdof m) -> forall i j, coef d i j = szero) ->
  eliminateFixedDofs m = Ok m' ->
  forall i j, coef (massRhs m') i j = szero.
Proof.
  intros Hz H i j. unfold eliminateFixedDofs in H.
  destruct (assembledFlag m); [|discriminate].
  inversion H. cbn [massRhs massSetRHS coef mmul].
  apply (IntegratorMore.ssum_zero Tring). intros k. rewrite (vstack_zero _ Hz). ring.
Qed.

End Homogeneous.

Section Refresh.
Context {Basis T : Type} {ST : Scalar T}.

Lemma pushBases_length d (basis : Basis) : forall bases,
  length (pushBases d basis bases) = length bases + d.
Proof.
  induction d as [|d IH]; intros bases; simpl; [lia|].
  rewrite IH, length_app. simpl. lia.
Qed.

(** X15: [refresh()] on a newly constructed mass assembler succeeds exactly
    when the dimension of the body force is the parametric dimension of the
    domain and is 2 or 3; a mismatch is reported before an unsupported
    dimension.  The assembler then has one basis per component. *)
Theorem refresh_checks_the_dimensions domainDim targetDim (basis : Basis)
    (b : T) :
  let a := gsMassAssembler domainDim targetDim basis b in
  length (m_bases a) = targetDim /\
  (targetDim <> domainDim -> refresh a = inl DimensionMismatch) /\
  (targetDim = domainDim -> targetDim <> 2 -> targetDim <> 3 ->
   refresh a = inl UnsupportedDimension) /\
  ((exists a', refresh a = inr a') <->
   targetDim = domainDim /\ (targetDim = 2 \/ targetDim = 3)).
Proof.
  intros a.
  assert (Hl : length (m_bases a) = targetDim)
    by (unfold a; simpl; rewrite pushBases_length; reflexivity).
  split; [exact Hl|].
  unfold refresh. cbn [m_dim parDim a gsMassAssembler].
  split; [|split; [|split]].
  - intros H. apply Nat.eqb_neq in H. rewrite H. reflexivity.
  - intros H H2 H3. apply Nat.eqb_eq in H. rewrite H.
    apply Nat.eqb_neq in H2, H3. rewrite H2, H3. reflexivity.
  - intros [a' H].
    destruct (targetDim =? domainDim) eqn:E; [|discriminate].
    apply Nat.eqb_eq in E. split; [exact E|].
    destruct (targetDim =? 2) eqn:E2;
      [left; apply Nat.eqb_eq; exact E2|].
    destruct (targetDim =? 3) eqn:E3;
      [right; apply Nat.eqb_eq; exact E3|].
    discriminate.
  - intros [H [H2|H3]]; apply Nat.eqb_eq in H; rewrite H.
    + apply Nat.eqb_eq in H2. rewrite H2. eexists. reflexivity.
    + apply Nat.eqb_eq in H3. rewrite H3, orb_true_r. eexists. reflexivity.
Qed.

Hypothesis Tring : ring_theory szero sone sadd smul ssub sopp (@eq T).
Add Ring scalar_ring_refresh : Tring.

(** X16: [refresh()] is not idempotent on the options: every call
    multiplies [1 + bdO] by the number of bases, so after [k] calls
    [1 + bdO] is [m_bases.size()^k] times what it was; the dimensions and
    the bases stay. *)
Theorem refresh_compounds_the_reserve k : forall a a' : Setup Basis T,
  refreshes k a = inr a' ->
  (sone + bdO a')%S
  = (spow (ofNat (length (m_bases a))) k * (sone + bdO a))%S /\
  m_bases a' = m_bases a /\ m_dim a' = m_dim a /\ parDim a' = parDim a.
Proof.
  induction k as [|k IH]; intros a a' H; simpl in H.
  - inversion H; subst a'. simpl. split; [ring|]. repeat split.
  - destruct (refresh a) as [e|a1] eqn:E; [discriminate|].
    destruct (IH _ _ H) as (Hb & Hbases & Hd & Hp).
    unfold refresh in E.
    destruct (negb (m_dim a =? parDim a)); [discriminate|].
    destruct (negb ((m_dim a =? 2) || (m_dim a =? 3))); [discriminate|].
    inversion E; subst a1. clear E. simpl in *.
    rewrite Hb. split; [ring|]. repeat split; assumption.
Qed.

End Refresh.

Section Files.
Context {T : Type} {ST : Scalar T}.

Lemma readValues_numbers nums : forall tail (acc : list T),
  (forall x l, tail <> Some x :: l) ->
  readValues (map Some nums ++ tail) acc = acc ++ nums.
Proof.
  induction nums as [|x nums IH]; intros tail acc Ht; simpl.
  - rewrite app_nil_r. destruct tail as [|[y|] l]; try reflexivity.
    exfalso. exact (Ht y l eq_refl).
  - rewrite IH by exact Ht. rewrite <- app_assoc. reflexivity.
Qed.

Lemma fill_dims todo : forall i l (v : Mat T),
  rows (fill todo i l v) = rows v /\ cols (fill todo i l v) = cols v.
Proof.
  induction todo as [|k IH]; intros i l v; simpl; [split; reflexivity|].
  destruct (IH (S i) l (setCoef i 0 (nth i l szero) v)) as [Hr Hc].
  rewrite Hr, Hc. split; reflexivity.
Qed.

Lemma fill_coef todo : forall i l (v : Mat T) r c,
  coef (fill todo i l v) r c
  = if (i <=? r) && (r <? i + todo) && (c =? 0) then nth r l szero
    else coef v r c.
Proof.
  induction todo as [|k IH]; intros i l v r c; simpl.
  - replace (r <? i + 0) with (r <? i) by (f_equal; lia).
    destruct (i <=? r) eqn:E1; [|reflexivity].
    destruct (r <? i) eqn:E2; [|reflexivity].
    apply Nat.leb_le in E1. apply Nat.ltb_lt in E2. lia.
  - rewrite IH. cbn [coef setCoef].
    destruct (Nat.eq_dec r i) as [->|Hne].
    + rewrite Nat.eqb_refl, Nat.leb_refl.
      assert (H1 : (S i <=? i) = false) by (apply Nat.leb_gt; lia).
      assert (H2 : (i <? i + S k) = true) by (apply Nat.ltb_lt; lia).
      rewrite H1, H2. simpl. destruct (c =? 0); reflexivity.
    + assert (H0 : (r =? i) = false) by (apply Nat.eqb_neq; exact Hne).
      rewrite H0. cbn [andb].
      replace (r <? S i + k) with (r <? i + S k) by (f_equal; lia).
      destruct (i <=? r) eqn:E1, (S i <=? r) eqn:E2; try reflexivity.
      * apply Nat.leb_le in E1. apply Nat.leb_gt in E2. lia.
      * apply Nat.leb_gt in E1. apply Nat.leb_le in E2. lia.
Qed.

(** X17: [gsReadVector] returns whether the file could be opened.  A file
    that cannot be opened leaves the vector as it was.  A file that can be
    is read up to the first extraction that fails, whatever follows: the
    vector is replaced by a column with one row for each number read, in
    the order read; an empty file gives a column with no rows. *)
Theorem gsReadVector_reads_the_leading_numbers (vector : Mat T) nums tail :
  (forall x l, tail <> Some x :: l) ->
  gsReadVector vector None = (vector, false) /\
  snd (gsReadVector vector (Some (map Some nums ++ tail))) = true /\
  gsReadVector vector (Some (map Some nums ++ tail))
  = gsReadVector vector (Some (map Some nums)) /\
  let read := fst (gsReadVector vector (Some (map Some nums ++ tail))) in
  rows read = length nums /\ cols read = 1 /\
  forall i j, coef read i j
              = if (i <? length nums) && (j =? 0) then nth i nums szero
                else szero.
Proof.
  intros Ht. split; [reflexivity|]. split; [reflexivity|].
  assert (Hn : readValues (map Some nums ++ tail) [] = nums)
    by (rewrite readValues_numbers by exact Ht; reflexivity).
  assert (Hn' : readValues (map Some nums) [] = nums).
  { pose proof (@readValues_numbers nums [] []) as H.
    rewrite app_nil_r in H. apply H. intros x l. discriminate. }
  split.
  - unfold gsReadVector. rewrite Hn, Hn'. reflexivity.
  - unfold gsReadVector. rewrite Hn. cbn [fst].
    destruct (fill_dims (length nums) 0 nums (mzero (length nums) 1))
      as [Hr Hc].
    split; [exact Hr|]. split; [exact Hc|].
    intros i j. rewrite fill_coef. reflexivity.
Qed.

End Files.
End AssemblerFacts.

(** ** More on the coupled loop *)

Module CouplerMore.
Import Coupler CouplerFacts CouplerViews.

Section Loop.
Context {Beam Mesh Flow : Type} {solvers : Solvers Beam Mesh Flow}.

Lemma flowSteps_app (l1 l2 : list call) :
  flowSteps (l1 ++ l2) = flowSteps l1 ++ flowSteps l2.
Proof.
  induction l1 as [|c l1 IH]; simpl; [reflexivity|].
  destruct c; simpl; rewrite ?IH; reflexivity.
Qed.

Lemma total_app (l1 l2 : list R) :
  total (l1 ++ l2) = (total l1 + total l2)%R.
Proof.
  induction l1 as [|x l1 IH]; simpl; [lra|]. rewrite IH. lra.
Qed.

(** One round of the loop: the check and, on a valid mesh, the body. *)
Lemma round_spec cfg (s s' : State Beam Mesh Flow) :
  iteration cfg
    (record (CheckSolution (dispALE s) (checkSolution (mesh s) (dispALE s)))
            s) = Ok s' ->
  let t := stepSize cfg (simTime s) in
  exists l,
    trace s' = trace s ++ l /\
    stepSizes l = [t] /\
    simTime s' = (simTime s + t)%R /\
    numTimeStep s' = (numTimeStep s + 1)%R /\
    beam s' = beamMakeTimeStep t (beam s).
Proof.
  intros H t. apply iteration_spec in H. cbv zeta in H.
  destruct H as (Htr & Hs & Hn & Hb & _).
  change (simTime (record _ s)) with (simTime s) in *.
  change (numTimeStep (record _ s)) with (numTimeStep s) in *.
  change (beam (record _ s)) with (beam s) in *.
  fold t in Htr, Hs, Hb.
  eexists. split.
  - rewrite Htr. cbn [trace record]. rewrite <- app_assoc. reflexivity.
  - split; [|auto].
    unfold stepSizes. rewrite !flowSteps_app.
    destruct (Rltb (simTime s) 2); reflexivity.
Qed.

Section Books.

(** An account of the fluid steps kept in the fluid solver itself:
    [history] reads off the solver the sizes of the steps it has taken, a
    step appends its size, and neither the boundary values nor the geometry
    touch it. *)
Variable history : Flow -> list R.
Hypothesis history_step : forall t ale v f f',
  flowMakeTimeStep t ale v f = Ok f' -> history f' = history f ++ [t].
Hypothesis history_values : forall p side values f,
  history (flowSetFixedDofs p side values f) = history f.
Hypothesis history_geometry : forall p increment f,
  history (flowMovePatch p increment f) = history f.

Lemma aleVelocity_history t : forall sol disp p (f : Flow),
  history (snd (aleVelocity t p sol disp f)) = history f.
Proof.
  induction sol as [|a sol IH]; intros disp p f; [reflexivity|].
  destruct disp as [|d disp]; [reflexivity|].
  cbn [aleVelocity].
  specialize (IH disp (S p) (flowMovePatch (p + 3) (msub a d) f)).
  destruct (aleVelocity t (S p) sol disp _) as [rest f'].
  cbn [snd] in *. rewrite IH. apply history_geometry.
Qed.

Lemma rampInflow_history cfg t (s : State Beam Mesh Flow) :
  history (flow (rampInflow cfg t s)) = history (flow s).
Proof.
  unfold rampInflow. destruct (Rltb (simTime s) 2); [|reflexivity].
  cbn [flow record]. apply history_values.
Qed.

Lemma round_history cfg (s s' : State Beam Mesh Flow) c :
  iteration cfg (record c s) = Ok s' ->
  history (flow s') = history (flow s) ++ [stepSize cfg (simTime s)].
Proof.
  intros H. apply iteration_flow in H. cbv zeta in H.
  apply history_step in H.
  rewrite !history_values, aleVelocity_history, rampInflow_history in H.
  exact H.
Qed.

(** X18: the books of a run, kept in the solvers.  Whenever the loop is
    left without an exception, the fluid solver has taken, after the steps
    it had taken before, steps of certain sizes; the simulation time has
    advanced by their sum, the step counter by their number, and the beam
    solver has taken steps of the same sizes in the same order. *)
Theorem run_keeps_the_books fuel cfg : forall s s' : State Beam Mesh Flow,
  finalState (run fuel cfg s) = Some s' ->
  exists sizes,
    history (flow s') = history (flow s) ++ sizes /\
    simTime s' = (simTime s + total sizes)%R /\
    numTimeStep s' = (numTimeStep s + INR (length sizes))%R /\
    beam s' = beamAfter sizes (beam s).
Proof.
  induction fuel as [|fuel IH]; intros s s' H.
  - simpl in H. inversion H; subst s'. exists [].
    rewrite app_nil_r. simpl. repeat split; lra.
  - cbn [run] in H.
    destruct (Rltb (simTime s) (timeSpan cfg)).
    + destruct (checkSolution (mesh s) (dispALE s) =? -1)%Z.
      * destruct (iteration cfg _) as [s1|e] eqn:E; [|discriminate].
        pose proof (round_history _ _ _ E) as Hh1.
        destruct (round_spec _ _ E) as (_ & _ & _ & Hs1 & Hn1 & Hb1).
        destruct (IH _ _ H) as (sizes & Hh & Hs & Hn & Hb).
        exists (stepSize cfg (simTime s) :: sizes).
        cbn [total fold_right length beamAfter fold_left].
        split; [rewrite Hh, Hh1, <- app_assoc; reflexivity|].
        split; [rewrite Hs, Hs1; unfold total; lra|].
        split; [rewrite Hn, Hn1, S_INR; lra|].
        rewrite Hb, Hb1. reflexivity.
      * simpl in H. inversion H; subst s'. exists [].
        cbn [flow simTime numTimeStep beam record].
        rewrite app_nil_r. simpl. repeat split; lra.
    + simpl in H. inversion H; subst s'. exists [].
      rewrite app_nil_r. simpl. repeat split; lra.
Qed.

End Books.

(** X20: with a time step that is not positive and no warm-up the
    simulation time never advances: from a state before the end of the time
    span the loop is never left because the span is reached, however many
    iterations it makes. *)
Theorem nonpositive_step_never_reaches_the_span fuel cfg :
  forall s s' : State Beam Mesh Flow,
  (timeStep cfg <= 0)%R ->
  warmUp cfg = false ->
  (simTime s < timeSpan cfg)%R ->
  run fuel cfg s <> Stopped TimeSpanReached s'.
Proof.
  induction fuel as [|fuel IH]; intros s s' Hstep Hw Hlt; [discriminate|].
  cbn [run]. rewrite Rltb_true by exact Hlt.
  destruct (checkSolution (mesh s) (dispALE s) =? -1)%Z; [|discriminate].
  destruct (iteration cfg _) as [s1|e] eqn:E; [|discriminate].
  destruct (round_spec _ _ E) as (_ & _ & _ & Hs1 & _).
  apply IH; try assumption.
  rewrite Hs1. unfold stepSize. rewrite Hw. simpl. lra.
Qed.

Lemma aleVelocity_patches t : forall sol disp p (f : Flow),
  length sol = length disp ->
  length (fst (aleVelocity t p sol disp f)) = length sol /\
  forall k a d,
    nth_error sol k = Some a -> nth_error disp k = Some d ->
    exists v,
      nth_error (fst (aleVelocity t p sol disp f)) k = Some v /\
      rows v = rows a /\ cols v = cols a /\
      forall i j, coef v i j = ((coef a i j - coef d i j) / t)%R.
Proof.
  induction sol as [|a0 sol IH]; intros disp p f Hlen.
  - simpl. split; [reflexivity|]. intros k a d Hk. destruct k; discriminate.
  - destruct disp as [|d0 disp]; [discriminate|].
    injection Hlen as Hlen.
    cbn [aleVelocity].
    destruct (IH disp (S p) (flowMovePatch (p + 3) (msub a0 d0) f) Hlen)
      as [Hl Hp].
    destruct (aleVelocity t (S p) sol disp _) as [rest f'].
    cbn [fst] in *. split; [simpl; rewrite Hl; reflexivity|].
    intros k a d Hka Hkd. destruct k as [|k].
    + simpl in Hka, Hkd. inversion Hka; inversion Hkd; subst.
      eexists. split; [reflexivity|]. repeat split.
    + simpl in Hka, Hkd. apply (Hp k a d Hka Hkd).
Qed.

(** X21: the mesh velocity of an iteration is the rate of the mesh
    displacement over the step.  When the step size is not zero and the
    mesh displacement keeps its number of patches, the ALE velocity has
    that number of patches too, and on every patch the new displacement is
    the old one plus the step size times the ALE velocity. *)
Theorem mesh_velocity_is_the_displacement_rate cfg
    (s s' : State Beam Mesh Flow) :
  iteration cfg s = Ok s' ->
  stepSize cfg (simTime s) <> 0%R ->
  length (dispALE s') = length (dispALE s) ->
  length (velALE s') = length (dispALE s') /\
  forall p d d',
    nth_error (dispALE s) p = Some d ->
    nth_error (dispALE s') p = Some d' ->
    exists v,
      nth_error (velALE s') p = Some v /\
      rows v = rows d' /\ cols v = cols d' /\
      forall i j,
        coef d' i j
        = (coef d i j + stepSize cfg (simTime s) * coef v i j)%R.
Proof.
  intros H Ht Hlen. apply iteration_spec in H. cbv zeta in H.
  destruct H as (_ & _ & _ & _ & Hd & Hv).
  rewrite Hd in Hlen.
  destruct (@aleVelocity_patches (stepSize cfg (simTime s))
              (aleSolution (mesh s')) (dispALE s) 0
              (flow (rampInflow cfg (stepSize cfg (simTime s)) s)) Hlen)
    as [Hl Hp].
  rewrite <- Hv in Hl, Hp. rewrite <- Hd in Hl, Hp.
  split; [exact Hl|].
  intros p d d' Hpd Hpd'.
  destruct (Hp p d' d Hpd' Hpd) as (v & Hnv & Hr & Hc & Hco).
  exists v. repeat split; try assumption.
  intros i j. rewrite Hco. field. exact Ht.
Qed.

End Loop.

(** X23: the inflow never exceeds the saved values: the ramp factor lies
    between 0 and 1 at every time, so that every ramped inflow value is, in
    magnitude, at most the saved one. *)
Theorem ramp_stays_within_the_saved_values inflow simTime tStep :
  (0 <= rampFactor simTime tStep <= 1)%R /\
  forall i j,
    (Rabs (coef (rampedInflow inflow simTime tStep) i j)
     <= Rabs (coef inflow i j))%R.
Proof.
  assert (Hf : (0 <= rampFactor simTime tStep <= 1)%R).
  { unfold rampFactor.
    destruct (COS_bound (PI * (simTime + tStep) / 2)) as [Hl Hu]. lra. }
  split; [exact Hf|].
  intros i j. cbn [coef rampedInflow].
  replace (coef inflow i j * (1 - cos (PI * (simTime + tStep) / 2)) / 2)%R
    with (coef inflow i j * rampFactor simTime tStep)%R
    by (unfold rampFactor; field).
  rewrite Rabs_mult, (Rabs_pos_eq (rampFactor simTime tStep)) by lra.
  pose proof (Rabs_pos (coef inflow i j)). nra.
Qed.

End CouplerMore.

(** ** The further theorems on the instances *)

Module MoreRuns.
Import Examples MoreExamples Stepping NsTimeIntegratorFacts IntegratorMore.
Import MassSetup VectorFiles AssemblerFacts.
Import CouplerViews CouplerMore CouplerFacts Runs.

Lemma checkpointed_safe : safe checkpointed.
Proof.
  destruct started_ready as (_ & Hi & Hf).
  destruct (saveState_frame started Hi (proj1 toy_checkpoint))
    as (Hi' & _ & Hm & _).
  split; [exact Hi'|]. right. rewrite Hm. exact Hf.
Qed.

Lemma toy_linear_checkpoint :
  saveState (setScheme implicit_linear started) = Ok linearCheckpointed /\
  safe linearCheckpointed /\
  Scheme (m_options linearCheckpointed) = implicit_linear.
Proof.
  destruct started_ready as (_ & Hi & Hf).
  destruct (setScheme_ready implicit_linear started Hi Hf) as [Hi' Hf'].
  assert (Hs : saveState (setScheme implicit_linear started)
               = Ok linearCheckpointed)
    by (apply get_ok, saveState_ok; exact Hi').
  destruct (saveState_frame _ Hi' Hs) as (Hi2 & Ho & Hm & _).
  split; [exact Hs|]. split.
  - split; [exact Hi2|]. right. rewrite Hm. exact Hf'.
  - rewrite Ho. reflexivity.
Qed.

Lemma checkpoint_survives_two_steps :
  exists s2 s3,
    saveState started = Ok checkpointed /\
    makeTimeSteps [((1 # 100)%Q, true); ((1 # 50)%Q, false)] checkpointed
    = Ok s2 /\
    recoverState s2 = Ok s3 /\
    solVector s3 = solVector checkpointed /\
    oldSolVector s3 = oldSolVector checkpointed /\
    m_ddof s3 = m_ddof checkpointed.
Proof.
  destruct (makeTimeSteps_safe [((1 # 100)%Q, true); ((1 # 50)%Q, false)]
              checkpointed_safe) as [s2 E].
  destruct (checkpoint_survives_the_steps _ _ (proj1 toy_checkpoint) E)
    as (s3 & H3 & Hv & Ho & Hd & _).
  exists s2, s3.
  exact (conj (proj1 toy_checkpoint)
           (conj E (conj H3 (conj Hv (conj Ho Hd))))).
Defined.

Lemma rollback_on_the_toy_problem :
  exists s2 s3,
    saveState (setScheme implicit_linear started) = Ok linearCheckpointed /\
    makeTimeStep (1 # 100)%Q true linearCheckpointed = Ok s2 /\
    recoverState s2 = Ok s3 /\
    oldSolVector s3 = oldSolVector linearCheckpointed /\
    oldTimeStep s3 = (1 # 100)%Q.
Proof.
  destruct toy_linear_checkpoint as (Hs & Hsafe & Hsch).
  destruct (makeTimeStep_safe (1 # 100)%Q true Hsafe) as (s2 & E & _).
  destruct (step_rolled_back _ _ _ Hs E) as (s3 & H3 & _).
  destruct (rollback_keeps_the_step_size _ _ _ Hs Hsch E H3)
    as (Ho & _ & Ht & _).
  exists s2, s3.
  exact (conj Hs (conj E (conj H3 (conj Ho Ht)))).
Defined.

Lemma unknown_scheme_on_the_toy_problem :
  makeTimeStep (1 # 100)%Q true (setScheme other_scheme started)
  = Ok (set_flagALE true
          (set_tStep (1 # 100)%Q (setScheme other_scheme started))).
Proof.
  apply (proj1 (unknown_scheme_does_nothing (1 # 100)%Q true
                  (setScheme other_scheme started)
                  (proj1 (setScheme_ready other_scheme started
                            (proj1 (proj2 started_ready))
                            (proj2 (proj2 started_ready))))
                  eq_refl)).
Defined.

Lemma fixed_dofs_adopted_on_the_toy_problem :
  m_ddof afterNewton = nsFixedDofs (stiffAssembler started) /\
  massDdof (massAssembler afterNewton) = nsFixedDofs (stiffAssembler started).
Proof.
  assert (Hs : Scheme (m_options started) <> other_scheme)
    by (rewrite started_scheme; discriminate).
  destruct (step_adopts_the_fixed_dofs (1 # 100)%Q true started
              (proj1 (proj2 started_ready)) Hs (proj1 toy_newton_steps))
    as (H1 & H2 & _).
  exact (conj H1 H2).
Defined.

Lemma velocity_dofs_on_the_toy_problem :
  exists l,
    log afterNewton = log started ++ l /\
    constructedFrom (m_ddof started) l.
Proof.
  destruct (fixed_dofs_of_the_velocity (1 # 100)%Q true started
              (proj1 (proj2 started_ready)) (proj1 toy_newton_steps))
    as (l & Hl & Hc).
  rewrite started_scheme in Hc.
  exists l. exact (conj Hl Hc).
Defined.

Lemma first_linear_step_on_the_real_problem :
  exists s' x v0 p0,
    makeTimeStep (B := realBackend) (1 / 100)%R false realFresh = Ok s' /\
    In (ConstructSolution x (nsFixedDofs (stiffAssembler realFresh)) v0 p0)
       (log s') /\
    forall i j, coef x i j = coef (solVector realFresh) i j.
Proof.
  destruct (makeTimeStep_fresh_ok (B := realBackend) (1 / 100)%R false
              realFresh eq_refl eq_refl) as [s' E].
  destruct (first_linear_step_starts_from_the_solution
              (ST := Scalar_R) (B := realBackend) RTheory (1 / 100)%R false realFresh
              eq_refl eq_refl E) as (x & v0 & p0 & Hin & _ & _ & Hx).
  exists s', x, v0, p0.
  exact (conj E (conj Hin Hx)).
Defined.

Lemma implicit_euler_on_the_real_problem :
  coef (previousStepRhs (setTheta 1%R realStart)) 2 0 = 0%R.
Proof.
  exact (implicit_euler_previous_step (ST := Scalar_R) RTheory
           (setTheta 1%R realStart) eq_refl 2 0).
Defined.

Lemma explicit_euler_on_the_real_problem :
  coef (sysMatrix (fst (assemble (B := realBackend) (mzero 3 1) [] true
                          (setTheta 0%R realStart)))) 1 1
  = coef (massMatrix (massAssembler realStart)) 1 1.
Proof.
  assert (H : massNumDofs (massAssembler (setTheta 0%R realStart))
              <= nsNumDofs (stiffAssembler (setTheta 0%R realStart)))
    by (simpl; lia).
  exact (proj2 (explicit_euler_system (ST := Scalar_R)
                  (B := realBackend) RTheory
                  (mzero 3 1) [] true (setTheta 0%R realStart) eq_refl H
                  1 1)).
Defined.

Lemma later_steps_on_the_toy_problem :
  exists s'',
    makeTimeSteps [((1 # 100)%Q, true); ((1 # 100)%Q, false)] afterNewton
    = Ok s''.
Proof.
  exact (only_the_first_step_raises (1 # 100)%Q true
           [((1 # 100)%Q, true); ((1 # 100)%Q, false)]
           started (proj1 toy_newton_steps)).
Defined.

Lemma linear_rhs_on_the_real_problem :
  exists s',
    makeTimeStep (B := realBackend) (1 / 100)%R false
      (setScheme implicit_linear realStart) = Ok s' /\
    coef (sysRhs s') 0 0
    = (1 / 100 * Theta (m_options realStart)
       * coef (nsRhs (stiffAssembler s')) 0 0
       + coef (constantRhs (set_tStep (1 / 100)%R
                              (setScheme implicit_linear realStart))) 0 0)%R.
Proof.
  destruct (makeTimeStep_ok (B := realBackend) (1 / 100)%R false
              (setScheme implicit_linear realStart) eq_refl eq_refl)
    as [s' E].
  exists s'. split; [exact E|].
  exact (linear_rhs_is_the_constant_part_plus_the_load
           (ST := Scalar_R) (B := realBackend) RTheory (1 / 100)%R
           false (setScheme implicit_linear realStart)
           eq_refl eq_refl E 0 0).
Defined.

Lemma initialisation_on_the_toy_problem :
  exists s' l,
    makeTimeSteps [((1 # 100)%Q, true); ((1 # 50)%Q, true)] fresh = Ok s' /\
    log s' = log fresh ++ l /\
    filter initEvent l
    = [StiffAssembleVector (solVector fresh) (m_ddof fresh); MassAssemble].
Proof.
  destruct (makeTimeStep_fresh_ok (1 # 100)%Q true fresh eq_refl eq_refl)
    as [s1 E1].
  destruct (makeTimeSteps_safe [((1 # 50)%Q, true)]
              (makeTimeStep_gives_safe _ _ _ E1)) as [s' E2].
  assert (E : makeTimeSteps [((1 # 100)%Q, true); ((1 # 50)%Q, true)] fresh
              = Ok s').
  { cbn [makeTimeSteps]. rewrite E1. cbn [bind]. exact E2. }
  destruct (initialisation_happens_once _ _ E) as (l & Hl & _ & Hf).
  exists s', l. split; [exact E|]. split; [exact Hl|].
  apply Hf; [reflexivity|discriminate].
Defined.

Lemma steps_on_the_fresh_toy_problem :
  exists s',
    makeTimeSteps [((1 # 100)%Q, true); ((1 # 50)%Q, true)] fresh = Ok s'.
Proof.
  exact (steps_with_an_initial_condition_return
           [((1 # 100)%Q, true); ((1 # 50)%Q, true)] fresh
           eq_refl eq_refl).
Defined.

Lemma main_correspondence_has_no_repetition :
  NoDup (map fst mainPatchesALE).
Proof.
  change (NoDup [3; 4; 5]).
  repeat constructor; simpl; intuition lia.
Qed.

Lemma subtraction_on_the_flow_patches :
  nth_error (subtractALE mainPatchesALE threePatches sevenPatches) 4
  = Some (msub (mkMat 1 1 (fun _ _ => inject_Z (Z.of_nat 4)))
               (mkMat 1 1 (fun _ _ => inject_Z (10 * Z.of_nat 2)))) /\
  nth_error (subtractALE mainPatchesALE threePatches sevenPatches) 6
  = nth_error sevenPatches 6.
Proof.
  destruct (ale_subtraction_patchwise mainPatchesALE threePatches
              sevenPatches main_correspondence_has_no_repetition)
    as (_ & Hother & Hlisted).
  split.
  - apply (Hlisted 4 1); [|reflexivity|reflexivity].
    right. left. reflexivity.
  - apply Hother. change (~ In 6 [3; 4; 5]). simpl. intuition lia.
Defined.

Lemma homogeneous_values_on_the_real_problem :
  exists m',
    eliminateFixedDofs realHomogeneous = Ok m' /\
    forall i j, coef (massRhs m') i j = 0%R.
Proof.
  eexists. split; [reflexivity|].
  apply (homogeneous_values_eliminate_to_zero (ST := Scalar_R) RTheory
           realHomogeneous);
    [|reflexivity].
  intros d [<-|[<-|[]]] i j; reflexivity.
Defined.

Lemma two_refreshes_on_the_plane :
  exists a',
    refreshes 2 planeSetup = inr a' /\
    (1 + bdO a')%R = (spow (ofNat 2) 2 * (1 + 1 / 3))%R.
Proof.
  eexists. split; [reflexivity|].
  apply (proj1 (refresh_compounds_the_reserve (ST := Scalar_R) RTheory 2
                  planeSetup eq_refl)).
Defined.

Lemma reading_stops_at_the_first_word :
  rows (fst (gsReadVector (mzero 5 1)
               (Some [Some 1%Q; Some 2%Q; None; Some 3%Q]))) = 2 /\
  gsReadVector (mzero 5 1) (Some [Some 1%Q; Some 2%Q; None; Some 3%Q])
  = gsReadVector (mzero 5 1) (Some [Some 1%Q; Some 2%Q]).
Proof.
  assert (H : forall (x : Q) l, [None; Some 3%Q] <> Some x :: l)
    by (intros x l; discriminate).
  destruct (gsReadVector_reads_the_leading_numbers (mzero 5 1)
              [1%Q; 2%Q] H) as (_ & _ & Heq & Hr & _).
  exact (conj Hr Heq).
Defined.

(** *** The coupler *)

Section RecordedRun.
Import Coupler.

Lemma recorded_first_round :
  exists s1,
    run (solvers := recordingSolvers) 1 toyConfig recordingStart
    = OutOfFuel s1.
Proof.
  assert (H : exists s1,
            iteration (solvers := recordingSolvers) toyConfig
              (record (CheckSolution (segment 0) (-1)) recordingStart)
            = Ok s1).
  { unfold iteration, stepSize, rampInflow.
    simpl. rewrite (@Rltb_true 0 2) by lra. simpl.
    eexists. reflexivity. }
  destruct H as [s1 H1]. exists s1.
  cbn [run].
  change (simTime recordingStart) with 0%R.
  change (timeSpan toyConfig) with 3%R.
  rewrite (@Rltb_true 0 3) by lra.
  change (checkSolution (Solvers := recordingSolvers)
            (mesh recordingStart) (dispALE recordingStart))
    with (firstFolded 0 (segment 0)).
  rewrite segment_valid by lra.
  change (dispALE recordingStart) with (segment 0).
  change ((-1 =? -1)%Z) with true. cbv iota.
  rewrite H1. reflexivity.
Qed.

Lemma books_of_the_first_round :
  exists s1 sizes,
    finalState (run (solvers := recordingSolvers) 1 toyConfig
                    recordingStart) = Some s1 /\
    flow s1 = flow recordingStart ++ sizes /\
    simTime s1 = (simTime recordingStart + total sizes)%R /\
    numTimeStep s1 = (numTimeStep recordingStart + INR (length sizes))%R.
Proof.
  destruct recorded_first_round as [s1 H1].
  assert (Hf : finalState (run (solvers := recordingSolvers) 1 toyConfig
                               recordingStart) = Some s1)
    by (rewrite H1; reflexivity).
  destruct (@run_keeps_the_books R R (list R) recordingSolvers
              (fun f => f)
              (fun t ale v f f' (H : Ok (f ++ [t]) = Ok f') =>
                 eq_sym (f_equal (fun r => match r with
                                           | Ok x => x
                                           | Err _ => f'
                                           end) H))
              (fun _ _ _ _ => eq_refl) (fun _ _ _ => eq_refl)
              1 toyConfig recordingStart s1 Hf)
    as (sizes & Hh & Hs & Hn & _).
  exists s1, sizes. exact (conj Hf (conj Hh (conj Hs Hn))).
Defined.

End RecordedRun.

Lemma zero_step_never_reaches_the_span :
  Coupler.run 5 stuckConfig toyStart
  <> Coupler.Stopped Coupler.TimeSpanReached toyStart.
Proof.
  apply (@nonpositive_step_never_reaches_the_span R R unit toySolvers 5
            stuckConfig toyStart toyStart).
  - change (0 <= 0)%R. lra.
  - reflexivity.
  - change (0 < 3)%R. lra.
Defined.

Lemma mesh_velocity_on_the_toy_problem :
  exists s1,
    Coupler.iteration toyConfig
      (Coupler.record (Coupler.CheckSolution (segment 0) (-1)) toyStart)
    = Ok s1 /\
    length (Coupler.velALE s1) = length (Coupler.dispALE s1).
Proof.
  destruct toy_first_iteration as (s1 & H1 & _ & _ & Hd & _).
  exists s1. split; [exact H1|].
  apply (mesh_velocity_is_the_displacement_rate _ _ H1).
  - change (Coupler.stepSize toyConfig 0 <> 0%R).
    unfold Coupler.stepSize. simpl. lra.
  - rewrite Hd. reflexivity.
Defined.

Lemma elimination_with_regrouped_values :
  exists m',
    eliminateFixedDofs (massSetFixedDofs oneBlock (massAssemble dirichletMass))
    = Ok m' /\
    cols (eliminationMatrix m') = rows (vstack (massDdof m')) /\
    massDdof m' = oneBlock.
Proof.
  destruct (eliminateFixedDofs_after_assemble dirichletMass oneBlock
              eq_refl) as (_ & m' & H & Hc & _ & _ & _ & _ & _ & _ & Hd & _).
  exists m'. exact (conj H (conj Hc Hd)).
Defined.

Lemma stacked_values_of_the_second_unknown :
  coef (vstack twoValues) 1 0 = 7%Q.
Proof.
  exact (proj2 (proj2 (proj2
           (fixed_dofs_are_stacked_in_order twoValues 1
              (d := mkMat 1 1 (fun _ _ => 7%Q)) (i := 0)
              eq_refl (Nat.lt_0_succ 0))))).
Defined.

End MoreRuns.
